(** * node-formulator: dependency-tree resolution and parent normalisation

    A shallow embedding of [index.js]: the hash fetcher [getHash], the
    location tokenizer [getDepTreeBranch], the tree resolver
    [resolveDependencies], the parent normaliser [normalizeDepParents] and
    the part of the promise chain that runs them.

    Modelling conventions.
    - A JavaScript object used as a map is an [obj]: the list of its own
      properties in enumeration order (array-index keys in ascending order,
      then the other keys in insertion order).
    - The maps of the program are plain objects ([{}]), so reading a key
      that is no own property finds the members of [Object.prototype]:
      [obj_read] and [index_read] are those reads, and [pval] holds what
      they can put into a parent list.  Writing the key [__proto__] does
      not create a property: see [index_write] and [normalize_pass1].
    - [reverse_location] is only ever read by key, so its own properties
      are a [gmap].
    - The [info] objects are shared between [resources] and [native_addons]
      and mutated after they are shared; they live in a [heap] (a list
      indexed by address) and both containers hold addresses.
    - Arrays of strings ([_requiredBy], [parent]) are lists held by value:
      an array reachable from a tree node is never read again through the
      node after the resolver stored it in a record.
    - [throw] is the [Throw] outcome; the promise chain turns it into a
      rejection that skips the remaining [then] callbacks.  [Halt] is a run
      that ends without completing and without a rejection.
    - A node always has a [_location] and a [_requiredBy]; its other
      fields may be absent.  Strings are sequences of ASCII characters.
    - The network is a function [transfer] from URLs to what happens to
      the request for them. *)

From Stdlib Require Import Ascii String NArith ZArith.
From stdpp Require Import base option list sorting gmap strings.

(** ** Exceptions *)

Inductive exn : Type :=
  | Error (msg : string)
  | TypeError
  | TransportError (u : string).

(** ** Strings *)

Definition nl : string := String "010"%char EmptyString.
Definition dq : string := String "034"%char EmptyString.

(** [s.replace(pat, rep)] with a string pattern: only the first occurrence
    is replaced ([rep] holds no [$] pattern in this program). *)
Fixpoint replace (pat rep s : string) : string :=
  if String.prefix pat s then rep +:+ String.substring (String.length pat) (String.length s - String.length pat) s
  else match s with
       | EmptyString => EmptyString
       | String c s' => String c (replace pat rep s')
       end.

(** JavaScript truthiness of an optional string: [undefined] and the empty
    string are falsy. *)
Definition truthy (o : option string) : bool :=
  match o with
  | Some s => negb (String.eqb s "")
  | None => false
  end.

(** Template-literal interpolation of an optional string. *)
Definition show (o : option string) : string := default "undefined" o.

(** ** Objects used as maps *)

Definition obj (V : Type) : Type := list (string * V).

Definition is_digit (c : ascii) : bool :=
  (48 <=? nat_of_ascii c)%nat && (nat_of_ascii c <=? 57)%nat.

Fixpoint digits_value (s : string) (acc : N) : option N :=
  match s with
  | EmptyString => Some acc
  | String c s' =>
      if is_digit c then digits_value s' (acc * 10 + (N_of_ascii c - 48))%N
      else None
  end.

(** A key is an array index when it is the canonical decimal form of an
    integer below 2^32 - 1. *)
Definition array_index (s : string) : option N :=
  match s with
  | EmptyString => None
  | String c s' =>
      if Ascii.eqb c "0"%char
      then match s' with EmptyString => Some 0%N | _ => None end
      else match digits_value s 0 with
           | Some n => if (n <? 4294967295)%N then Some n else None
           | None => None
           end
  end.

(** [key_before k k']: a new key [k] is enumerated before the existing [k']. *)
Definition key_before (k k' : string) : bool :=
  match array_index k, array_index k' with
  | Some i, Some j => (i <? j)%N
  | Some _, None => true
  | None, _ => false
  end.

Section Obj.
Context {V : Type}.

Fixpoint obj_get (k : string) (o : obj V) : option V :=
  match o with
  | [] => None
  | (k', v) :: o' => if decide (k = k') then Some v else obj_get k o'
  end.

Fixpoint obj_update (k : string) (v : V) (o : obj V) : obj V :=
  match o with
  | [] => []
  | (k', v') :: o' =>
      if decide (k = k') then (k', v) :: o' else (k', v') :: obj_update k v o'
  end.

Fixpoint obj_add (k : string) (v : V) (o : obj V) : obj V :=
  match o with
  | [] => [(k, v)]
  | (k', v') :: o' =>
      if key_before k k' then (k, v) :: (k', v') :: o'
      else (k', v') :: obj_add k v o'
  end.

(** [o[k] = v] *)
Definition obj_set (k : string) (v : V) (o : obj V) : obj V :=
  match obj_get k o with
  | Some _ => obj_update k v o
  | None => obj_add k v o
  end.

Definition keys (o : obj V) : list string := o.*1.
End Obj.

(** ** Plain objects and their prototype

    The own properties of [Object.prototype]: eleven functions and the
    accessor [__proto__].  A plain object inherits them all, none is
    enumerable and each has a truthy value. *)

Definition prototype_names : list string :=
  ["constructor"; "__defineGetter__"; "__defineSetter__"; "hasOwnProperty";
   "__lookupGetter__"; "__lookupSetter__"; "isPrototypeOf";
   "propertyIsEnumerable"; "toString"; "valueOf"; "__proto__"; "toLocaleString"].

Definition inherited (k : string) : bool := bool_decide (k ∈ prototype_names).

(** What [o[k]] finds in a plain object [o] whose own properties hold
    objects: the own property, else the member of [Object.prototype] of
    that name, else [undefined]. *)
Inductive slot (V : Type) : Type :=
  | Own (v : V)
  | Proto
  | Absent.
Arguments Own {V} v.
Arguments Proto {V}.
Arguments Absent {V}.

Definition obj_read {V : Type} (k : string) (o : obj V) : slot V :=
  match obj_get k o with
  | Some v => Own v
  | None => if inherited k then Proto else Absent
  end.

(** A value found in the location index or held in a parent list: a
    string, or the value [Object.prototype[k]] (the function [Object] for
    [constructor], the prototype object itself for [__proto__]).  The
    twelve values are distinct objects, so [===] on them is equality of
    their names. *)
Inductive pval : Type :=
  | Str (s : string)
  | Builtin (k : string).

#[global] Instance pval_eq_dec : EqDecision pval.
Proof. solve_decision. Defined.

(** [reverse_location[loc]]: [None] is [undefined]. *)
Definition index_read (loc : string) (rl : gmap string string) : option pval :=
  match rl !! loc with
  | Some id => Some (Str id)
  | None => if inherited loc then Some (Builtin loc) else None
  end.

(** [reverse_location[loc] = id].  For [__proto__] the assignment runs the
    setter inherited from [Object.prototype], which ignores a string. *)
Definition index_write (loc id : string) (rl : gmap string string)
    : gmap string string :=
  if decide (loc = "__proto__") then rl else <[loc := id]> rl.

(** A value used as a property key is converted to a string. *)
Definition to_key (v : pval) : string :=
  match v with
  | Str s => s
  | Builtin k =>
      if decide (k = "__proto__") then "[object Object]"
      else "function " +:+ (if decide (k = "constructor") then "Object" else k)
           +:+ "() { [native code] }"
  end.

(** ** The input tree *)

#[local] Unset Elimination Schemes.
Inductive node : Type :=
  Node {
    _id : option string;
    _resolved : option string;
    _location : string;
    _requiredBy : list string;
    scripts : option (obj string);
    bin : option (obj string);
    bundleDependencies : option (list string);
    optionalDependencies : option (obj string);
    dependencies : obj node   (* absent and empty behave alike *)
  }.
#[local] Set Elimination Schemes.

(** ** The program state *)

Record info : Type :=
  Info {
    url : string;
    install : option string;
    info_bin : option (obj string);
    nested : option bool;
    name : option string;
    parent : option (list pval)
  }.

Abbreviation addr := nat (only parsing).

(** A promise of a hash: already resolved, or waiting for the transfer
    started by [https.get]. *)
Inductive promise : Type :=
  | Resolved (v : option string)
  | Fetching (u : string).

Record state : Type :=
  State {
    heap : list info;
    resources : obj addr;
    reverse_location : gmap string string;
    resources_sha256s : obj promise;
    nested_root_deps : obj node;
    native_addons : list addr;
    native : bool;
    log : list string;          (* writes to [log] *)
    out : list string;          (* writes to [out] *)
    requests : list string      (* [https.get] calls *)
  }.

Definition init (nat_mode : bool) : state :=
  State [] [] ∅ [] [] [] nat_mode [] [] [].

Definition set_heap (f : list info → list info) (st : state) : state :=
  State (f (heap st)) (resources st) (reverse_location st) (resources_sha256s st)
        (nested_root_deps st) (native_addons st) (native st) (log st) (out st)
        (requests st).
Definition set_resources (f : obj addr → obj addr) (st : state) : state :=
  State (heap st) (f (resources st)) (reverse_location st) (resources_sha256s st)
        (nested_root_deps st) (native_addons st) (native st) (log st) (out st)
        (requests st).
Definition set_reverse_location (f : gmap string string → gmap string string)
    (st : state) : state :=
  State (heap st) (resources st) (f (reverse_location st)) (resources_sha256s st)
        (nested_root_deps st) (native_addons st) (native st) (log st) (out st)
        (requests st).
Definition set_resources_sha256s (f : obj promise → obj promise) (st : state) : state :=
  State (heap st) (resources st) (reverse_location st) (f (resources_sha256s st))
        (nested_root_deps st) (native_addons st) (native st) (log st) (out st)
        (requests st).
Definition set_nested_root_deps (f : obj node → obj node) (st : state) : state :=
  State (heap st) (resources st) (reverse_location st) (resources_sha256s st)
        (f (nested_root_deps st)) (native_addons st) (native st) (log st) (out st)
        (requests st).
Definition set_native_addons (f : list addr → list addr) (st : state) : state :=
  State (heap st) (resources st) (reverse_location st) (resources_sha256s st)
        (nested_root_deps st) (f (native_addons st)) (native st) (log st) (out st)
        (requests st).
Definition log_write (s : string) (st : state) : state :=
  State (heap st) (resources st) (reverse_location st) (resources_sha256s st)
        (nested_root_deps st) (native_addons st) (native st) (log st ++ [s]) (out st)
        (requests st).
Definition out_write (s : string) (st : state) : state :=
  State (heap st) (resources st) (reverse_location st) (resources_sha256s st)
        (nested_root_deps st) (native_addons st) (native st) (log st) (out st ++ [s])
        (requests st).
Definition https_get (u : string) (st : state) : state :=
  State (heap st) (resources st) (reverse_location st) (resources_sha256s st)
        (nested_root_deps st) (native_addons st) (native st) (log st) (out st)
        (requests st ++ [u]).

(** ** [getHash] *)

Definition getHash_warning (u : string) : string :=
  "==> Warning: We are only supported npm registry hosted dependency yet and not the one hosted at "
  +:+ u +:+
  ". You will have to fill the particular resource fields out by hand for this dependency."
  +:+ nl.

Definition getHash (u : option string) (st : state) : promise * state :=
  match u with
  | None => (Resolved None, st)
  | Some u =>
      if negb (bool_decide (String.index 0 "https://" u = Some 0%nat))
      then (Resolved None, log_write (getHash_warning u) st)
      else (Fetching u, https_get u st)
  end.

(** ** [getDepTreeBranch] *)

(** The matches of [/\/([^\/]+)/g]: [cur] is the segment being read after a
    slash, [None] before the first slash. *)
Fixpoint branch_scan (s : string) (cur : option string) : list string :=
  match s with
  | EmptyString =>
      match cur with
      | Some seg => if String.eqb seg "" then [] else [seg]
      | None => []
      end
  | String c s' =>
      if Ascii.eqb c "/"%char
      then match cur with
           | Some seg =>
               if String.eqb seg "" then branch_scan s' (Some "")
               else seg :: branch_scan s' (Some "")
           | None => branch_scan s' (Some "")
           end
      else match cur with
           | Some seg => branch_scan s' (Some (seg +:+ String c EmptyString))
           | None => branch_scan s' None
           end
  end.

Definition getDepTreeBranch (location : string) : list string :=
  branch_scan location None.

(** ** Outcomes

    A statement either completes or throws; the mutations made before a
    [throw] persist, so both outcomes carry the state.  A run can also end
    in neither way. *)

Inductive halt : Type :=
  | Uncaught (u : string)
      (* the request for [u] emits [error]; nothing listens on the request,
         so the event is an uncaught exception and the process ends with
         the chain still pending *)
  | Outside.
      (* the prototype of [nested_root_deps] has been replaced by a tree
         node, and [for ... in] goes on with all the enumerable properties
         of that node, in their order in the input; [node] holds neither
         that order nor the properties the program does not read, so what
         the run does from there is not determined here, and no theorem
         speaks about it *)

Inductive outcome : Type :=
  | Done (st : state)
  | Throw (e : exn) (st : state)
  | Halt (h : halt) (st : state).

Definition and_then (m : outcome) (k : state → outcome) : outcome :=
  match m with
  | Done st => k st
  | Throw e st => Throw e st
  | Halt h st => Halt h st
  end.

Notation "m >>> k" := (and_then m k) (at level 61, left associativity).

Definition for_each {A : Type} (body : A → state → outcome)
    : list A → state → outcome :=
  fix go (l : list A) (st : state) : outcome :=
    match l with
    | [] => Done st
    | x :: l' => body x st >>> go l'
    end.

Definition threw (m : outcome) : Prop :=
  match m with Throw _ _ => True | _ => False end.

Definition final (m : outcome) : state :=
  match m with Done st => st | Throw _ st => st | Halt _ st => st end.

(** ** Mutating an [info] object through its address *)

Definition set_install (v : option string) (r : info) : info :=
  Info (url r) v (info_bin r) (nested r) (name r) (parent r).
Definition set_info_bin (v : option (obj string)) (r : info) : info :=
  Info (url r) (install r) v (nested r) (name r) (parent r).
Definition set_nested (v : option bool) (r : info) : info :=
  Info (url r) (install r) (info_bin r) v (name r) (parent r).
Definition set_name (v : option string) (r : info) : info :=
  Info (url r) (install r) (info_bin r) (nested r) v (parent r).
Definition set_parent (v : option (list pval)) (r : info) : info :=
  Info (url r) (install r) (info_bin r) (nested r) (name r) v.

Definition upd (a : addr) (f : info → info) (st : state) : state :=
  set_heap (alter f a) st.

(** [r.parent.indexOf(rev_p) === -1] guards [r.parent.push(rev_p)]; reading
    [indexOf] of an absent [parent] is a [TypeError]. *)
Definition push_parent (a : addr) (rev_p : pval) (st : state) : outcome :=
  match (heap st !! a) ≫= parent with
  | Some l =>
      if bool_decide (rev_p ∈ l) then Done st
      else Done (upd a (set_parent (Some (l ++ [rev_p]))) st)
  | None => Throw TypeError st
  end.

(** ** [resolveDependencies] *)

Definition has_keys {A : Type} (o : option (list A)) : bool :=
  match o with
  | Some (_ :: _) => true
  | _ => false
  end.

Definition bundled_warning (d : node) : string :=
  "==> Warning: No support for bundled dependencies yet requested by "
  +:+ show (_id d) +:+
  ". Currently we just pretend they weren't there and installing them a second time at the flat dependenvy structure, which may cause linking conflict which you need to resolve by hand!"
  +:+ nl.

Definition optional_warning (d : node) : string :=
  "==> Warning: No support for optional dependencies yet requested by "
  +:+ show (_id d) +:+
  ". Currently we just ignore them because we can't guarantee that they will work on the current platform and we don't have a fallback mechanism for them yet."
  +:+ nl.

Definition warn_unsupported (d : node) (st : state) : state :=
  let st := if has_keys (bundleDependencies d)
            then log_write (bundled_warning d) st else st in
  if has_keys (optionalDependencies d)
  then log_write (optional_warning d) st else st.

(** [d.scripts && d.scripts.install] *)
Definition scripts_install (d : node) : option string :=
  scripts d ≫= obj_get "install".

Definition rewrite_install (s : string) : string :=
  replace "prebuild" "prebuild --compile"
    (replace "node-pre-gyp" "node-pre-gyp --build-from-source" s).

(** Lines 80-83: the install script, on the fresh [info] at address [a]. *)
Definition record_install (d : node) (a : addr) (st : state) : state :=
  match scripts_install d with
  | Some s =>
      if truthy (Some s)
      then set_native_addons (λ l, l ++ [a])
             (upd a (set_install (Some (rewrite_install s))) st)
      else st
  | None => st
  end.

(** Lines 84-91: a root-level dependency.  [resources[n]] is truthy for
    an own property and for an inherited one alike. *)
Definition resolve_root (n : string) (d : node) (a : addr) (st : state) : outcome :=
  let st := if native st && bool_decide (is_Some (bin d))
            then upd a (set_info_bin (bin d)) st else st in
  match obj_read n (resources st) with
  | Own _ | Proto =>
      Throw (Error ("error resolving root dependency: " +:+ show (_id d))) st
  | Absent =>
      let st := upd a (set_nested (Some false)) st in
      let st := upd a (set_name (Some n)) st in
      let st := set_resources (obj_set n a) st in
      let '(p, st) := getHash (url <$> heap st !! a) st in
      let st := set_resources_sha256s (obj_set n p) st in
      Done (set_reverse_location (index_write (_location d) n) st)
  end.

(** Lines 92-104: a nested dependency, keyed by its [_id].  A member of
    [Object.prototype] found under [id] has no [parent], like a root-level
    record. *)
Definition resolve_nested (id : string) (d : node) (a : addr) (st : state) : outcome :=
  match obj_read id (resources st) with
  | Own b =>
      match (heap st !! b) ≫= parent with
      | Some p =>
          let st := upd b (set_parent (Some (p ++ (Str <$> _requiredBy d)))) st in
          Done (set_reverse_location (index_write (_location d) id) st)
      | None => Throw TypeError st       (* [undefined.concat] *)
      end
  | Proto => Throw TypeError st          (* [undefined.concat] *)
  | Absent =>
      let st := upd a (set_nested (Some true)) st in
      let st := upd a (set_parent (Some (Str <$> _requiredBy d))) st in
      let st := upd a (set_name (Some id)) st in
      let st := set_resources (obj_set id a) st in
      let '(p, st) := getHash (url <$> heap st !! a) st in
      let st := set_resources_sha256s (obj_set id p) st in
      Done (set_reverse_location (index_write (_location d) id) st)
  end.

(** Lines 78-104, for a node whose [_id] and [_resolved] are truthy. *)
Definition resolve_resolved (n : string) (d : node) (st : state) : outcome :=
  let branch := getDepTreeBranch (_location d) in
  let a := length (heap st) in
  let st := set_heap (λ h, h ++ [Info (show (_resolved d)) None None None None None]) st in
  let st := record_install d a st in
  if bool_decide (length branch = 1%nat)
  then resolve_root n d a st
  else resolve_nested (show (_id d)) d a st.

(** The body of the loop, for the property [n] of [deps]; the two early
    returns are the [continue] statements.  [nested_root_deps[n] = d]
    creates the own property [n], except for [__proto__], where the
    inherited setter makes [d] the prototype of [nested_root_deps]: the
    entry under [__proto__], a name no own property of that object ever
    has, stands for its prototype. *)
Fixpoint resolveNode (n : string) (d : node) (st : state) {struct d} : outcome :=
  let st := warn_unsupported d st in
  if negb (truthy (_id d)) then Done st
  else if negb (truthy (_resolved d))
  then Done (set_nested_root_deps (obj_set n d) st)
  else
    resolve_resolved n d st >>>
    match d with
    | Node _ _ _ _ _ _ _ _ deps => for_each (λ nd, resolveNode nd.1 nd.2) deps
    end.

Definition resolveDependencies (deps : obj node) (st : state) : outcome :=
  for_each (λ nd, resolveNode nd.1 nd.2) deps st.

(** ** [normalizeDepParents] *)

(** The loop body shared by both passes: look the key [x] up, throw when
    the result is [undefined], else add it to the parents at [a]. *)
Definition resolve_into (msg : string) (a : addr) (x : pval) (st : state)
    : outcome :=
  match index_read (to_key x) (reverse_location st) with
  | None => Throw (Error msg) st
  | Some rev_p => push_parent a rev_p st
  end.

(** The same loop body when [r] is a member of [Object.prototype]: the
    values are pushed on a [parent] array of that function, which nothing
    reads afterwards. *)
Definition resolve_aside (msg : string) (loc : string) (st : state) : outcome :=
  match index_read loc (reverse_location st) with
  | None => Throw (Error msg) st
  | Some _ => Done st
  end.

(** Lines 111-120: one deferred dependency [n], with its node [d].  With
    [Object.prototype] itself for [r], line 115 would give every object a
    [parent]; [normalize_pass1] never gets there. *)
Definition reconcile_deferred (n : string) (d : node) (st : state) : outcome :=
  match obj_read n (resources st) with
  | Absent =>
      Throw (Error ("error resolving nested root dependency: " +:+ show (_id d))) st
  | Own a =>
      let st := set_reverse_location (index_write (_location d) n) st in
      let st := upd a (λ r, match parent r with
                            | None => set_parent (Some []) r
                            | Some _ => r
                            end) st in
      for_each (resolve_into ("error normalizing nested root dependency: "
                              +:+ show (_id d)) a) (Str <$> _requiredBy d) st
  | Proto =>
      if decide (n = "__proto__") then Halt Outside st
      else
        let st := set_reverse_location (index_write (_location d) n) st in
        for_each (resolve_aside ("error normalizing nested root dependency: "
                                 +:+ show (_id d))) (_requiredBy d) st
  end.

(** [r.nested] as a condition. *)
Definition is_nested (r : info) : bool :=
  match nested r with
  | Some b => b
  | None => false
  end.

(** Lines 123-133: one resource [n], whose record is at address [a]. *)
Definition normalize_resource (n : string) (a : addr) (st : state) : outcome :=
  match heap st !! a with
  | None => Done st                      (* no such record is ever stored *)
  | Some r =>
      if is_nested r
      then match parent r with
           | None => Throw TypeError (upd a (set_parent (Some [])) st)
           | Some p =>
               let st := upd a (set_parent (Some [])) st in
               if bool_decide (length p = 0%nat)
               then Throw (Error ("error normalizing nested dependency: " +:+ n)) st
               else for_each (resolve_into ("error normalizing nested dependency: "
                                            +:+ n) a) p st
           end
      else Done st
  end.

(** The own properties of [nested_root_deps], in enumeration order. *)
Definition own_deferred (st : state) : obj node :=
  filter (λ nd, nd.1 ≠ "__proto__") (nested_root_deps st).

(** Lines 110-121.  After the own properties, [for ... in] enumerates
    those of the prototype when it has been replaced. *)
Definition normalize_pass1 (st : state) : outcome :=
  for_each (λ nd, reconcile_deferred nd.1 nd.2) (own_deferred st) st >>> λ st,
  match obj_get "__proto__" (nested_root_deps st) with
  | Some _ => Halt Outside st
  | None => Done st
  end.

Definition normalize_pass2 (st : state) : outcome :=
  for_each (λ na, normalize_resource na.1 na.2) (resources st) st.

Definition normalizeDepParents (st : state) : outcome :=
  normalize_pass1 st >>> normalize_pass2.

(** ** The promise chain, from the parsed tree to the resolved resources *)

Record package : Type :=
  Package {
    description : option string;
    homepage : option string;
    pkg_resolved : option string;
    pkg_dependencies : obj node
  }.

Definition is_word (c : ascii) : bool :=
  let k := nat_of_ascii c in
  ((48 <=? k) && (k <=? 57) || (65 <=? k) && (k <=? 90)
   || (97 <=? k) && (k <=? 122) || (k =? 95))%nat.

Definition to_upper (c : ascii) : ascii :=
  let k := nat_of_ascii c in
  if ((97 <=? k) && (k <=? 122))%nat then ascii_of_nat (k - 32) else c.

(** [module_name.replace(/\b\w/g, c => c.toUpperCase()).replace(/\W/g, '')];
    [boundary] holds when the previous character is not a word character. *)
Fixpoint class_name_from (boundary : bool) (s : string) : string :=
  match s with
  | EmptyString => EmptyString
  | String c s' =>
      if is_word c
      then String (if boundary then to_upper c else c) (class_name_from false s')
      else class_name_from true s'
  end.

Definition class_name (module_name : string) : string :=
  class_name_from true module_name.

(** What becomes of the request that [https.get] starts: the response
    ends and the hash stream gives a digest ([None] when it gives nothing),
    the response emits [error], or the request itself emits [error] (no
    connection, no response). *)
Inductive answer : Type :=
  | Digest (v : option string)
  | ResponseError
  | RequestError.

Section Chain.
Variable transfer : string → answer.

(** [Promise.props] and the callbacks after it, which write the resource
    stanzas and the install section to [out]; they are formatting code and
    stay abstract. *)
Variable formula_tail : state → outcome.

Definition await (p : promise) (st : state) (k : option string → state → outcome)
    : outcome :=
  match p with
  | Resolved v => k v st
  | Fetching u =>
      match transfer u with
      | Digest v => k v st                              (* line 44: [resolve] *)
      | ResponseError => Throw (TransportError u) st    (* line 46: [reject] *)
      | RequestError => Halt (Uncaught u) st            (* no listener *)
      end
  end.

(** Lines 163-168. *)
Definition write_desc (module_name : string) (data : package) (st : state) : state :=
  if truthy (description data)
  then
    let st := if (62 - Z.of_nat (String.length module_name)
                  <? Z.of_nat (String.length (show (description data))))%Z
              then out_write ("  # TODO: shorten description" +:+ nl) st
              else st in
    out_write ("  desc " +:+ dq +:+ show (description data) +:+ dq +:+ nl) st
  else out_write ("  desc " +:+ dq +:+ dq +:+ " # TODO: add a description" +:+ nl) st.

(** Lines 169-173. *)
Definition write_homepage (data : package) (st : state) : state :=
  if truthy (homepage data)
  then out_write ("  homepage " +:+ dq +:+ show (homepage data) +:+ dq +:+ nl) st
  else out_write ("  homepage " +:+ dq +:+ dq +:+ " # TODO: add a homepage" +:+ nl) st.

(** Lines 174-180. *)
Definition write_url (data : package) (st : state) : outcome :=
  if truthy (pkg_resolved data)
  then
    let st := out_write ("  url " +:+ dq +:+ show (pkg_resolved data) +:+ dq +:+ nl) st in
    let '(p, st) := getHash (pkg_resolved data) st in
    await p st (λ sha256 st,
      Done (out_write ("  sha256 " +:+ dq +:+ default "null" sha256 +:+ dq
                       +:+ nl +:+ nl) st))
  else
    let st := out_write ("  url " +:+ dq +:+ dq +:+ " # TODO: add the download URL" +:+ nl) st in
    Done (out_write ("  sha256 " +:+ dq +:+ dq +:+ " # TODO: add the sha256 sum"
                     +:+ nl +:+ nl) st).

(** Lines 158-180. *)
Definition write_head (module_name : string) (data : package) (st : state)
    : outcome :=
  let st := out_write ("require File.expand_path(" +:+ dq +:+ "../../Homebrew/node"
                       +:+ dq +:+ ", __FILE__)" +:+ nl +:+ nl) st in
  let st := out_write ("class " +:+ class_name module_name +:+ " < Formula" +:+ nl) st in
  let st := write_desc module_name data st in
  let st := write_homepage data st in
  write_url data st.

(** Lines 181-191. *)
Definition write_depends (st : state) : outcome :=
  let st := out_write ("  depends_on " +:+ dq +:+ "node" +:+ dq +:+ nl) st in
  let st :=
    if native st
    then
      let st := out_write ("  depends_on :python => :build" +:+ nl +:+ nl) st in
      let st := out_write ("  pour_bottle? do" +:+ nl) st in
      let st := out_write ("    reason " +:+ dq +:+ "The bottle requires Node v5.x"
                           +:+ dq +:+ nl) st in
      let st := out_write ("    satisfy { Language::Node.is_major(5) }" +:+ nl) st in
      out_write ("  end" +:+ nl) st
    else st in
  Done (out_write nl st).

(** Lines 191-197; [to_file] is [_out]. *)
Definition resolve_stage (to_file : bool) (data : package) (st : state) : outcome :=
  let st := if to_file then log_write ("==> resolving dependency tree" +:+ nl) st
            else st in
  resolveDependencies (pkg_dependencies data) st >>> λ st,
  let st := if to_file then log_write ("==> normalizing dependency parents" +:+ nl) st
            else st in
  normalizeDepParents st.

(** The chain from the callback that receives the tree onwards: a
    rejected promise skips every later callback. *)
Definition formula_chain (module_name : string) (to_file : bool) (data : package)
    (st : state) : outcome :=
  write_head module_name data st >>> write_depends
  >>> resolve_stage to_file data
  >>> formula_tail.
End Chain.

(** ** The tree in the order the resolver walks it *)

(** A node is classified when its [_id] and [_resolved] are both truthy;
    only then does the resolver reach the recursive call. *)
Definition resolved (d : node) : bool :=
  truthy (_id d) && truthy (_resolved d).

Definition is_root (d : node) : bool :=
  resolved d && bool_decide (length (getDepTreeBranch (_location d)) = 1%nat).

Definition is_nested_node (d : node) : bool :=
  resolved d && negb (bool_decide (length (getDepTreeBranch (_location d)) = 1%nat)).

(** The key under which a classified node is stored. *)
Definition ident (n : string) (d : node) : string :=
  if is_root d then n else show (_id d).

Fixpoint visit (n : string) (d : node) {struct d} : list (string * node) :=
  (n, d) ::
  match d with
  | Node _ _ _ _ _ _ _ _ deps =>
      if resolved d
      then (fix go (l : obj node) : list (string * node) :=
              match l with
              | [] => []
              | nd :: l' => visit nd.1 nd.2 ++ go l'
              end) deps
      else []
  end.

Definition visits (deps : obj node) : list (string * node) :=
  flat_map (λ nd, visit nd.1 nd.2) deps.

(** The loop body without the recursive call. *)
Definition resolveOne (n : string) (d : node) (st : state) : outcome :=
  let st := warn_unsupported d st in
  if negb (truthy (_id d)) then Done st
  else if negb (truthy (_resolved d))
  then Done (set_nested_root_deps (obj_set n d) st)
  else resolve_resolved n d st.

(** The nested occurrences of the identifier [id] and the requirer
    locations they contribute, in walking order. *)
Definition occurrences (id : string) (L : list (string * node)) : list (string * node) :=
  filter (λ nd, is_nested_node nd.2 = true ∧ show (_id nd.2) = id) L.

Definition pending (id : string) (L : list (string * node)) : list string :=
  flat_map (λ nd, _requiredBy nd.2) (occurrences id L).

Section FirstSeen.
Context {A : Type} `{EqDecision A}.

(** Removing duplicates, keeping each element where it is first seen. *)
Fixpoint first_seen (l : list A) : list A :=
  match l with
  | [] => []
  | x :: l' => x :: filter (λ y, y ≠ x) (first_seen l')
  end.

(** The loop [if (acc.indexOf(x) === -1) acc.push(x)] over [l]. *)
Definition push_new (acc : list A) (x : A) : list A :=
  if bool_decide (x ∈ acc) then acc else acc ++ [x].
End FirstSeen.

(** A state in which nothing has been resolved yet. *)
Definition pristine (st : state) : Prop :=
  heap st = [] ∧ resources st = [] ∧ reverse_location st = ∅ ∧
  resources_sha256s st = [] ∧ nested_root_deps st = [] ∧ native_addons st = [].

(** * Properties *)

(** ** The model on small inputs *)

Example branch_nested :
  getDepTreeBranch "/A/node_modules/B" = ["A"; "node_modules"; "B"].
Proof. reflexivity. Qed.

Example branch_root : getDepTreeBranch "/A" = ["A"].
Proof. reflexivity. Qed.

Example branch_empty_segments : getDepTreeBranch "a//b/" = ["b"].
Proof. reflexivity. Qed.

Example branch_empty : getDepTreeBranch "" = [].
Proof. reflexivity. Qed.

Example rewrite_install_pre_gyp :
  rewrite_install "node-pre-gyp install --fallback-to-build"
  = "node-pre-gyp --build-from-source install --fallback-to-build".
Proof. reflexivity. Qed.

Example rewrite_install_prebuild :
  rewrite_install "prebuild --download" = "prebuild --compile --download".
Proof. reflexivity. Qed.

Example rewrite_install_first_only :
  rewrite_install "prebuild || prebuild" = "prebuild --compile || prebuild".
Proof. reflexivity. Qed.

Example rewrite_install_other : rewrite_install "node-gyp rebuild" = "node-gyp rebuild".
Proof. reflexivity. Qed.

Example class_name_dashed : class_name "node-formulator" = "NodeFormulator".
Proof. reflexivity. Qed.

Example obj_set_order :
  keys (obj_set "2" 1%nat (obj_set "b" 2%nat (obj_set "10" 3%nat (obj_set "a" 4%nat []))))
  = ["2"; "10"; "a"; "b"].
Proof. reflexivity. Qed.

Example obj_set_overwrite :
  obj_set "a" 5%nat [("a", 1%nat); ("b", 2%nat)] = [("a", 5%nat); ("b", 2%nat)].
Proof. reflexivity. Qed.

(** ** Induction on trees *)

Section NodeInd.
Variable P : node → Prop.
Hypothesis step : ∀ i r l q s b bd od deps,
    Forall (λ nd, P nd.2) deps → P (Node i r l q s b bd od deps).

Fixpoint node_ind (d : node) : P d :=
  match d with
  | Node i r l q s b bd od deps =>
      step i r l q s b bd od deps
        ((fix go (l : obj node) : Forall (λ nd, P nd.2) l :=
            match l with
            | [] => List.Forall_nil _
            | nd :: l' => List.Forall_cons _ nd l' (node_ind nd.2) (go l')
            end) deps)
  end.
End NodeInd.

(** ** Loops *)

Lemma and_then_Done m k st' :
  m >>> k = Done st' → ∃ st, m = Done st ∧ k st = Done st'.
Proof. destruct m; simpl; [eauto | discriminate..]. Qed.

Lemma for_each_app {A} (body : A → state → outcome) l1 l2 st :
  for_each body (l1 ++ l2) st = for_each body l1 st >>> for_each body l2.
Proof.
  revert st. induction l1 as [|x l1 IH]; intros st; simpl; [done|].
  destruct (body x st); simpl; [apply IH | done..].
Qed.

Lemma for_each_snoc {A} (body : A → state → outcome) l x st :
  for_each body (l ++ [x]) st = for_each body l st >>> body x.
Proof.
  rewrite for_each_app. destruct (for_each body l st) as [s|e s|h s]; simpl; [|done..].
  by destruct (body x s).
Qed.

(** A property that every iteration keeps, whether it completes or throws,
    holds of the state the loop ends in. *)
Lemma for_each_final {A} (body : A → state → outcome) (I : state → Prop) l st :
  (∀ x s, x ∈ l → I s → I (final (body x s))) →
  I st → I (final (for_each body l st)).
Proof.
  revert st. induction l as [|x l IH]; intros st Hb Hst; simpl; [done|].
  pose proof (Hb x st (list_elem_of_here _ _) Hst) as Hx.
  destruct (body x st) as [s|e s|h s]; simpl in *; [|done..].
  apply IH; [|done]. intros y s' Hy. apply Hb. by apply list_elem_of_further.
Qed.

(** ** The walk is a fold over [visits] *)

Lemma resolveNode_unfold n d st :
  resolveNode n d st =
  resolveOne n d st >>> λ st',
    if resolved d then resolveDependencies (dependencies d) st' else Done st'.
Proof.
  destruct d as [i r l q s b bd od deps]; unfold resolveOne, resolved; simpl.
  destruct (truthy i); simpl; [|done].
  destruct (truthy r); simpl; done.
Qed.

Lemma visit_unfold n d :
  visit n d = (n, d) :: if resolved d then visits (dependencies d) else [].
Proof.
  destruct d as [i r l q s b bd od deps]; simpl. by f_equal.
Qed.

Lemma resolveNode_flat n d st :
  resolveNode n d st = for_each (λ nd, resolveOne nd.1 nd.2) (visit n d) st.
Proof.
  revert n st. induction d as [i r l q s b bd od deps IH] using node_ind.
  intros n st. rewrite resolveNode_unfold, visit_unfold. simpl for_each.
  destruct (resolveOne n _ st) as [st'|e st'|h st']; simpl; [|done..].
  destruct (resolved _); [|done]. unfold resolveDependencies, visits. simpl dependencies.
  clear n st. revert st'. induction IH as [|nd deps Hnd _ IHdeps]; intros st; simpl; [done|].
  rewrite for_each_app, Hnd.
  destruct (for_each _ (visit nd.1 nd.2) st); simpl; [apply IHdeps | done..].
Qed.

Lemma resolveDependencies_flat deps st :
  resolveDependencies deps st =
  for_each (λ nd, resolveOne nd.1 nd.2) (visits deps) st.
Proof.
  unfold resolveDependencies, visits. revert st.
  induction deps as [|nd deps IH]; intros st; simpl; [done|].
  rewrite for_each_app, resolveNode_flat.
  destruct (for_each _ (visit nd.1 nd.2) st); simpl; [apply IH | done..].
Qed.

(** ** Objects *)

Section ObjFacts.
Context {V : Type}.
Implicit Types (o : obj V) (k : string) (v : V).

Lemma obj_get_update k k' v o :
  obj_get k' (obj_update k v o) =
  if decide (k = k') then (λ _, v) <$> obj_get k o else obj_get k' o.
Proof.
  induction o as [|[k0 v0] o IH]; simpl.
  - by case_decide.
  - repeat (case_decide; simplify_eq; simpl); try done.
    all: rewrite IH; by repeat (case_decide; simplify_eq).
Qed.

Lemma obj_add_perm k v o : obj_add k v o ≡ₚ (k, v) :: o.
Proof.
  induction o as [|[k0 v0] o IH]; simpl; [done|].
  destruct (key_before k k0); [done|]. rewrite IH. apply Permutation_swap.
Qed.

Lemma obj_get_add k k' v o :
  obj_get k o = None →
  obj_get k' (obj_add k v o) = if decide (k = k') then Some v else obj_get k' o.
Proof.
  induction o as [|[k0 v0] o IH]; simpl; intros Hk.
  - by repeat (case_decide; simplify_eq).
  - case_decide; [done|]. destruct (key_before k k0); simpl.
    + by repeat (case_decide; simplify_eq).
    + rewrite (IH Hk). by repeat (case_decide; simplify_eq).
Qed.

Lemma obj_get_set k k' v o :
  obj_get k' (obj_set k v o) = if decide (k = k') then Some v else obj_get k' o.
Proof.
  unfold obj_set. destruct (obj_get k o) eqn:Hk.
  - rewrite obj_get_update, Hk. by case_decide.
  - by apply obj_get_add.
Qed.

Lemma obj_get_set_eq k v o : obj_get k (obj_set k v o) = Some v.
Proof. rewrite obj_get_set. by case_decide. Qed.

Lemma obj_get_set_ne k k' v o : k ≠ k' → obj_get k' (obj_set k v o) = obj_get k' o.
Proof. intros. rewrite obj_get_set. by case_decide. Qed.

Lemma obj_set_fresh k v o : obj_get k o = None → obj_set k v o = obj_add k v o.
Proof. unfold obj_set. by intros ->. Qed.

Lemma obj_get_None k o : obj_get k o = None ↔ k ∉ keys o.
Proof.
  unfold keys. induction o as [|[k0 v0] o IH]; csimpl.
  - split; [intros _; apply not_elem_of_nil | done].
  - rewrite not_elem_of_cons. case_decide as Hk.
    + split; [done | by intros []].
    + rewrite IH. split; [done | by intros []].
Qed.

Lemma obj_get_Some_elem k v o : obj_get k o = Some v → (k, v) ∈ o.
Proof.
  induction o as [|[k0 v0] o IH]; simpl; [done|].
  case_decide; simplify_eq.
  - intros [= ->]. apply list_elem_of_here.
  - intros. apply list_elem_of_further. auto.
Qed.

Lemma elem_obj_get k v o : NoDup (keys o) → (k, v) ∈ o → obj_get k o = Some v.
Proof.
  unfold keys. induction o as [|[k0 v0] o IH]; csimpl.
  - intros _ H. by apply elem_of_nil in H.
  - rewrite NoDup_cons. intros [Hk0 Ho] [H|H]%elem_of_cons.
    + simplify_eq. by case_decide.
    + case_decide; simplify_eq; [|auto].
      destruct Hk0. apply list_elem_of_fmap. by exists (k0, v).
Qed.

Lemma keys_obj_update k v o : keys (obj_update k v o) = keys o.
Proof.
  unfold keys. induction o as [|[k0 v0] o IH]; csimpl; [done|].
  case_decide; csimpl; [done | by rewrite IH].
Qed.

Lemma NoDup_keys_set k v o : NoDup (keys o) → NoDup (keys (obj_set k v o)).
Proof.
  unfold obj_set. destruct (obj_get k o) eqn:Hk.
  - by rewrite keys_obj_update.
  - intros Ho. unfold keys. rewrite obj_add_perm. simpl.
    apply NoDup_cons. split; [by apply obj_get_None | done].
Qed.

Lemma elem_keys k o : k ∈ keys o ↔ is_Some (obj_get k o).
Proof.
  rewrite <-not_eq_None_Some, obj_get_None.
  split; [auto | apply dec_stable].
Qed.

Lemma elem_keys_set k k' v o :
  k' ∈ keys (obj_set k v o) ↔ k' = k ∨ k' ∈ keys o.
Proof.
  rewrite !elem_keys, obj_get_set. case_decide as Hk.
  - split; [auto | by eexists].
  - split; [auto | by intros [->|]].
Qed.
End ObjFacts.

(** ** Reading a plain object *)

Lemma obj_read_Own {V} k (o : obj V) v : obj_get k o = Some v → obj_read k o = Own v.
Proof. unfold obj_read. by intros ->. Qed.

Lemma obj_read_Own_inv {V} k (o : obj V) v : obj_read k o = Own v → obj_get k o = Some v.
Proof.
  unfold obj_read. destruct (obj_get k o); [congruence|]. by destruct (inherited k).
Qed.

Lemma obj_read_Absent {V} k (o : obj V) :
  obj_read k o = Absent ↔ obj_get k o = None ∧ inherited k = false.
Proof.
  unfold obj_read. destruct (obj_get k o); [by split; [|intros []]|].
  destruct (inherited k); by split; [|intros []].
Qed.

Lemma obj_read_Proto {V} k (o : obj V) :
  obj_read k o = Proto ↔ obj_get k o = None ∧ inherited k = true.
Proof.
  unfold obj_read. destruct (obj_get k o); [by split; [|intros []]|].
  destruct (inherited k); by split; [|intros []].
Qed.

Lemma inherited_spec k : inherited k = true ↔ k ∈ prototype_names.
Proof. unfold inherited. apply bool_decide_eq_true. Qed.

Lemma not_inherited_spec k : inherited k = false ↔ k ∉ prototype_names.
Proof. unfold inherited. apply bool_decide_eq_false. Qed.



Lemma index_read_None loc rl :
  index_read loc rl = None ↔ rl !! loc = None ∧ inherited loc = false.
Proof.
  unfold index_read. destruct (rl !! loc); [by split; [|intros []]|].
  destruct (inherited loc); by split; [|intros []].
Qed.

Lemma index_write_lookup loc id rl loc' :
  index_write loc id rl !! loc' =
  if decide (loc = loc' ∧ loc ≠ "__proto__") then Some id else rl !! loc'.
Proof.
  unfold index_write. case_decide as H1.
  - subst. rewrite decide_False; [done | by intros [_ ?]].
  - rewrite lookup_insert. case_decide; subst.
    + by rewrite decide_True.
    + rewrite decide_False; [done | by intros [? _]].
Qed.


#[local] Arguments obj_read : simpl never.
#[local] Arguments index_read : simpl never.
#[local] Arguments index_write : simpl never.
#[local] Arguments inherited : simpl never.
#[local] Arguments to_key : simpl never.

(** ** One step of the resolver, case by case *)

Ltac st_simpl :=
  unfold upd, set_heap, set_resources, set_reverse_location,
    set_resources_sha256s, set_nested_root_deps, set_native_addons,
    log_write, out_write, https_get in *;
  simpl in *.

Definition secure (u : string) : bool :=
  bool_decide (String.index 0 "https://" u = Some 0%nat).

Definition hash_promise (u : string) : promise :=
  if secure u then Fetching u else Resolved None.
Definition hash_log (u : string) : list string :=
  if secure u then [] else [getHash_warning u].
Definition hash_requests (u : string) : list string :=
  if secure u then [u] else [].

Lemma getHash_Some u st :
  getHash (Some u) st =
  (hash_promise u,
   State (heap st) (resources st) (reverse_location st) (resources_sha256s st)
         (nested_root_deps st) (native_addons st) (native st)
         (log st ++ hash_log u) (out st) (requests st ++ hash_requests u)).
Proof.
  unfold getHash, hash_promise, hash_log, hash_requests, secure.
  destruct st; case_bool_decide; st_simpl; by rewrite ?app_nil_r.
Qed.

#[local] Arguments getHash : simpl never.

(** The install command recorded for a node, if any. *)
Definition install_cmd (d : node) : option string :=
  match scripts_install d with
  | Some s => if truthy (Some s) then Some (rewrite_install s) else None
  | None => None
  end.

Definition addon_of (d : node) (a : addr) : list addr :=
  match install_cmd d with Some _ => [a] | None => [] end.

Definition warnings_of (d : node) : list string :=
  (if has_keys (bundleDependencies d) then [bundled_warning d] else []) ++
  (if has_keys (optionalDependencies d) then [optional_warning d] else []).

Definition bin_of (nm : bool) (d : node) : option (obj string) :=
  if nm then bin d else None.

Lemma alter_fresh {A} (f : A → A) (h : list A) (r : A) :
  alter f (length h) (h ++ [r]) = h ++ [f r].
Proof. by rewrite <-(Nat.add_0_r (length h)), alter_app_r. Qed.

Lemma lookup_fresh {A} (h : list A) (r : A) : (h ++ [r]) !! length h = Some r.
Proof. by rewrite lookup_app_r, Nat.sub_diag. Qed.

Lemma warn_unsupported_eq d st :
  warn_unsupported d st =
  State (heap st) (resources st) (reverse_location st) (resources_sha256s st)
        (nested_root_deps st) (native_addons st) (native st)
        (log st ++ warnings_of d) (out st) (requests st).
Proof.
  unfold warn_unsupported, warnings_of. destruct st.
  destruct (has_keys (bundleDependencies d)), (has_keys (optionalDependencies d));
    st_simpl; rewrite ?app_nil_r; try done.
  by rewrite <-app_assoc.
Qed.

Lemma record_install_fresh d st i :
  record_install d (length (heap st)) (set_heap (λ h, h ++ [i]) st) =
  State (heap st ++ [match install_cmd d with
                     | Some c => set_install (Some c) i
                     | None => i
                     end])
        (resources st) (reverse_location st) (resources_sha256s st)
        (nested_root_deps st) (native_addons st ++ addon_of d (length (heap st)))
        (native st) (log st) (out st) (requests st).
Proof.
  unfold record_install, addon_of, install_cmd. destruct st. st_simpl.
  destruct (scripts_install d) as [s|]; simpl; rewrite ?app_nil_r; [|done].
  destruct (negb _); simpl; rewrite ?app_nil_r; [|done].
  by rewrite alter_fresh.
Qed.

(** The record a classified node starts from: [{url: d._resolved}] with the
    install command of lines 80-83. *)
Definition fresh_info (d : node) : info :=
  Info (show (_resolved d)) (install_cmd d) None None None None.

Lemma resolve_resolved_eq n d st :
  resolve_resolved n d st =
  let st1 :=
    State (heap st ++ [fresh_info d])
          (resources st) (reverse_location st) (resources_sha256s st)
          (nested_root_deps st) (native_addons st ++ addon_of d (length (heap st)))
          (native st) (log st) (out st) (requests st) in
  if bool_decide (length (getDepTreeBranch (_location d)) = 1%nat)
  then resolve_root n d (length (heap st)) st1
  else resolve_nested (show (_id d)) d (length (heap st)) st1.
Proof.
  unfold resolve_resolved. rewrite record_install_fresh. unfold fresh_info.
  by destruct (install_cmd d).
Qed.

Lemma resolve_root_new n d st :
  bool_decide (length (getDepTreeBranch (_location d)) = 1%nat) = true →
  obj_read n (resources st) = Absent →
  resolve_resolved n d st =
  Done (State
          (heap st ++ [Info (show (_resolved d)) (install_cmd d)
                            (bin_of (native st) d) (Some false) (Some n) None])
          (obj_set n (length (heap st)) (resources st))
          (index_write (_location d) n (reverse_location st))
          (obj_set n (hash_promise (show (_resolved d))) (resources_sha256s st))
          (nested_root_deps st)
          (native_addons st ++ addon_of d (length (heap st)))
          (native st)
          (log st ++ hash_log (show (_resolved d)))
          (out st)
          (requests st ++ hash_requests (show (_resolved d)))).
Proof.
  intros Hb Hn. rewrite resolve_resolved_eq. simpl. rewrite Hb.
  unfold resolve_root, fresh_info, bin_of. destruct st as [h rs rl sh nr na nm lg ou rq].
  st_simpl. destruct nm, (bin d) as [b|]; st_simpl; rewrite ?Hn;
    st_simpl; rewrite ?alter_fresh; st_simpl;
    rewrite ?lookup_fresh; st_simpl; rewrite getHash_Some; st_simpl; done.
Qed.

Lemma resolve_root_dup n d st :
  bool_decide (length (getDepTreeBranch (_location d)) = 1%nat) = true →
  obj_read n (resources st) ≠ Absent →
  ∃ st', resolve_resolved n d st =
         Throw (Error ("error resolving root dependency: " +:+ show (_id d))) st'
         ∧ out st' = out st ∧ resources st' = resources st.
Proof.
  intros Hb Hn. rewrite resolve_resolved_eq. simpl. rewrite Hb.
  unfold resolve_root. destruct st as [h rs rl sh nr na nm lg ou rq]. simpl in *.
  destruct (nm && _); simpl; destruct (obj_read n rs); eauto; done.
Qed.

Lemma resolve_nested_new n d st :
  bool_decide (length (getDepTreeBranch (_location d)) = 1%nat) = false →
  obj_read (show (_id d)) (resources st) = Absent →
  resolve_resolved n d st =
  Done (State
          (heap st ++ [Info (show (_resolved d)) (install_cmd d) None
                            (Some true) (Some (show (_id d)))
                            (Some (Str <$> _requiredBy d))])
          (obj_set (show (_id d)) (length (heap st)) (resources st))
          (index_write (_location d) (show (_id d)) (reverse_location st))
          (obj_set (show (_id d)) (hash_promise (show (_resolved d)))
                   (resources_sha256s st))
          (nested_root_deps st)
          (native_addons st ++ addon_of d (length (heap st)))
          (native st)
          (log st ++ hash_log (show (_resolved d)))
          (out st)
          (requests st ++ hash_requests (show (_resolved d)))).
Proof.
  intros Hb Hn. rewrite resolve_resolved_eq. simpl. rewrite Hb.
  unfold resolve_nested, fresh_info. destruct st as [h rs rl sh nr na nm lg ou rq].
  st_simpl. rewrite Hn. st_simpl. rewrite !alter_fresh; st_simpl.
  rewrite lookup_fresh; st_simpl. by rewrite getHash_Some.
Qed.

Lemma resolve_nested_merge n d st b r p :
  bool_decide (length (getDepTreeBranch (_location d)) = 1%nat) = false →
  obj_get (show (_id d)) (resources st) = Some b →
  heap st !! b = Some r →
  parent r = Some p →
  resolve_resolved n d st =
  Done (State
          (<[b := set_parent (Some (p ++ (Str <$> _requiredBy d))) r]> (heap st)
           ++ [fresh_info d])
          (resources st)
          (index_write (_location d) (show (_id d)) (reverse_location st))
          (resources_sha256s st)
          (nested_root_deps st)
          (native_addons st ++ addon_of d (length (heap st)))
          (native st) (log st) (out st) (requests st)).
Proof.
  intros Hb Hn Hr Hp. rewrite resolve_resolved_eq. simpl. rewrite Hb.
  unfold resolve_nested. pose proof (lookup_lt_Some _ _ _ Hr) as Hlt.
  revert Hn Hr Hp Hlt. destruct st as [h rs rl sh nr na nm lg ou rq].
  unfold upd, set_heap. simpl. intros Hn Hr Hp Hlt. rewrite (obj_read_Own _ _ _ Hn).
  rewrite lookup_app_l, Hr by done. simpl. rewrite Hp.
  unfold set_reverse_location. simpl. do 2 f_equal.
  rewrite alter_app_l by done. f_equal.
  apply list_eq. intros j. destruct (decide (j = b)) as [->|Hj].
  - rewrite list_lookup_alter_eq, list_lookup_insert_eq, Hr by done. done.
  - by rewrite list_lookup_alter_ne, list_lookup_insert_ne.
Qed.


Lemma resolve_nested_proto n d st :
  bool_decide (length (getDepTreeBranch (_location d)) = 1%nat) = false →
  obj_read (show (_id d)) (resources st) = Proto →
  ∃ st', resolve_resolved n d st = Throw TypeError st' ∧
         out st' = out st ∧ resources st' = resources st.
Proof.
  intros Hb Hn. rewrite resolve_resolved_eq. simpl. rewrite Hb.
  unfold resolve_nested. simpl. rewrite Hn. eauto.
Qed.

Lemma resolveOne_skip n d st :
  truthy (_id d) = false → resolveOne n d st = Done (warn_unsupported d st).
Proof. unfold resolveOne. by intros ->. Qed.

Lemma resolveOne_defer n d st :
  truthy (_id d) = true → truthy (_resolved d) = false →
  resolveOne n d st =
  Done (set_nested_root_deps (obj_set n d) (warn_unsupported d st)).
Proof. unfold resolveOne. by intros -> ->. Qed.

Lemma resolveOne_resolved n d st :
  resolved d = true →
  resolveOne n d st = resolve_resolved n d (warn_unsupported d st).
Proof.
  unfold resolveOne, resolved. intros [-> ->]%andb_true_iff. done.
Qed.

(** What one completed step does to the heap, the resources and the
    location index. *)
Inductive step_view (n : string) (d : node) (st st' : state) : Prop :=
  | step_unclassified :
      resolved d = false →
      heap st' = heap st →
      resources st' = resources st →
      reverse_location st' = reverse_location st →
      step_view n d st st'
  | step_root :
      is_root d = true →
      obj_read n (resources st) = Absent →
      heap st' = heap st ++ [Info (show (_resolved d)) (install_cmd d)
                                  (bin_of (native st) d) (Some false) (Some n) None] →
      resources st' = obj_set n (length (heap st)) (resources st) →
      reverse_location st' = index_write (_location d) n (reverse_location st) →
      step_view n d st st'
  | step_nested_new :
      is_nested_node d = true →
      obj_read (show (_id d)) (resources st) = Absent →
      heap st' = heap st ++ [Info (show (_resolved d)) (install_cmd d) None (Some true)
                                  (Some (show (_id d)))
                                  (Some (Str <$> _requiredBy d))] →
      resources st' = obj_set (show (_id d)) (length (heap st)) (resources st) →
      reverse_location st' =
        index_write (_location d) (show (_id d)) (reverse_location st) →
      step_view n d st st'
  | step_merge b r p :
      is_nested_node d = true →
      obj_get (show (_id d)) (resources st) = Some b →
      heap st !! b = Some r →
      parent r = Some p →
      heap st' = <[b := set_parent (Some (p ++ (Str <$> _requiredBy d))) r]> (heap st)
                 ++ [fresh_info d] →
      resources st' = resources st →
      reverse_location st' =
        index_write (_location d) (show (_id d)) (reverse_location st) →
      step_view n d st st'.

Lemma resolveOne_view n d st st' :
  resolveOne n d st = Done st' → step_view n d st st'.
Proof.
  intros Hstep. destruct (resolved d) eqn:Hres.
  - rewrite resolveOne_resolved in Hstep by done.
    set (st1 := warn_unsupported d st) in *.
    assert (heap st1 = heap st ∧ resources st1 = resources st ∧
            reverse_location st1 = reverse_location st ∧ native st1 = native st)
      as (Hh & Hr & Hl & Hn) by (subst st1; by rewrite warn_unsupported_eq).
    destruct (bool_decide (length (getDepTreeBranch (_location d)) = 1%nat)) eqn:Hb.
    + assert (is_root d = true) as Hroot by (unfold is_root; by rewrite Hres, Hb).
      destruct (obj_read n (resources st1)) as [a| |] eqn:Hget.
      * destruct (resolve_root_dup n d st1 Hb) as (? & Heq & _); [by rewrite Hget|].
        congruence.
      * destruct (resolve_root_dup n d st1 Hb) as (? & Heq & _); [by rewrite Hget|].
        congruence.
      * rewrite resolve_root_new in Hstep by done. injection Hstep as <-.
        apply step_root; simpl; congruence.
    + assert (is_nested_node d = true) as Hnest
        by (unfold is_nested_node; by rewrite Hres, Hb).
      destruct (obj_read (show (_id d)) (resources st1)) as [b| |] eqn:Hrd.
      * pose proof (obj_read_Own_inv _ _ _ Hrd) as Hget.
        destruct (heap st1 !! b) as [r|] eqn:Hb1.
        -- destruct (parent r) as [p|] eqn:Hp.
           ++ rewrite (resolve_nested_merge n d st1 b r p) in Hstep by done.
              injection Hstep as <-.
              apply (step_merge _ _ _ _ b r p); simpl; congruence.
           ++ exfalso. revert Hstep. rewrite resolve_resolved_eq. simpl. rewrite Hb.
              unfold resolve_nested. simpl. rewrite Hrd.
              rewrite lookup_app_l, Hb1 by (by eapply lookup_lt_Some). simpl.
              by rewrite Hp.
        -- exfalso. revert Hstep. rewrite resolve_resolved_eq. simpl. rewrite Hb.
           unfold resolve_nested. simpl. rewrite Hrd.
           apply lookup_ge_None in Hb1.
           destruct (decide (b = length (heap st1))) as [->|Hne].
           ++ rewrite lookup_fresh. simpl. unfold fresh_info. simpl. done.
           ++ rewrite lookup_ge_None_2; [done|]. rewrite length_app. simpl. lia.
      * destruct (resolve_nested_proto n d st1 Hb Hrd) as (? & Heq & _). congruence.
      * rewrite resolve_nested_new in Hstep by done. injection Hstep as <-.
        apply step_nested_new; simpl; congruence.
  - apply step_unclassified; [done|..].
    all: unfold resolved in Hres; apply andb_false_iff in Hres.
    all: destruct (truthy (_id d)) eqn:Hid;
      [ destruct Hres as [?|Hres]; [done|];
        rewrite resolveOne_defer in Hstep by done
      | rewrite resolveOne_skip in Hstep by done ].
    all: injection Hstep as <-; by rewrite warn_unsupported_eq.
Qed.

(** ** Well-formed states *)

Record wf (st : state) : Prop :=
  Wf {
    wf_keys : NoDup (keys (resources st));
    wf_addrs : NoDup (resources st).*2;
    wf_alloc : ∀ k a, obj_get k (resources st) = Some a → a < length (heap st)
  }.


Lemma obj_get_inj {V} (o : obj V) k k' v :
  NoDup o.*2 → obj_get k o = Some v → obj_get k' o = Some v → k = k'.
Proof.
  induction o as [|[k0 v0] o IH]; csimpl; [done|].
  rewrite NoDup_cons. intros [Hv0 Ho].
  assert (∀ j, obj_get j o = Some v0 → False) as Hfresh.
  { intros j Hj%obj_get_Some_elem. apply Hv0, list_elem_of_fmap. by exists (j, v0). }
  repeat case_decide; simplify_eq; try done.
  - intros [= ->] Hx. by destruct (Hfresh k').
  - intros Hx [= ->]. by destruct (Hfresh k).
  - by apply IH.
Qed.

Lemma wf_pristine st : pristine st → wf st.
Proof.
  intros (Hh & Hr & Hl & _). split; rewrite ?Hr, ?Hl; simpl.
  - apply NoDup_nil_2.
  - apply NoDup_nil_2.
  - done.
Qed.


Lemma wf_alloc_key st st' k r :
  wf st →
  obj_get k (resources st) = None →
  heap st' = heap st ++ [r] →
  resources st' = obj_set k (length (heap st)) (resources st) →
  wf st'.
Proof.
  intros [Hk Ha Hal] Hfresh Hh Hr. split; rewrite ?Hh, ?Hr.
  - by apply NoDup_keys_set.
  - rewrite obj_set_fresh, obj_add_perm by done. csimpl.
    apply NoDup_cons. split; [|done].
    intros ([k' a] & Heq & Hin)%list_elem_of_fmap. simpl in Heq.
    apply (elem_obj_get _ _ _ Hk), Hal in Hin. lia.
  - intros k' a. rewrite obj_get_set, length_app. simpl.
    case_decide; [intros [= <-]; lia | intros ?%Hal; lia].
Qed.


Lemma wf_merge st st' h :
  wf st →
  heap st' = h →
  length (heap st) ≤ length h →
  resources st' = resources st →
  wf st'.
Proof.
  intros [Hk Ha Hal] Hh Hlen Hr. split; rewrite ?Hh, ?Hr; try done.
  intros k a ?%Hal. lia.
Qed.


Lemma step_view_wf n d st st' : wf st → step_view n d st st' → wf st'.
Proof.
  intros Hwf [Hres Hh Hr Hl | Hroot [Hn _]%obj_read_Absent Hh Hr Hl
             | Hnest [Hn _]%obj_read_Absent Hh Hr Hl
             | b r p Hnest Hn Hb Hp Hh Hr Hl].
  - destruct Hwf as [Hk Ha Hal]. split; by rewrite ?Hh, ?Hr.
  - by eapply wf_alloc_key.
  - by eapply wf_alloc_key.
  - eapply wf_merge; [done..| |done].
    rewrite length_app, length_insert. lia.
Qed.


(** ** What the resources record about the nodes walked so far *)

Definition roots (L : list (string * node)) : list (string * node) :=
  filter (λ nd, is_root nd.2 = true) L.

Lemma is_root_nested d : is_root d = true → is_nested_node d = false.
Proof.
  unfold is_root, is_nested_node. destruct (resolved d); simpl; [|done].
  by intros ->.
Qed.

Lemma is_nested_root d : is_nested_node d = true → is_root d = false.
Proof.
  unfold is_root, is_nested_node. destruct (resolved d); simpl; [|done].
  by destruct (bool_decide _).
Qed.

Lemma is_root_resolved d : is_root d = true → resolved d = true.
Proof. unfold is_root. by intros [? _]%andb_true_iff. Qed.

Lemma is_nested_resolved d : is_nested_node d = true → resolved d = true.
Proof. unfold is_nested_node. by intros [? _]%andb_true_iff. Qed.


Lemma occurrences_snoc id L nd :
  occurrences id (L ++ [nd]) =
  occurrences id L ++
  if decide (is_nested_node nd.2 = true ∧ show (_id nd.2) = id) then [nd] else [].
Proof.
  unfold occurrences. by rewrite filter_app.
Qed.

Lemma pending_snoc id L nd :
  pending id (L ++ [nd]) =
  pending id L ++
  if decide (is_nested_node nd.2 = true ∧ show (_id nd.2) = id)
  then _requiredBy nd.2 else [].
Proof.
  unfold pending. rewrite occurrences_snoc, flat_map_app. f_equal.
  case_decide; simpl; by rewrite ?app_nil_r.
Qed.

Lemma roots_snoc L nd :
  roots (L ++ [nd]) = roots L ++ if decide (is_root nd.2 = true) then [nd] else [].
Proof.
  unfold roots. by rewrite filter_app.
Qed.

Record hist (L : list (string * node)) (st : state) : Prop :=
  Hist {
    hist_record : ∀ k a, obj_get k (resources st) = Some a →
      ∃ r, heap st !! a = Some r ∧ name r = Some k ∧
           ((nested r = Some false ∧ parent r = None ∧
             ∃ d, (k, d) ∈ L ∧ is_root d = true) ∨
            (nested r = Some true ∧ parent r = Some (Str <$> pending k L) ∧
             occurrences k L ≠ []));
    hist_node : ∀ n d, (n, d) ∈ L → resolved d = true →
      ∃ a r, obj_get (ident n d) (resources st) = Some a ∧
             heap st !! a = Some r ∧ nested r = Some (negb (is_root d));
    hist_roots : NoDup (roots L).*1
  }.

Lemma hist_pristine st : pristine st → hist [] st.
Proof.
  intros (Hh & Hr & _). split.
  - intros k a. by rewrite Hr.
  - intros n d H. by apply elem_of_nil in H.
  - apply NoDup_nil_2.
Qed.

Lemma hist_record_weaken L nd k r :
  ((nested r = Some false ∧ parent r = None ∧
    ∃ d, (k, d) ∈ L ∧ is_root d = true) ∨
   (nested r = Some true ∧ parent r = Some (Str <$> pending k L) ∧ occurrences k L ≠ [])) →
  ¬ (is_nested_node nd.2 = true ∧ show (_id nd.2) = k) →
  ((nested r = Some false ∧ parent r = None ∧
    ∃ d, (k, d) ∈ L ++ [nd] ∧ is_root d = true) ∨
   (nested r = Some true ∧ parent r = Some (Str <$> pending k (L ++ [nd])) ∧
    occurrences k (L ++ [nd]) ≠ [])).
Proof.
  intros [(? & ? & d & Hd & ?) | (? & ? & ?)] Hnd.
  - left. split_and!; try done. exists d. split; [|done].
    apply elem_of_app. by left.
  - right. rewrite pending_snoc, occurrences_snoc.
    rewrite !decide_False by done. by rewrite !app_nil_r.
Qed.

Lemma lookup_old {A} (h : list A) (x : A) a r :
  h !! a = Some r → (h ++ [x]) !! a = Some r.
Proof. intros H. rewrite lookup_app_l; [done | by eapply lookup_lt_Some]. Qed.

Lemma occurrences_elem id L nd :
  nd ∈ occurrences id L ↔
  (is_nested_node nd.2 = true ∧ show (_id nd.2) = id) ∧ nd ∈ L.
Proof. unfold occurrences. by rewrite list_elem_of_filter. Qed.

Lemma hist_no_occurrence L st id :
  hist L st → obj_get id (resources st) = None → occurrences id L = [].
Proof.
  intros HL Hnone. destruct (occurrences id L) as [|[n' d'] o] eqn:Ho; [done|].
  assert ((n', d') ∈ occurrences id L) as Hin by (rewrite Ho; apply list_elem_of_here).
  apply occurrences_elem in Hin as [[Hnest Hid] Hin]. simpl in *.
  destruct (hist_node _ _ HL n' d' Hin (is_nested_resolved _ Hnest)) as (a & r & Hget & _).
  unfold ident in Hget. rewrite (is_nested_root _ Hnest), Hid in Hget. congruence.
Qed.

Lemma hist_step L n d st st' :
  wf st → hist L st → step_view n d st st' → hist (L ++ [(n, d)]) st'.
Proof.
  intros Hwf HL [Hres Hh Hr Hl | Hroot [Hn _]%obj_read_Absent Hh Hr Hl
                | Hnest [Hn _]%obj_read_Absent Hh Hr Hl
                | b r p Hnest Hn Hb Hp Hh Hr Hl].
  - (* unclassified *)
    split.
    + intros k a. rewrite Hr, Hh. intros Hk.
      destruct (hist_record _ _ HL k a Hk) as (r & ? & ? & Hor).
      exists r. split_and!; [done..|]. apply hist_record_weaken; [done|].
      simpl. intros [Hx%is_nested_resolved _]. congruence.
    + intros n' d' [Hin|Hin%list_elem_of_singleton]%elem_of_app Hd'.
      * rewrite Hr, Hh. by apply (hist_node _ _ HL).
      * simplify_eq. congruence.
    + rewrite roots_snoc. simpl. rewrite decide_False, app_nil_r.
      * apply (hist_roots _ _ HL).
      * intros Hx%is_root_resolved. congruence.
  - (* a new root-level record *)
    split.
    + intros k a. rewrite Hr, Hh, obj_get_set. case_decide as Hk.
      * intros [= <-]. subst k. eexists. split; [apply lookup_fresh|]. simpl.
        split; [done|]. left. split_and!; [done..|].
        exists d. split; [|done]. apply elem_of_app. right. apply list_elem_of_here.
      * intros Hget. destruct (hist_record _ _ HL k a Hget) as (r & Hr0 & ? & Hor).
        exists r. split; [by apply lookup_old|]. split; [done|].
        apply hist_record_weaken; [done|]. simpl.
        intros [Hx _]. by rewrite (is_root_nested _ Hroot) in Hx.
    + intros n' d' [Hin|Hin%list_elem_of_singleton]%elem_of_app Hd'.
      * destruct (hist_node _ _ HL n' d' Hin Hd') as (a & r & Hget & Hr0 & Hnr).
        exists a, r. rewrite Hr, Hh, obj_get_set_ne by congruence.
        split_and!; [done | by apply lookup_old | done].
      * simplify_eq. unfold ident. rewrite Hroot, Hr, Hh, obj_get_set_eq.
        eexists _, _. split; [done|]. split; [apply lookup_fresh | done].
    + rewrite roots_snoc. simpl. rewrite decide_True, fmap_app by done. simpl.
      apply NoDup_app. split; [apply (hist_roots _ _ HL)|]. split; [|apply NoDup_singleton].
      intros n' ([n'' d''] & Heq & [Hroot' Hin]%list_elem_of_filter)%list_elem_of_fmap.
      intros Hx%list_elem_of_singleton. simpl in *. subst n' n''.
      destruct (hist_node _ _ HL n d'' Hin (is_root_resolved _ Hroot')) as (a & r & Hget & _).
      unfold ident in Hget. rewrite Hroot' in Hget. congruence.
  - (* a new nested record *)
    pose proof (hist_no_occurrence _ _ _ HL Hn) as Hocc.
    split.
    + intros k a. rewrite Hr, Hh, obj_get_set. case_decide as Hk.
      * intros [= <-]. subst k. eexists. split; [apply lookup_fresh|]. simpl.
        split; [done|]. right. split; [done|].
        rewrite pending_snoc, occurrences_snoc. unfold pending. rewrite Hocc. simpl.
        rewrite !decide_True by done. done.
      * intros Hget. destruct (hist_record _ _ HL k a Hget) as (r & Hr0 & ? & Hor).
        exists r. split; [by apply lookup_old|]. split; [done|].
        apply hist_record_weaken; [done|]. simpl. by intros [_ Hx].
    + intros n' d' [Hin|Hin%list_elem_of_singleton]%elem_of_app Hd'.
      * destruct (hist_node _ _ HL n' d' Hin Hd') as (a & r & Hget & Hr0 & Hnr).
        exists a, r. rewrite Hr, Hh, obj_get_set_ne by congruence.
        split_and!; [done | by apply lookup_old | done].
      * simplify_eq. unfold ident.
        rewrite (is_nested_root _ Hnest), Hr, Hh, obj_get_set_eq.
        eexists _, _. split; [done|]. split; [apply lookup_fresh | done].
    + rewrite roots_snoc. simpl.
      rewrite decide_False, app_nil_r by (by rewrite (is_nested_root _ Hnest)).
      apply (hist_roots _ _ HL).
  - (* a merge into the record at [b] *)
    destruct (hist_record _ _ HL _ b Hn) as (r0 & Hr0 & Hname & Hor).
    assert (r0 = r) as -> by congruence.
    destruct Hor as [(_ & Hnone & _) | (Hnested & Hpend & Hocc)]; [congruence|].
    assert (p = Str <$> pending (show (_id d)) L) as -> by congruence.
    pose proof (lookup_lt_Some _ _ _ Hb) as Hlt.
    assert (∀ a x, a ≠ b → heap st !! a = Some x → heap st' !! a = Some x) as Hother.
    { intros a x Hne Ha. rewrite Hh. apply lookup_old. by rewrite list_lookup_insert_ne. }
    assert (heap st' !! b =
            Some (set_parent (Some ((Str <$> pending (show (_id d)) L)
                                    ++ (Str <$> _requiredBy d))) r)) as Hnew.
    { rewrite Hh. apply lookup_old. by rewrite list_lookup_insert_eq. }
    split.
    + intros k a. rewrite Hr. intros Hget.
      destruct (decide (a = b)) as [->|Hne].
      * assert (k = show (_id d)) as -> by (eapply obj_get_inj; [apply Hwf|done..]).
        eexists. split; [done|]. simpl. split; [done|]. right. split; [done|].
        rewrite pending_snoc, occurrences_snoc, fmap_app. simpl.
        rewrite !decide_True by done. split; [done|].
        intros [? _]%app_eq_nil. done.
      * destruct (hist_record _ _ HL k a Hget) as (x & Hx & ? & Hor).
        exists x. split; [by apply Hother|]. split; [done|].
        apply hist_record_weaken; [done|]. simpl. intros [_ <-]. congruence.
    + intros n' d' [Hin|Hin%list_elem_of_singleton]%elem_of_app Hd'.
      * destruct (hist_node _ _ HL n' d' Hin Hd') as (a & x & Hget & Hx & Hnx).
        rewrite Hr. destruct (decide (a = b)) as [->|Hne].
        -- eexists _, _. split; [done|]. split; [done|]. simpl. congruence.
        -- exists a, x. split_and!; [done | by apply Hother | done].
      * simplify_eq. unfold ident. rewrite (is_nested_root _ Hnest), Hr.
        eexists _, _. split; [done|]. split; [done|]. done.
    + rewrite roots_snoc. simpl.
      rewrite decide_False, app_nil_r by (by rewrite (is_nested_root _ Hnest)).
      apply (hist_roots _ _ HL).
Qed.

(** The walk from a pristine state, when it completes. *)
Lemma walk_inv st0 L st :
  pristine st0 →
  for_each (λ nd, resolveOne nd.1 nd.2) L st0 = Done st →
  wf st ∧ hist L st.
Proof.
  intros H0. revert st. induction L as [|[n d] L IH] using rev_ind; intros st.
  - simpl. intros [= <-]. split; [by apply wf_pristine | by apply hist_pristine].
  - rewrite for_each_snoc. intros (s & Hs & Hstep)%and_then_Done.
    destruct (IH s Hs) as [Hwf HL]. apply resolveOne_view in Hstep.
    split; [by eapply step_view_wf | by eapply hist_step].
Qed.


(** ** Removing duplicates *)

Section FirstSeenFacts.
Context {A : Type} `{EqDecision A}.
Implicit Types (x : A) (l acc : list A).

Lemma foldl_push_new acc l :
  foldl push_new acc l = acc ++ filter (λ y, y ∉ acc) (first_seen l).
Proof.
  revert acc. induction l as [|x l IH]; intros acc; simpl.
  - by rewrite filter_nil, app_nil_r.
  - rewrite IH. unfold push_new. rewrite filter_cons, list_filter_filter.
    case_bool_decide as Hx.
    + rewrite decide_False by auto. f_equal. apply list_filter_iff.
      intros y. split; [intros Hy; split; [done | congruence] | by intros [? _]].
    + rewrite decide_True by done. rewrite <-app_assoc. simpl. do 2 f_equal.
      apply list_filter_iff. intros y. rewrite elem_of_app, list_elem_of_singleton.
      split; [intros Hy; split; auto | intros [? ?] [?|?]; done].
Qed.

Lemma foldl_push_new_nil l : foldl push_new [] l = first_seen l.
Proof.
  rewrite foldl_push_new. simpl. induction (first_seen l) as [|y k IH]; [done|].
  rewrite filter_cons, decide_True by apply not_elem_of_nil. by f_equal.
Qed.

Lemma first_seen_elem x l : x ∈ first_seen l ↔ x ∈ l.
Proof.
  induction l as [|y l IH]; simpl; [done|].
  rewrite !elem_of_cons, list_elem_of_filter, IH.
  destruct (decide (x = y)); tauto.
Qed.

Lemma first_seen_NoDup l : NoDup (first_seen l).
Proof.
  induction l as [|y l IH]; simpl; [apply NoDup_nil_2|].
  apply NoDup_cons. split; [|by apply NoDup_filter].
  rewrite list_elem_of_filter. by intros [? _].
Qed.

Lemma first_seen_sublist l : first_seen l `sublist_of` l.
Proof.
  induction l as [|y l IH]; simpl; [done|].
  apply sublist_skip. etrans; [apply sublist_filter | done].
Qed.


End FirstSeenFacts.

(** ** The loop that resolves requirer locations *)

Lemma set_parent_same r acc : parent r = Some acc → set_parent (Some acc) r = r.
Proof. destruct r; simpl. by intros ->. Qed.

Lemma set_heap_insert_id a r st :
  heap st !! a = Some r → set_heap <[a := r]> st = st.
Proof. destruct st; unfold set_heap; simpl. intros H. by rewrite list_insert_id. Qed.

Lemma alter_as_insert {A} (f : A → A) a (h : list A) r :
  h !! a = Some r → alter f a h = <[a := f r]> h.
Proof.
  intros H. apply list_eq. intros j. destruct (decide (j = a)) as [->|Hj].
  - rewrite list_lookup_alter_eq, H, list_lookup_insert_eq; [done|].
    by eapply lookup_lt_Some.
  - by rewrite list_lookup_alter_ne, list_lookup_insert_ne.
Qed.

Lemma upd_as_insert a f st r :
  heap st !! a = Some r → upd a f st = set_heap <[a := f r]> st.
Proof.
  destruct st; unfold upd, set_heap; simpl. intros H.
  by rewrite (alter_as_insert _ _ _ _ H).
Qed.

Lemma set_heap_insert_twice a r1 r2 st :
  set_heap <[a := r2]> (set_heap <[a := r1]> st) = set_heap <[a := r2]> st.
Proof. destruct st; unfold set_heap; simpl. by rewrite list_insert_insert_eq. Qed.

Lemma heap_set_heap_insert a r r0 st :
  heap st !! a = Some r0 → heap (set_heap <[a := r]> st) !! a = Some r.
Proof.
  destruct st; simpl. intros H. apply list_lookup_insert_eq. by eapply lookup_lt_Some.
Qed.

Lemma push_parent_eq a k st r acc :
  heap st !! a = Some r → parent r = Some acc →
  push_parent a k st =
  Done (set_heap <[a := set_parent (Some (push_new acc k)) r]> st).
Proof.
  intros Hr Hp. unfold push_parent, push_new. rewrite Hr. simpl. rewrite Hp.
  case_bool_decide.
  - by rewrite set_parent_same, set_heap_insert_id.
  - by rewrite (upd_as_insert _ _ _ r).
Qed.

(** [reverse_location[x]], the value [x] serving as the key. *)
Definition look (rl : gmap string string) (x : pval) : option pval :=
  index_read (to_key x) rl.


Lemma resolve_into_Some msg a x st v :
  look (reverse_location st) x = Some v →
  resolve_into msg a x st = push_parent a v st.
Proof. unfold resolve_into, look. by intros ->. Qed.

Lemma resolve_into_None msg a x st :
  look (reverse_location st) x = None →
  resolve_into msg a x st = Throw (Error msg) st.
Proof. unfold resolve_into, look. by intros ->. Qed.

Lemma resolve_loop msg a p st r acc :
  heap st !! a = Some r → parent r = Some acc →
  match mapM (look (reverse_location st)) p with
  | Some ids =>
      for_each (resolve_into msg a) p st =
      Done (set_heap <[a := set_parent (Some (foldl push_new acc ids)) r]> st)
  | None =>
      ∃ st', for_each (resolve_into msg a) p st = Throw (Error msg) st' ∧
             out st' = out st ∧ resources st' = resources st ∧
             reverse_location st' = reverse_location st
  end.
Proof.
  revert st r acc. induction p as [|x p IH]; intros st r acc Hr Hp.
  - simpl. by rewrite set_parent_same, set_heap_insert_id.
  - cbn [mapM for_each].
    destruct (look (reverse_location st) x) as [k|] eqn:Hloc; simpl;
      [|rewrite resolve_into_None by done; simpl; eauto].
    rewrite (resolve_into_Some _ _ _ _ k), (push_parent_eq _ _ _ r acc) by done. simpl.
    set (r1 := set_parent (Some (push_new acc k)) r).
    set (st1 := set_heap <[a := r1]> st).
    specialize (IH st1 r1 (push_new acc k)).
    assert (reverse_location st1 = reverse_location st) as Hl by (by destruct st).
    rewrite Hl in IH.
    destruct (mapM (look (reverse_location st)) p) as [ids|]; simpl.
    + rewrite IH; [|by eapply heap_set_heap_insert|done].
      subst st1 r1. by rewrite set_heap_insert_twice.
    + destruct IH as (st' & -> & ? & ? & ?); [by eapply heap_set_heap_insert|done|].
      exists st'. split; [done|]. by destruct st.
Qed.

(** The loop for a member of [Object.prototype]: it completes, leaving the
    state as it is, exactly when every location reads as something. *)
Lemma aside_loop msg p st :
  (Forall (λ loc, is_Some (index_read loc (reverse_location st))) p ∧
   for_each (resolve_aside msg) p st = Done st) ∨
  (Exists (λ loc, index_read loc (reverse_location st) = None) p ∧
   for_each (resolve_aside msg) p st = Throw (Error msg) st).
Proof.
  induction p as [|loc p IH]; simpl.
  - left. by split.
  - unfold resolve_aside at 1 3.
    destruct (index_read loc (reverse_location st)) as [v|] eqn:Hloc; simpl.
    + destruct IH as [[Hall ->] | [Hex ->]].
      * left. split; [|done]. apply Forall_cons. split; [by eexists | done].
      * right. split; [|done]. by apply Exists_cons_tl.
    + right. split; [|done]. by apply Exists_cons_hd.
Qed.

(** ** Pass 2 *)

(** A nested record that pass 2 cannot normalise: it has no pending list,
    an empty one, or one with an element that reads as [undefined] in the
    location index. *)
Definition unresolvable (rl : gmap string string) (r : info) : Prop :=
  is_nested r = true ∧
  match parent r with
  | None => True
  | Some p => p = [] ∨ mapM (look rl) p = None
  end.

(** What pass 2 makes of a record. *)
Definition normalized (rl : gmap string string) (r : info) : info :=
  if is_nested r
  then match parent r ≫= mapM (look rl) with
       | Some ids => set_parent (Some (first_seen ids)) r
       | None => r
       end
  else r.

Lemma normalize_resource_spec n a st r :
  heap st !! a = Some r →
  (unresolvable (reverse_location st) r ∧
   ∃ e st', normalize_resource n a st = Throw e st' ∧ out st' = out st) ∨
  (¬ unresolvable (reverse_location st) r ∧
   normalize_resource n a st =
   Done (set_heap <[a := normalized (reverse_location st) r]> st)).
Proof.
  intros Hr. unfold normalize_resource, unresolvable, normalized. rewrite Hr.
  destruct (is_nested r) eqn:Hnest.
  - destruct (parent r) as [p|] eqn:Hp; simpl.
    + case_bool_decide as Hlen.
      * left. apply length_zero_iff_nil in Hlen as ->.
        split; [auto|]. eexists _, _. split; [done|]. by destruct st.
      * rewrite (upd_as_insert _ _ _ r) by done.
        set (r0 := set_parent (Some []) r). set (st0 := set_heap <[a := r0]> st).
        pose proof (resolve_loop ("error normalizing nested dependency: " +:+ n)
                      a p st0 r0 []) as Hloop.
        assert (reverse_location st0 = reverse_location st) as Hl by (by destruct st).
        rewrite Hl in Hloop.
        destruct (mapM (look (reverse_location st)) p) as [ids|] eqn:Hids.
        -- right. split.
           { intros [_ [->|?]]; [by destruct Hlen | done]. }
           rewrite Hloop; [|by eapply heap_set_heap_insert|done].
           subst st0 r0. rewrite set_heap_insert_twice, foldl_push_new_nil.
           by destruct r.
        -- left. split; [auto|].
           destruct Hloop as (st' & -> & Hout & _);
             [by eapply heap_set_heap_insert|done|].
           eexists _, _. split; [done|]. rewrite Hout. by destruct st.
    + left. split; [done|]. eexists _, _. split; [done|]. by destruct st.
  - right. split; [by intros [? _]|]. by rewrite set_heap_insert_id.
Qed.

Definition normalize_body (na : string * addr) : state → outcome :=
  normalize_resource na.1 na.2.

Lemma pass2_loop es st :
  NoDup es.*2 →
  (∀ na, na ∈ es → is_Some (heap st !! na.2)) →
  (Exists (λ na, ∃ r, heap st !! na.2 = Some r ∧
                      unresolvable (reverse_location st) r) es ∧
   ∃ e st', for_each normalize_body es st = Throw e st' ∧ out st' = out st) ∨
  (Forall (λ na, ∀ r, heap st !! na.2 = Some r →
                      ¬ unresolvable (reverse_location st) r) es ∧
   ∃ st', for_each normalize_body es st = Done st' ∧
          resources st' = resources st ∧
          reverse_location st' = reverse_location st ∧
          nested_root_deps st' = nested_root_deps st ∧
          out st' = out st ∧
          ∀ b, heap st' !! b =
               if decide (b ∈ es.*2)
               then normalized (reverse_location st) <$> heap st !! b
               else heap st !! b).
Proof.
  revert st. induction es as [|[k a] es IH]; intros st Hnd Hval.
  - right. split; [constructor|]. exists st. simpl. by split_and!.
  - csimpl in Hnd. apply NoDup_cons in Hnd as [Ha Hnd].
    destruct (Hval (k, a) (list_elem_of_here _ _)) as [r Hr]. simpl in Hr.
    change (for_each normalize_body ((k, a) :: es) st)
      with (normalize_resource k a st >>> for_each normalize_body es).
    destruct (normalize_resource_spec k a st r Hr)
      as [[Hbad (e & st' & -> & Hout)] | [Hok ->]]; cbn [and_then].
    { left. split; [|by eauto]. apply Exists_cons_hd. simpl. eauto. }
    set (st1 := set_heap <[a := normalized (reverse_location st) r]> st).
    assert (reverse_location st1 = reverse_location st) as Hl by (by destruct st).
    assert (∀ b, b ≠ a → heap st1 !! b = heap st !! b) as Hother.
    { intros b Hb. destruct st; simpl. by apply list_lookup_insert_ne. }
    assert (heap st1 !! a = Some (normalized (reverse_location st) r)) as Hnew
      by (by eapply heap_set_heap_insert).
    assert (∀ na, na ∈ es → na.2 ≠ a) as Hne.
    { intros [k' a'] Hin Heq. simpl in Heq. subst a'.
      apply Ha, list_elem_of_fmap. by exists (k', a). }
    destruct (IH st1 Hnd) as [[Hex Hthrow] | [Hall (st' & Hrun & Hres & Hrl & Hnr & Hout & Hheap)]].
    + intros na Hin. rewrite Hother by auto. apply Hval. by apply list_elem_of_further.
    + left. split.
      * apply Exists_cons_tl. apply Exists_exists in Hex as (na & Hin & x & Hx & Hbad).
        apply Exists_exists. exists na. split; [done|]. exists x.
        rewrite Hother in Hx by auto. by rewrite Hl in Hbad.
      * destruct Hthrow as (e & st' & -> & Hout). exists e, st'. split; [done|].
        rewrite Hout. by destruct st.
    + right. split.
      * apply Forall_cons. split; [simpl; intros x Hx; by simplify_eq|].
        apply Forall_forall. intros na Hin x Hx.
        rewrite Forall_forall in Hall. rewrite <-Hl. apply (Hall na Hin).
        by rewrite Hother by auto.
      * exists st'. rewrite Hrun, Hres, Hrl, Hnr, Hout, Hl.
        split_and!; try (by destruct st).
        intros b. rewrite Hheap, Hl, fmap_cons. cbn [snd].
        destruct (decide (b = a)) as [->|Hb].
        -- rewrite decide_False by done. rewrite decide_True by apply list_elem_of_here.
           by rewrite Hnew, Hr.
        -- rewrite !Hother by done. destruct (decide (b ∈ es.*2)) as [Hin|Hin].
           ++ by rewrite decide_True by (by apply list_elem_of_further).
           ++ rewrite decide_False; [done|]. by intros [?|?]%elem_of_cons.
Qed.

(** ** Pass 1 *)

Lemma for_each_hist {A} (body : A → state → outcome)
    (P : list A → state → Prop) st0 :
  P [] st0 →
  (∀ l x st st', P l st → body x st = Done st' → P (l ++ [x]) st') →
  ∀ l st', for_each body l st0 = Done st' → P l st'.
Proof.
  intros H0 Hstep l. induction l as [|x l IH] using rev_ind; intros st'.
  - simpl. by intros [= <-].
  - rewrite for_each_snoc. intros (s & Hs & Hx)%and_then_Done. eauto.
Qed.

Definition deferred_body (nd : string * node) : state → outcome :=
  reconcile_deferred nd.1 nd.2.

(** The index a deferred dependency resolves its requirers in. *)
Definition own_indexed (n : string) (d : node) (st : state) : gmap string string :=
  index_write (_location d) n (reverse_location st).

(** A completed iteration of pass 1: [resources[n]] was a record, which
    received the parents, or a member of [Object.prototype], and then only
    the index changed. *)
Lemma reconcile_deferred_Done n d st st' :
  wf st →
  reconcile_deferred n d st = Done st' →
  (∃ a r ids,
     obj_get n (resources st) = Some a ∧ heap st !! a = Some r ∧
     mapM (look (own_indexed n d st)) (Str <$> _requiredBy d) = Some ids ∧
     st' = set_heap <[a := set_parent
                              (Some (foldl push_new (default [] (parent r)) ids)) r]>
             (set_reverse_location (index_write (_location d) n) st)) ∨
  (obj_read n (resources st) = Proto ∧ n ≠ "__proto__" ∧
   Forall (λ loc, is_Some (index_read loc (own_indexed n d st))) (_requiredBy d) ∧
   st' = set_reverse_location (index_write (_location d) n) st).
Proof.
  intros Hwf. unfold reconcile_deferred, own_indexed.
  destruct (obj_read n (resources st)) as [a| |] eqn:Hrd; [| |done].
  - pose proof (obj_read_Own_inv _ _ _ Hrd) as Hget.
    destruct (lookup_lt_is_Some_2 (heap st) a) as [r Hr]; [by eapply wf_alloc|].
    set (st1 := set_reverse_location (index_write (_location d) n) st).
    assert (heap st1 !! a = Some r) as Hr1 by (by destruct st).
    rewrite (upd_as_insert _ _ _ r) by done.
    set (r1 := match parent r with None => set_parent (Some []) r | Some _ => r end).
    assert (parent r1 = Some (default [] (parent r))) as Hp1
      by (subst r1; by destruct (parent r) eqn:?).
    pose proof (resolve_loop ("error normalizing nested root dependency: " +:+ show (_id d))
                  a (Str <$> _requiredBy d) (set_heap <[a := r1]> st1) r1 _
                  (heap_set_heap_insert _ _ _ _ Hr1) Hp1) as Hloop.
    assert (reverse_location (set_heap <[a := r1]> st1)
            = index_write (_location d) n (reverse_location st)) as Hl by (by destruct st).
    rewrite Hl in Hloop.
    destruct (mapM _ (Str <$> _requiredBy d)) as [ids|] eqn:Hids.
    + rewrite Hloop. intros [= <-]. left. exists a, r, ids. split_and!; try done.
      rewrite set_heap_insert_twice. do 2 f_equal.
      subst r1. destruct r as [? ? ? ? ? [?|]]; done.
    + destruct Hloop as (? & -> & _). done.
  - case_decide as Hn; [done|].
    set (st1 := set_reverse_location (index_write (_location d) n) st).
    assert (reverse_location st1 = index_write (_location d) n (reverse_location st))
      as Hl by (by destruct st).
    destruct (aside_loop ("error normalizing nested root dependency: " +:+ show (_id d))
                (_requiredBy d) st1) as [[Hall ->] | [_ ->]]; [|done].
    intros [= <-]. right. rewrite Hl in Hall. by split_and!.
Qed.



(** Every nested record has a list of parents. *)
Definition parents_shape (st : state) : Prop :=
  ∀ k a r, obj_get k (resources st) = Some a → heap st !! a = Some r →
    is_nested r = true → is_Some (parent r).

Lemma reconcile_deferred_keeps n d st st' :
  wf st → parents_shape st →
  reconcile_deferred n d st = Done st' →
  wf st' ∧ parents_shape st' ∧
  resources st' = resources st ∧ nested_root_deps st' = nested_root_deps st ∧
  out st' = out st ∧
  reverse_location st' = index_write (_location d) n (reverse_location st) ∧
  (∀ b, obj_get n (resources st) ≠ Some b → heap st' !! b = heap st !! b).
Proof.
  intros Hwf Hshape Hrun.
  destruct (reconcile_deferred_Done _ _ _ _ Hwf Hrun)
    as [(a & r & ids & Hget & Hr & Hids & ->) | (_ & _ & _ & ->)].
  2:{ destruct Hwf as [Hk Ha Hal]. destruct st.
      split_and!; [by split | exact Hshape | done..]. }
  assert (∀ b, b ≠ a →
    heap (set_heap <[a := set_parent
                            (Some (foldl push_new (default [] (parent r)) ids)) r]>
            (set_reverse_location (index_write (_location d) n) st)) !! b = heap st !! b)
    as Hother.
  { intros b Hb. destruct st; simpl. by apply list_lookup_insert_ne. }
  split_and!; try (by destruct st).
  - destruct Hwf as [Hk Ha Hal]. split; try (by destruct st).
    intros k b Hb. destruct st; simpl in *. rewrite length_insert. eauto.
  - intros k b x. destruct (decide (b = a)) as [->|Hb].
    + erewrite heap_set_heap_insert by (by destruct st).
      intros _ [= <-] _. by eexists.
    + rewrite Hother by done.
      replace (resources _) with (resources st) by (by destruct st). apply Hshape.
  - intros b Hb. apply Hother. congruence.
Qed.

Lemma pass1_inv es st0 st' :
  wf st0 → parents_shape st0 →
  for_each deferred_body es st0 = Done st' →
  wf st' ∧ parents_shape st' ∧
  resources st' = resources st0 ∧ nested_root_deps st' = nested_root_deps st0 ∧
  out st' = out st0 ∧
  (∀ n d, (n, d) ∈ es → _location d ≠ "__proto__" →
     ∃ n' d', (n', d') ∈ es ∧ _location d' = _location d ∧
              reverse_location st' !! _location d = Some n') ∧
  (∀ b, (∀ n d, (n, d) ∈ es → obj_get n (resources st0) ≠ Some b) →
        heap st' !! b = heap st0 !! b).
Proof.
  intros Hwf Hshape.
  apply (for_each_hist deferred_body (λ l st,
    wf st ∧ parents_shape st ∧
    resources st = resources st0 ∧ nested_root_deps st = nested_root_deps st0 ∧
    out st = out st0 ∧
    (∀ n d, (n, d) ∈ l → _location d ≠ "__proto__" →
       ∃ n' d', (n', d') ∈ l ∧ _location d' = _location d ∧
                reverse_location st !! _location d = Some n') ∧
    (∀ b, (∀ n d, (n, d) ∈ l → obj_get n (resources st0) ≠ Some b) →
          heap st !! b = heap st0 !! b))).
  - split_and!; try done. intros n d H. by apply elem_of_nil in H.
  - clear st'. intros l [n d] st st' (Hw & Hs & Hr & Hn & Ho & Hloc & Hfr) Hrun.
    destruct (reconcile_deferred_keeps _ _ _ _ Hw Hs Hrun)
      as (Hw' & Hs' & Hr' & Hn' & Ho' & Hl' & Hfr').
    split_and!; [done | done | congruence | congruence | congruence | |].
    + intros n0 d0 [Hin|Hin%list_elem_of_singleton]%elem_of_app Hp0.
      * destruct (decide (_location d0 = _location d)) as [Heq|Hne].
        -- exists n, d. split; [apply elem_of_app; right; apply list_elem_of_here|].
           split; [done|]. simpl in Hl'.
           rewrite Hl', index_write_lookup, decide_True; [done|]. by rewrite <-Heq.
        -- destruct (Hloc n0 d0 Hin Hp0) as (n' & d' & Hin' & Heq & Hlk).
           exists n', d'. split; [apply elem_of_app; by left|]. split; [done|].
           simpl in Hl'. rewrite Hl', index_write_lookup, decide_False; [done|].
           intros [? _]. congruence.
      * simplify_eq. exists n, d.
        split; [apply elem_of_app; right; apply list_elem_of_here|].
        split; [done|]. simpl in Hl'. by rewrite Hl', index_write_lookup, decide_True.
    + intros b Hb. simpl in Hfr'. rewrite Hfr'.
      * apply Hfr. intros n0 d0 Hin. apply (Hb n0 d0), elem_of_app. by left.
      * rewrite Hr. apply (Hb n d), elem_of_app. right. apply list_elem_of_here.
Qed.

(** Pass 1 completes only on an object whose prototype was not replaced,
    and then the loop ran over all of [nested_root_deps]. *)
Lemma filter_all {A} (P : A → Prop) `{∀ x, Decision (P x)} (l : list A) :
  Forall P l → filter P l = l.
Proof.
  induction 1 as [|x l Hx _ IH]; [done|]. by rewrite filter_cons, decide_True, IH.
Qed.

Lemma own_deferred_all st :
  obj_get "__proto__" (nested_root_deps st) = None →
  own_deferred st = nested_root_deps st.
Proof.
  unfold own_deferred. intros Hnone%obj_get_None.
  apply filter_all. apply Forall_forall. intros [n d] Hin. simpl. intros ->. apply Hnone.
  apply list_elem_of_fmap. by exists ("__proto__", d).
Qed.

Lemma reconcile_deferred_frame n d st :
  nested_root_deps (final (reconcile_deferred n d st)) = nested_root_deps st.
Proof.
  unfold reconcile_deferred. destruct (obj_read n (resources st)) as [a| |]; [| |done].
  - apply (for_each_final _ (λ s, nested_root_deps s = nested_root_deps st));
      [|by destruct st].
    intros x s _ Hs. unfold resolve_into.
    destruct (index_read _ _) as [v|]; [|done]. unfold push_parent.
    destruct (heap s !! a ≫= parent) as [l|]; [|done].
    case_bool_decide; [done | by destruct s].
  - case_decide; [done|].
    apply (for_each_final _ (λ s, nested_root_deps s = nested_root_deps st));
      [|by destruct st].
    intros x s _ Hs. unfold resolve_aside. by destruct (index_read _ _).
Qed.

Lemma pass1_Done st st1 :
  normalize_pass1 st = Done st1 →
  obj_get "__proto__" (nested_root_deps st) = None ∧
  for_each deferred_body (nested_root_deps st) st = Done st1.
Proof.
  unfold normalize_pass1. intros (s & Hs & Hend)%and_then_Done.
  assert (nested_root_deps s = nested_root_deps st) as Hn.
  { pose proof (for_each_final (λ nd, reconcile_deferred nd.1 nd.2)
                  (λ x, nested_root_deps x = nested_root_deps st) (own_deferred st) st) as H.
    rewrite Hs in H. apply H; [|done].
    intros [n d] x _ Hx. simpl. by rewrite reconcile_deferred_frame. }
  rewrite Hn in Hend. destruct (obj_get "__proto__" (nested_root_deps st)) eqn:Hp; [done|].
  injection Hend as <-. split; [done|]. by rewrite <-own_deferred_all.
Qed.

Lemma pass1_run st :
  obj_get "__proto__" (nested_root_deps st) = None →
  normalize_pass1 st = for_each deferred_body (nested_root_deps st) st.
Proof.
  intros Hnone. unfold normalize_pass1. rewrite own_deferred_all by done.
  change (λ nd : string * node, reconcile_deferred nd.1 nd.2) with deferred_body.
  pose proof (for_each_final deferred_body
                (λ x, nested_root_deps x = nested_root_deps st) (nested_root_deps st) st) as H.
  destruct (for_each deferred_body (nested_root_deps st) st) as [s|e s|h s]; simpl in *;
    [|done..].
  rewrite H, Hnone; [done| |done].
  intros [n d] x _ Hx. unfold deferred_body. simpl. by rewrite reconcile_deferred_frame.
Qed.

(** * The properties of the specification *)

(** ** The hash fetcher *)

Lemma index_0_prefix s u :
  String.index 0 s u = Some 0%nat ↔ String.prefix s u = true.
Proof.
  destruct u as [|c u].
  - by destruct s.
  - change (String.index 0 s (String c u))
      with (if String.prefix s (String c u) then Some 0%nat
            else match String.index 0 s u with
                 | Some n => Some (S n)
                 | None => None
                 end).
    destruct (String.prefix s (String c u)); [done|].
    split; [|done]. by destruct (String.index 0 s u).
Qed.

(** A URL for which no hash is computed: absent, or not starting with
    [https://]. *)
Definition unqualified (u : option string) : Prop :=
  match u with
  | None => True
  | Some s => String.prefix "https://" s = false
  end.

(** C8.  Given an absent URL, [getHash] resolves at once to null and writes
    nothing; given a URL that does not start with [https://], it writes
    exactly one warning to the log and resolves to null.  In both cases no
    [https.get] is issued, nothing is thrown and the rest of the state is
    untouched. *)
Theorem getHash_unqualified (u : option string) (st : state) :
  unqualified u →
  (getHash u st).1 = Resolved None ∧
  log (getHash u st).2 =
    log st ++ match u with None => [] | Some s => [getHash_warning s] end ∧
  requests (getHash u st).2 = requests st ∧
  out (getHash u st).2 = out st ∧
  heap (getHash u st).2 = heap st ∧
  resources (getHash u st).2 = resources st ∧
  resources_sha256s (getHash u st).2 = resources_sha256s st.
Proof.
  destruct u as [s|]; simpl.
  - intros Hs. rewrite getHash_Some. unfold hash_promise, hash_log, hash_requests, secure.
    rewrite bool_decide_eq_false_2.
    + simpl. by rewrite app_nil_r.
    + rewrite index_0_prefix. congruence.
  - intros _. unfold getHash. by rewrite app_nil_r.
Qed.

Lemma getHash_unqualified_witness :
  (getHash (Some "git+ssh://example.com/pkg.git") (init false)).1 = Resolved None ∧
  log (getHash (Some "git+ssh://example.com/pkg.git") (init false)).2 =
    [getHash_warning "git+ssh://example.com/pkg.git"] ∧
  requests (getHash (Some "git+ssh://example.com/pkg.git") (init false)).2 = [].
Proof.
  pose proof (getHash_unqualified (Some "git+ssh://example.com/pkg.git") (init false)
                eq_refl) as (H1 & H2 & H3 & _).
  exact (conj H1 (conj H2 H3)).
Defined.

(** ** The merge case *)

(** C10.  When a nested node is resolved and its [_id] already keys a
    record, that record keeps its url, name, nested flag, install command
    and bin mapping: only its pending parents grow, by the node's requirers.
    No entry is added to [resources] or to [resources_sha256s], and no
    [https.get] is issued. *)
Theorem merge_frame (n : string) (d : node) (st : state) (b : addr) (r : info)
    (p : list pval) :
  length (getDepTreeBranch (_location d)) ≠ 1%nat →
  obj_get (show (_id d)) (resources st) = Some b →
  heap st !! b = Some r →
  parent r = Some p →
  ∃ st' r',
    resolve_resolved n d st = Done st' ∧
    heap st' !! b = Some r' ∧
    parent r' = Some (p ++ (Str <$> _requiredBy d)) ∧
    url r' = url r ∧ name r' = name r ∧ nested r' = nested r ∧
    install r' = install r ∧ info_bin r' = info_bin r ∧
    resources st' = resources st ∧
    resources_sha256s st' = resources_sha256s st ∧
    requests st' = requests st ∧
    log st' = log st.
Proof.
  intros Hb Hget Hr Hp.
  rewrite (resolve_nested_merge n d st b r p) by (by rewrite ?bool_decide_eq_false_2).
  eexists _, _. split; [done|]. simpl. split.
  - apply lookup_old. apply list_lookup_insert_eq. by eapply lookup_lt_Some.
  - done.
Qed.

(** A state holding one nested record, for [B@1.0.0] required from [/A]. *)
Definition ex_merge_record : info :=
  Info "https://registry.example/B/-/B-1.0.0.tgz" None None (Some true)
       (Some "B@1.0.0") (Some [Str "/A"]).

Definition ex_merge_state : state :=
  State [ex_merge_record] [("B@1.0.0", 0%nat)] {["/A/node_modules/B" := "B@1.0.0"]}
        [("B@1.0.0", Fetching "https://registry.example/B/-/B-1.0.0.tgz")]
        [] [] false [] [] ["https://registry.example/B/-/B-1.0.0.tgz"].

(** The same package found again, below [/C]. *)
Definition ex_merge_node : node :=
  Node (Some "B@1.0.0") (Some "https://registry.example/B/-/B-1.0.0.tgz")
       "/C/node_modules/B" ["/C"] None None None None [].

Lemma merge_frame_witness :
  ∃ st' r',
    resolve_resolved "B" ex_merge_node ex_merge_state = Done st' ∧
    heap st' !! 0%nat = Some r' ∧
    parent r' = Some ([Str "/A"] ++ (Str <$> _requiredBy ex_merge_node)) ∧
    url r' = url ex_merge_record ∧ name r' = name ex_merge_record ∧
    nested r' = nested ex_merge_record ∧
    install r' = install ex_merge_record ∧ info_bin r' = info_bin ex_merge_record ∧
    resources st' = resources ex_merge_state ∧
    resources_sha256s st' = resources_sha256s ex_merge_state ∧
    requests st' = requests ex_merge_state ∧
    log st' = log ex_merge_state.
Proof.
  apply (merge_frame "B" ex_merge_node ex_merge_state 0%nat ex_merge_record [Str "/A"]).
  - vm_compute. discriminate.
  - reflexivity.
  - reflexivity.
  - reflexivity.
Defined.

(** ** Nodes without a resolved URL *)

(** A deferred node [X] with a classifiable child [Y]. *)
Definition ex_child : node :=
  Node (Some "Y@2.0.0") (Some "https://registry.example/Y/-/Y-2.0.0.tgz")
       "/Y" ["/X"] None None None None [].

Definition ex_deferred : node :=
  Node (Some "X@1.0.0") None "/X" ["/"] None None None None [("Y", ex_child)].

(** The child of a deferred node is not classified, although walking the
    child mapping from the same state would store it. *)
Lemma deferred_children_dropped :
  ∃ st, resolveDependencies [("X", ex_deferred)] (init false) = Done st ∧
        obj_get "X" (nested_root_deps st) = Some ex_deferred ∧
        resources st = [] ∧
        ∃ st2, resolveDependencies (dependencies ex_deferred) st = Done st2 ∧
               obj_get "Y" (resources st2) = Some 0%nat ∧
               resolveNode "X" ex_deferred (init false) ≠ Done st2.
Proof.
  eexists. split; [reflexivity|]. split; [reflexivity|]. split; [reflexivity|].
  eexists. split; [vm_compute; reflexivity|]. split; [reflexivity|].
  intros H. apply (f_equal (λ m, resources (final m))) in H. vm_compute in H.
  discriminate.
Qed.

(** C2, amended.  A node with an identifier but no resolved URL is recorded
    under its name in [nested_root_deps] and the walk goes on with the next
    sibling: its child mapping is not walked, no resource is created and no
    location is indexed for it.  A node without identifier is skipped in the
    same way, and only a node with both is followed into its children. *)
Theorem deferred_not_walked (n : string) (d : node) (st : state) :
  truthy (_id d) = true →
  truthy (_resolved d) = false →
  resolveNode n d st = Done (set_nested_root_deps (obj_set n d) (warn_unsupported d st)) ∧
  obj_get n (nested_root_deps (final (resolveNode n d st))) = Some d ∧
  resources (final (resolveNode n d st)) = resources st ∧
  heap (final (resolveNode n d st)) = heap st ∧
  reverse_location (final (resolveNode n d st)) = reverse_location st ∧
  visit n d = [(n, d)] ∧
  (∀ n' d', truthy (_id d') = false →
            resolveNode n' d' st = Done (warn_unsupported d' st) ∧
            visit n' d' = [(n', d')]) ∧
  (∀ n' d', resolved d' = true →
            resolveNode n' d' st =
            resolveOne n' d' st >>> resolveDependencies (dependencies d')).
Proof.
  intros Hid Hres.
  assert (resolved d = false) as Hnot by (unfold resolved; by rewrite Hid, Hres).
  assert (resolveNode n d st
          = Done (set_nested_root_deps (obj_set n d) (warn_unsupported d st))) as Hrun.
  { by rewrite resolveNode_unfold, Hnot, resolveOne_defer. }
  rewrite Hrun. simpl. rewrite warn_unsupported_eq. simpl.
  split_and!; try done.
  - apply obj_get_set_eq.
  - by rewrite visit_unfold, Hnot.
  - intros n' d' Hid'.
    assert (resolved d' = false) as Hnot' by (unfold resolved; by rewrite Hid').
    by rewrite resolveNode_unfold, visit_unfold, Hnot', resolveOne_skip.
  - intros n' d' Hd'. by rewrite resolveNode_unfold, Hd'.
Qed.

Lemma deferred_not_walked_witness :
  resolveNode "X" ex_deferred (init false)
  = Done (set_nested_root_deps (obj_set "X" ex_deferred)
            (warn_unsupported ex_deferred (init false))) ∧
  visit "X" ex_deferred = [("X", ex_deferred)].
Proof.
  pose proof (deferred_not_walked "X" ex_deferred (init false) eq_refl eq_refl)
    as (H1 & _ & _ & _ & _ & H2 & _).
  exact (conj H1 H2).
Defined.

(** ** Native addons *)

(** Two root-level packages [A] and [C], each with its own copy of
    [B@1.0.0]; [B] declares an install script. *)
Definition ex_addon (loc req : string) : node :=
  Node (Some "B@1.0.0") (Some "https://registry.example/B/-/B-1.0.0.tgz")
       loc [req] (Some [("install", "node-pre-gyp install --fallback-to-build")])
       None None None [].

Definition ex_addon_tree : obj node :=
  [("A", Node (Some "A@1.0.0") (Some "https://registry.example/A/-/A-1.0.0.tgz")
              "/A" ["/"] None None None None
              [("B", ex_addon "/A/node_modules/B" "/A")]);
   ("C", Node (Some "C@1.0.0") (Some "https://registry.example/C/-/C-1.0.0.tgz")
              "/C" ["/"] None None None None
              [("B", ex_addon "/C/node_modules/B" "/C")])].

(** C7, at the failing input.  The second copy of [B] is merged into the
    record of the first, but its own [info] object, which line 82 pushed on
    [native_addons], never receives a name: the list ends with an entry that
    carries the rewritten command and no resource identifier. *)
Theorem merged_addon_has_no_name :
  ∃ st, resolveDependencies ex_addon_tree (init true) = Done st ∧
        native_addons st = [1; 3]%nat ∧
        obj_get "B@1.0.0" (resources st) = Some 1%nat ∧
        (heap st !! 1%nat) ≫= name = Some "B@1.0.0" ∧
        (heap st !! 1%nat) ≫= install
          = Some "node-pre-gyp --build-from-source install --fallback-to-build" ∧
        (heap st !! 3%nat) ≫= install
          = Some "node-pre-gyp --build-from-source install --fallback-to-build" ∧
        (heap st !! 3%nat) ≫= name = None ∧
        name <$> heap st !! 3%nat = Some None.
Proof.
  eexists. split; [vm_compute; reflexivity|]. by split_and!.
Qed.

(** Outside the merge case the entry does carry the identifier: a node with
    an install script that creates a record is pushed with the rewritten
    command, and the record at that address is named by the node's key. *)
Lemma created_addon_has_name n d st st' c :
  resolved d = true →
  install_cmd d = Some c →
  obj_get (ident n d) (resources st) = None →
  resolveOne n d st = Done st' →
  native_addons st' = native_addons st ++ [length (heap st)] ∧
  obj_get (ident n d) (resources st') = Some (length (heap st)) ∧
  (heap st' !! length (heap st)) ≫= name = Some (ident n d) ∧
  (heap st' !! length (heap st)) ≫= install = Some c.
Proof.
  intros Hres Hc Hfresh. rewrite resolveOne_resolved by done.
  assert (heap (warn_unsupported d st) = heap st ∧
          resources (warn_unsupported d st) = resources st ∧
          native_addons (warn_unsupported d st) = native_addons st)
    as (Hh & Hr & Hn) by (by rewrite warn_unsupported_eq).
  unfold ident, is_root in *. rewrite Hres in *. simpl in Hfresh.
  destruct (bool_decide _) eqn:Hb; simpl.
  - destruct (obj_read n (resources (warn_unsupported d st))) as [a| |] eqn:Hrd.
    + apply obj_read_Own_inv in Hrd. congruence.
    + destruct (resolve_root_dup n d (warn_unsupported d st) Hb) as (? & -> & _);
        [by rewrite Hrd | done].
    + rewrite resolve_root_new by done. intros [= <-]. simpl.
      rewrite Hh, Hr, Hn, lookup_fresh, obj_get_set_eq. unfold addon_of.
      by rewrite Hc.
  - destruct (obj_read (show (_id d)) (resources (warn_unsupported d st)))
      as [a| |] eqn:Hrd.
    + apply obj_read_Own_inv in Hrd. congruence.
    + destruct (resolve_nested_proto n d (warn_unsupported d st) Hb Hrd) as (? & -> & _).
      done.
    + rewrite resolve_nested_new by done. intros [= <-]. simpl.
      rewrite Hh, Hr, Hn, lookup_fresh, obj_get_set_eq. unfold addon_of.
      by rewrite Hc.
Qed.

(** ** The second pass of the normaliser *)

Lemma resources_valid st na :
  wf st → na ∈ resources st → is_Some (heap st !! na.2).
Proof.
  intros Hwf Hin. destruct na as [k a]. apply lookup_lt_is_Some.
  apply (wf_alloc _ Hwf k). by apply elem_obj_get; [apply Hwf|].
Qed.

Lemma resources_addr_elem st k a :
  obj_get k (resources st) = Some a → a ∈ (resources st).*2.
Proof.
  intros H%obj_get_Some_elem. apply list_elem_of_fmap. by exists (k, a).
Qed.

Lemma normalized_nested rl r p :
  is_nested r = true → parent r = Some p → ¬ unresolvable rl r →
  ∃ ids, mapM (look rl) p = Some ids ∧ p ≠ [] ∧
         normalized rl r = set_parent (Some (first_seen ids)) r.
Proof.
  intros Hn Hp Hok. unfold normalized, unresolvable in *. rewrite Hn, Hp in *. simpl.
  destruct (mapM (look rl) p) as [ids|] eqn:Hids.
  - exists ids. split_and!; [done| |done]. intros ->. apply Hok. auto.
  - destruct Hok. auto.
Qed.

Lemma pass2_spec (st : state) :
  wf st → parents_shape st →
  (threw (normalize_pass2 st) ↔
   ∃ k a r p, obj_get k (resources st) = Some a ∧ heap st !! a = Some r ∧
              is_nested r = true ∧ parent r = Some p ∧
              (p = [] ∨ ∃ x, x ∈ p ∧ look (reverse_location st) x = None)) ∧
  (∀ st', normalize_pass2 st = Done st' →
     reverse_location st' = reverse_location st ∧
     resources st' = resources st ∧
     ∀ k a r, obj_get k (resources st) = Some a → heap st !! a = Some r →
       if is_nested r
       then ∃ p ids,
              parent r = Some p ∧ p ≠ [] ∧
              Forall2 (λ x v, look (reverse_location st) x = Some v) p ids ∧
              heap st' !! a = Some (set_parent (Some (first_seen ids)) r) ∧
              NoDup (first_seen ids) ∧
              (∀ x, x ∈ first_seen ids ↔ x ∈ ids) ∧
              first_seen ids `sublist_of` ids
       else heap st' !! a = Some r) ∧
  (threw (normalize_pass2 st) ∨ ∃ st', normalize_pass2 st = Done st').
Proof.
  intros Hwf Hshape.
  change (normalize_pass2 st) with (for_each normalize_body (resources st) st).
  destruct (pass2_loop (resources st) st (wf_addrs _ Hwf))
    as [[Hex (e & st1 & Hrun & _)] | [Hall (st1 & Hrun & Hres & Hrl & _ & _ & Hheap)]].
  { intros na Hin. by apply resources_valid. }
  - rewrite Hrun. split; [|split; [done | by left]]. split; [intros _|done].
    apply Exists_exists in Hex as ([k a] & Hin & r & Hr & Hnest & Hbad). simpl in *.
    apply (elem_obj_get _ _ _ (wf_keys _ Hwf)) in Hin.
    destruct (Hshape k a r Hin Hr Hnest) as [p Hp]. rewrite Hp in Hbad. exists k, a, r, p.
    split_and!; try done. destruct Hbad as [?|Hnone]; [by left|right].
    apply mapM_None_1, Exists_exists in Hnone as (loc & ? & ?). eauto.
  - rewrite Hrun. rewrite Forall_forall in Hall. split; [|split; [|by eauto]].
    + split; [done|]. intros (k & a & r & p & Hget & Hr & Hnest & Hp & Hbad).
      apply (Hall (k, a) (obj_get_Some_elem _ _ _ Hget) r Hr).
      split; [done|]. rewrite Hp. destruct Hbad as [?|(loc & Hin & Hloc)]; [by left|right].
      apply mapM_None_2, Exists_exists. eauto.
    + intros st' [= <-]. split_and!; try done. intros k a r Hget Hr.
      rewrite Hheap, decide_True, Hr by (by eapply resources_addr_elem). simpl.
      destruct (is_nested r) eqn:Hnest.
      * destruct (Hshape k a r Hget Hr Hnest) as [p Hp].
        destruct (normalized_nested (reverse_location st) r p Hnest Hp)
          as (ids & Hids & Hne & ->).
        { apply (Hall (k, a) (obj_get_Some_elem _ _ _ Hget) r Hr). }
        exists p, ids. split_and!; try done.
        -- by apply mapM_Some_1.
        -- apply first_seen_NoDup.
        -- intros x. apply first_seen_elem.
        -- apply first_seen_sublist.
      * unfold normalized. by rewrite Hnest.
Qed.

(** A nested [B] whose requirer location is the string [toString]. *)
Definition ex_proto_tree : obj node :=
  [("A", Node (Some "A@1.0.0") (Some "https://registry.example/A@1.0.0.tgz")
              "/A" ["/"] None None None None
              [("B", Node (Some "B@1.0.0") (Some "https://registry.example/B@1.0.0.tgz")
                          "/A/node_modules/B" ["toString"] None None None None [])])].

Definition ex_proto_resolved : state :=
  Eval vm_compute in final (resolveDependencies ex_proto_tree (init false)).

Lemma ex_proto_resolved_run :
  resolveDependencies ex_proto_tree (init false) = Done ex_proto_resolved.
Proof. vm_compute. reflexivity. Qed.



(** ** The state the resolver hands to the normaliser *)

Lemma hist_shape L st : hist L st → parents_shape st.
Proof.
  intros HL k a r Hget Hr.
  destruct (hist_record _ _ HL k a Hget) as (r0 & Hr0 & _ & Hor).
  assert (r0 = r) as -> by congruence. unfold is_nested.
  destruct Hor as [(-> & -> & _) | (-> & -> & _)]; [done | by eexists].
Qed.

Lemma resolved_inv deps st0 st :
  pristine st0 →
  resolveDependencies deps st0 = Done st →
  wf st ∧ hist (visits deps) st ∧ parents_shape st.
Proof.
  intros H0. rewrite resolveDependencies_flat. intros [Hwf HL]%walk_inv; [|done].
  split_and!; [done | done | by eapply hist_shape].
Qed.


Lemma pristine_init nm : pristine (init nm).
Proof. by repeat split. Qed.

(** The tree of the specification's example: root-level [A] and [C] each
    require a nested copy of [B@1.0.0]. *)
Definition ex_leaf (id loc req : string) : node :=
  Node (Some id) (Some ("https://registry.example/" +:+ id +:+ ".tgz"))
       loc [req] None None None None [].

Definition ex_tree : obj node :=
  [("A", Node (Some "A@1.0.0") (Some "https://registry.example/A@1.0.0.tgz")
              "/A" ["/"] None None None None
              [("B", ex_leaf "B@1.0.0" "/A/node_modules/B" "/A")]);
   ("C", Node (Some "C@1.0.0") (Some "https://registry.example/C@1.0.0.tgz")
              "/C" ["/"] None None None None
              [("B", ex_leaf "B@1.0.0" "/C/node_modules/B" "/C")])].

Definition ex_resolved : state :=
  Eval vm_compute in final (resolveDependencies ex_tree (init false)).

Lemma ex_resolved_run : resolveDependencies ex_tree (init false) = Done ex_resolved.
Proof. vm_compute. reflexivity. Qed.


(** ** Keys of the flat mapping *)

(** C5.  After a walk that completes, the keys of [resources] are pairwise
    distinct.  Every classified node has its record under its identifier
    (the property name for a root-level node, the [_id] for a nested one),
    the record is named by that key and flagged nested exactly when the node
    is; every key is the identifier of some classified node; and a
    root-level node never shares its key with a nested node, even when both
    appear under the same property name. *)
Theorem resource_keys_unique (deps : obj node) (st0 st : state) :
  pristine st0 →
  resolveDependencies deps st0 = Done st →
  NoDup (keys (resources st)) ∧
  (∀ n d, (n, d) ∈ visits deps → resolved d = true →
     ∃ a r, obj_get (ident n d) (resources st) = Some a ∧
            (∀ a', (ident n d, a') ∈ resources st → a' = a) ∧
            heap st !! a = Some r ∧
            name r = Some (ident n d) ∧
            nested r = Some (negb (is_root d))) ∧
  (∀ k a, obj_get k (resources st) = Some a →
     ∃ n d, (n, d) ∈ visits deps ∧ resolved d = true ∧ k = ident n d) ∧
  (∀ n d n' d', (n, d) ∈ visits deps → (n', d') ∈ visits deps →
     is_root d = true → is_nested_node d' = true →
     ident n d = n ∧ ident n' d' = show (_id d') ∧ ident n d ≠ ident n' d').
Proof.
  intros H0 Hrun. destruct (resolved_inv _ _ _ H0 Hrun) as (Hwf & HL & _).
  assert (∀ n d, (n, d) ∈ visits deps → resolved d = true →
     ∃ a r, obj_get (ident n d) (resources st) = Some a ∧
            heap st !! a = Some r ∧ name r = Some (ident n d) ∧
            nested r = Some (negb (is_root d))) as Hnode.
  { intros n d Hin Hd. destruct (hist_node _ _ HL n d Hin Hd) as (a & r & Hget & Hr & Hn).
    destruct (hist_record _ _ HL _ a Hget) as (r0 & Hr0 & Hname & _).
    exists a, r. split_and!; congruence. }
  split_and!.
  - apply (wf_keys _ Hwf).
  - intros n d Hin Hd. destruct (Hnode n d Hin Hd) as (a & r & Hget & Hr & Hname & Hn).
    exists a, r. split_and!; try done.
    intros a' Ha'%(elem_obj_get _ _ _ (wf_keys _ Hwf)). congruence.
  - intros k a Hget. destruct (hist_record _ _ HL k a Hget) as (r & Hr & Hname & Hor).
    destruct Hor as [(_ & _ & d & Hin & Hroot) | (_ & _ & Hocc)].
    + exists k, d. split; [done|]. split; [by apply is_root_resolved|].
      unfold ident. by rewrite Hroot.
    + destruct (occurrences k (visits deps)) as [|[n d] o] eqn:Ho; [done|].
      assert ((n, d) ∈ occurrences k (visits deps)) as Hin
        by (rewrite Ho; apply list_elem_of_here).
      apply occurrences_elem in Hin as [[Hnest Hid] Hin]. simpl in *.
      exists n, d. split; [done|]. split; [by apply is_nested_resolved|].
      unfold ident. by rewrite (is_nested_root _ Hnest).
  - intros n d n' d' Hin Hin' Hroot Hnest.
    destruct (Hnode n d Hin (is_root_resolved _ Hroot)) as (a & r & Hget & Hr & _ & Hn).
    destruct (Hnode n' d' Hin' (is_nested_resolved _ Hnest))
      as (a' & r' & Hget' & Hr' & _ & Hn').
    rewrite Hroot in Hn. rewrite (is_nested_root _ Hnest) in Hn'.
    unfold ident in *. rewrite Hroot in *. rewrite (is_nested_root _ Hnest) in *.
    split_and!; [done..|]. intros Heq. rewrite Heq in Hget. simpl in *. congruence.
Qed.

Lemma resource_keys_unique_witness :
  NoDup (keys (resources ex_resolved)) ∧
  keys (resources ex_resolved) = ["A"; "B@1.0.0"; "C"].
Proof.
  split; [|vm_compute; reflexivity].
  exact (proj1 (resource_keys_unique ex_tree (init false) ex_resolved
                  (pristine_init false) ex_resolved_run)).
Defined.

(** ** Parents after normalisation *)

Lemma normalize_split st st' :
  normalizeDepParents st = Done st' →
  ∃ st1, for_each deferred_body (nested_root_deps st) st = Done st1 ∧
         normalize_pass2 st1 = Done st'.
Proof.
  unfold normalizeDepParents. intros (st1 & [_ ?]%pass1_Done & ?)%and_then_Done.
  by exists st1.
Qed.


Lemma resolve_resolved_frame n d st :
  out (final (resolve_resolved n d st)) = out st ∧
  nested_root_deps (final (resolve_resolved n d st)) = nested_root_deps st.
Proof.
  rewrite resolve_resolved_eq. simpl. unfold resolve_root, resolve_nested.
  destruct st as [h rs rl sh nr na nm lg ou rq]. simpl.
  case_bool_decide; simpl.
  - destruct (nm && _); simpl; destruct (obj_read n rs); simpl; try done.
    all: unfold upd, set_heap; simpl; rewrite ?alter_fresh, ?lookup_fresh; simpl.
    all: by rewrite getHash_Some.
  - destruct (obj_read (show (_id d)) rs) as [b| |]; simpl; [|done|].
    + by destruct ((h ++ [fresh_info d]) !! b ≫= parent).
    + unfold upd, set_heap; simpl; rewrite ?alter_fresh, ?lookup_fresh; simpl.
      by rewrite getHash_Some.
Qed.














Definition ex_normalized : state :=
  Eval vm_compute in final (normalizeDepParents ex_resolved).

Lemma ex_normalized_run : normalizeDepParents ex_resolved = Done ex_normalized.
Proof. vm_compute. reflexivity. Qed.



Example ex_tree_closed :
  (heap ex_normalized !! 1%nat) ≫= parent = Some [Str "A"; Str "C"] ∧
  keys (resources ex_normalized) = ["A"; "B@1.0.0"; "C"].
Proof. split; vm_compute; reflexivity. Qed.

(** ** Merged occurrences of a nested dependency *)

Lemma deferred_key_elem st n d :
  (n, d) ∈ nested_root_deps st → is_Some (obj_get n (nested_root_deps st)).
Proof.
  intros Hin. apply elem_keys, list_elem_of_fmap. by exists (n, d).
Qed.








(** A later copy of [B@1.0.0] at the location [__proto__] is merged like
    any other, but the index gets no entry for it. *)
Definition ex_merge_proto_tree : obj node :=
  [("A", Node (Some "A@1.0.0") (Some "https://registry.example/A@1.0.0.tgz")
              "/A" ["/"] None None None None
              [("B", ex_leaf "B@1.0.0" "/A/node_modules/B" "/A");
               ("b", ex_leaf "B@1.0.0" "__proto__" "/A")])].

Example merge_at_proto_location :
  ∃ st, resolveDependencies ex_merge_proto_tree (init false) = Done st ∧
        (heap st !! 1%nat) ≫= parent = Some [Str "/A"; Str "/A"] ∧
        reverse_location st !! "/A/node_modules/B" = Some "B@1.0.0" ∧
        reverse_location st !! "__proto__" = None.
Proof. eexists. split_and!; vm_compute; reflexivity. Qed.

(** ** Deferred root dependencies in pass 1 *)







(** A tree in which [X] is installed at root level and [A] lists it again
    without a resolved URL; the nested [B] is required from that second
    location. *)
Definition ex_link_tree : obj node :=
  [("X", ex_leaf "X@1.0.0" "/X" "/A");
   ("A", Node (Some "A@1.0.0") (Some "https://registry.example/A@1.0.0.tgz")
              "/A" ["/"] None None None None
              [("X", Node (Some "X@1.0.0") None "/A/node_modules/X" ["/A"]
                          None None None None []);
               ("B", ex_leaf "B@1.0.0" "/A/node_modules/B" "/A/node_modules/X")])].

Definition ex_link_resolved : state :=
  Eval vm_compute in final (resolveDependencies ex_link_tree (init false)).

Definition ex_link_pass1 : state :=
  Eval vm_compute in final (normalize_pass1 ex_link_resolved).


Lemma ex_link_resolved_run :
  resolveDependencies ex_link_tree (init false) = Done ex_link_resolved.
Proof. vm_compute. reflexivity. Qed.


(** ** A root-level name declared twice *)

Lemma resolveOne_out n d st : out (final (resolveOne n d st)) = out st.
Proof.
  unfold resolveOne.
  assert (out (warn_unsupported d st) = out st) as Hw by (by rewrite warn_unsupported_eq).
  destruct (truthy (_id d)); simpl; [|done].
  destruct (truthy (_resolved d)); simpl; [|done].
  rewrite <-Hw. apply resolve_resolved_frame.
Qed.

(** The resolver completes or throws. *)
Lemma resolve_resolved_no_halt n d st h s : resolve_resolved n d st ≠ Halt h s.
Proof.
  rewrite resolve_resolved_eq. simpl. unfold resolve_root, resolve_nested.
  case_bool_decide.
  - destruct (obj_read n _); try done. by destruct (getHash _ _).
  - destruct (obj_read (show (_id d)) _); try done.
    + by destruct (_ ≫= parent).
    + by destruct (getHash _ _).
Qed.

Lemma resolveOne_no_halt n d st h s : resolveOne n d st ≠ Halt h s.
Proof.
  unfold resolveOne. destruct (negb _); [done|]. destruct (negb _); [done|].
  apply resolve_resolved_no_halt.
Qed.

Lemma for_each_no_halt {A} (body : A → state → outcome) l st :
  (∀ x s h s', body x s ≠ Halt h s') → ∀ h s', for_each body l st ≠ Halt h s'.
Proof.
  intros Hb. revert st. induction l as [|x l IH]; intros st h s'; simpl; [done|].
  destruct (body x st) as [s1|e s1|h1 s1] eqn:Hx; simpl; [apply IH | done|].
  by destruct (Hb x st h1 s1).
Qed.

Lemma resolveDependencies_no_halt deps st h s : resolveDependencies deps st ≠ Halt h s.
Proof.
  rewrite resolveDependencies_flat. apply for_each_no_halt.
  intros [n d] ? ? ?. apply resolveOne_no_halt.
Qed.

Lemma resolveDependencies_out deps st :
  out (final (resolveDependencies deps st)) = out st.
Proof.
  rewrite resolveDependencies_flat.
  apply (for_each_final _ (λ s, out s = out st)); [|done].
  intros [n d] s _ Hs. simpl. by rewrite resolveOne_out.
Qed.

Lemma roots_middle L1 L2 L3 n d1 d2 :
  is_root d1 = true → is_root d2 = true →
  ¬ NoDup (roots (L1 ++ (n, d1) :: L2 ++ (n, d2) :: L3)).*1.
Proof.
  intros H1 H2. unfold roots.
  rewrite filter_app, filter_cons, decide_True, filter_app, filter_cons, decide_True
    by done.
  rewrite fmap_app, fmap_cons, fmap_app, fmap_cons. simpl.
  intros [_ [_ Hnd]]%NoDup_app. apply NoDup_cons in Hnd as [Hn _].
  apply Hn, elem_of_app. right. apply list_elem_of_here.
Qed.

Lemma duplicate_root_throws deps st0 L1 L2 L3 n d1 d2 :
  pristine st0 →
  visits deps = L1 ++ (n, d1) :: L2 ++ (n, d2) :: L3 →
  is_root d1 = true → is_root d2 = true →
  threw (resolveDependencies deps st0).
Proof.
  intros H0 HL H1 H2.
  destruct (resolveDependencies deps st0) as [st|e st|h st] eqn:Hrun; [|done|].
  - destruct (resolved_inv _ _ _ H0 Hrun) as (_ & Hh & _).
    apply hist_roots in Hh. rewrite HL in Hh. by apply roots_middle in Hh.
  - by apply resolveDependencies_no_halt in Hrun.
Qed.

Definition require_line : string :=
  "require File.expand_path(" +:+ dq +:+ "../../Homebrew/node" +:+ dq
  +:+ ", __FILE__)" +:+ nl +:+ nl.

(** The part of the state the formula header leaves alone. *)
Definition same_core (st st' : state) : Prop :=
  heap st' = heap st ∧ resources st' = resources st ∧
  reverse_location st' = reverse_location st ∧
  resources_sha256s st' = resources_sha256s st ∧
  nested_root_deps st' = nested_root_deps st ∧
  native_addons st' = native_addons st.

Lemma same_core_pristine st st' : same_core st st' → pristine st → pristine st'.
Proof.
  unfold same_core, pristine. intuition congruence.
Qed.

(** [st'] is [st] with more lines written to [out]. *)
Definition extends (st st' : state) : Prop :=
  same_core st st' ∧ ∃ l, out st' = out st ++ l.

Lemma extends_refl st : extends st st.
Proof. split; [done|]. exists []. by rewrite app_nil_r. Qed.

Lemma extends_trans st1 st2 st3 : extends st1 st2 → extends st2 st3 → extends st1 st3.
Proof.
  unfold extends, same_core. intros [H1 [l1 Ho1]] [H2 [l2 Ho2]]. split.
  - intuition congruence.
  - exists (l1 ++ l2). by rewrite Ho2, Ho1, app_assoc.
Qed.

Lemma extends_out_write s st : extends st (out_write s st).
Proof. split; [done|]. by exists [s]. Qed.

Lemma extends_write_desc m data st : extends st (write_desc m data st).
Proof.
  unfold write_desc. destruct (truthy (description data)).
  - destruct (_ <? _)%Z.
    + eapply extends_trans; apply extends_out_write.
    + apply extends_out_write.
  - apply extends_out_write.
Qed.

Lemma extends_write_homepage data st : extends st (write_homepage data st).
Proof.
  unfold write_homepage. destruct (truthy (homepage data)); apply extends_out_write.
Qed.

Lemma extends_getHash u st : extends st (getHash u st).2.
Proof.
  destruct u as [u|]; [|apply extends_refl]. rewrite getHash_Some.
  split; [done|]. exists []. by rewrite app_nil_r.
Qed.

Lemma extends_write_url transfer data st st' :
  write_url transfer data st = Done st' → extends st st'.
Proof.
  unfold write_url, await. destruct (truthy (pkg_resolved data)).
  - destruct (getHash _ _) as [p s] eqn:Hg.
    assert (extends st s) as Hs.
    { eapply extends_trans; [apply extends_out_write|].
      pose proof (extends_getHash (pkg_resolved data)
                    (out_write ("  url " +:+ dq +:+ show (pkg_resolved data) +:+ dq +:+ nl) st))
        as He. by rewrite Hg in He. }
    destruct p as [dg|u]; [|destruct (transfer u) as [dg| |]; [|done..]].
    all: intros [= <-]; eapply extends_trans; [done | apply extends_out_write].
  - intros [= <-]. eapply extends_trans; apply extends_out_write.
Qed.

Lemma extends_write_depends st st' : write_depends st = Done st' → extends st st'.
Proof.
  unfold write_depends. intros [= <-]. destruct (native _).
  - repeat (eapply extends_trans; [|apply extends_out_write]). apply extends_refl.
  - repeat (eapply extends_trans; [|apply extends_out_write]). apply extends_refl.
Qed.

Lemma head_written transfer module_name data st0 st1 :
  write_head transfer module_name data st0 >>> write_depends = Done st1 →
  same_core st0 st1 ∧ ∃ l, out st1 = out st0 ++ require_line :: l.
Proof.
  intros (s & Hs & Hd)%and_then_Done. unfold write_head in Hs.
  apply extends_write_url in Hs. apply extends_write_depends in Hd.
  set (s0 := out_write _ st0) in Hs.
  assert (extends s0 st1) as [Hcore [l Hl]].
  { eapply extends_trans; [|exact Hd]. eapply extends_trans; [|exact Hs].
    eapply extends_trans; [apply extends_out_write|].
    eapply extends_trans; [apply extends_write_desc|]. apply extends_write_homepage. }
  split.
  - destruct st0. exact Hcore.
  - exists l. rewrite Hl. subst s0. destruct st0. simpl. by rewrite <-app_assoc.
Qed.

(** [A] is installed at root level and listed once more, at the same
    location, among the dependencies of [C]. *)
Definition ex_dup_tree : obj node :=
  [("A", ex_leaf "A@1.0.0" "/A" "/");
   ("C", Node (Some "C@1.0.0") (Some "https://registry.example/C@1.0.0.tgz")
              "/C" ["/"] None None None None
              [("A", ex_leaf "A@1.0.0" "/A" "/C")])].

Definition ex_dup_package : package := Package (Some "demo") None None ex_dup_tree.

Definition ex_dup_head : state :=
  Eval vm_compute in
    final (write_head (λ _, ResponseError) "demo" ex_dup_package (init false)
           >>> write_depends).

(** The run on [ex_dup_package] is rejected by the resolver, after eight
    writes of the formula header to [out]. *)
Lemma duplicate_root_partial_output :
  ∃ st', formula_chain (λ _, ResponseError) Done "demo" false ex_dup_package
           (init false)
         = Throw (Error "error resolving root dependency: A@1.0.0") st' ∧
         head (out st') = Some require_line ∧
         length (out st') = 8%nat ∧
         out st' ≠ [].
Proof.
  eexists. split; [vm_compute; reflexivity|]. split_and!.
  - vm_compute. reflexivity.
  - vm_compute. reflexivity.
  - vm_compute. discriminate.
Qed.

(** C4, amended.  A root-level node whose name already keys a resource
    makes the resolver throw [error resolving root dependency].  When the
    walk reaches two root-level nodes with the same name, resolution throws
    from every pristine state, and the promise chain is rejected: none of
    the later callbacks writes to [out].  What was written before the
    resolver ran stays written: [out] then holds the formula header,
    starting with the [require] line. *)
Theorem duplicate_root_aborts (transfer : string → answer)
    (formula_tail : state → outcome) (module_name : string) (to_file : bool)
    (data : package) (st0 st1 : state) (L1 L2 L3 : list (string * node))
    (n : string) (d1 d2 : node) :
  pristine st0 →
  write_head transfer module_name data st0 >>> write_depends = Done st1 →
  visits (pkg_dependencies data) = L1 ++ (n, d1) :: L2 ++ (n, d2) :: L3 →
  is_root d1 = true → is_root d2 = true →
  (∀ s a, obj_get n (resources s) = Some a →
     ∃ s', resolveOne n d2 s
           = Throw (Error ("error resolving root dependency: " +:+ show (_id d2))) s' ∧
           out s' = out s) ∧
  (∀ s, pristine s → threw (resolveDependencies (pkg_dependencies data) s)) ∧
  ∃ e st',
    formula_chain transfer formula_tail module_name to_file data st0 = Throw e st' ∧
    out st' = out st1 ∧
    ∃ l, out st1 = out st0 ++ require_line :: l.
Proof.
  intros H0 Hhead HL Hd1 Hd2.
  assert (∀ s, pristine s → threw (resolveDependencies (pkg_dependencies data) s))
    as Hthrow by (intros s Hs; by eapply duplicate_root_throws).
  split_and!; [|done|].
  - intros s a Hget.
    assert (resources (warn_unsupported d2 s) = resources s ∧
            out (warn_unsupported d2 s) = out s) as [Hr Ho]
      by (by rewrite warn_unsupported_eq).
    rewrite resolveOne_resolved by (by apply is_root_resolved).
    destruct (resolve_root_dup n d2 (warn_unsupported d2 s)) as (s' & -> & Hout & _).
    + unfold is_root in Hd2. by apply andb_true_iff in Hd2 as [_ ?].
    + by rewrite Hr, (obj_read_Own _ _ _ Hget).
    + exists s'. split; [done | congruence].
  - destruct (head_written _ _ _ _ _ Hhead) as [Hcore Hout].
    pose proof (same_core_pristine _ _ Hcore H0) as H1.
    unfold formula_chain. rewrite Hhead. simpl. unfold resolve_stage.
    set (s := if to_file then _ else st1).
    assert (pristine s ∧ out s = out st1) as [Hs Hso]
      by (subst s; destruct to_file; [by destruct st1 | done]).
    pose proof (Hthrow s Hs) as Ht. pose proof (resolveDependencies_out (pkg_dependencies data) s) as Ho.
    destruct (resolveDependencies (pkg_dependencies data) s) as [?|e st'|? ?];
      [done| |done]. simpl in *. exists e, st'. split; [done|]. split; [congruence | done].
Qed.

Lemma duplicate_root_aborts_witness :
  ∃ e st',
    formula_chain (λ _, ResponseError) Done "demo" false ex_dup_package (init false)
    = Throw e st' ∧
    out st' = out ex_dup_head ∧
    ∃ l, out ex_dup_head = out (init false) ++ require_line :: l.
Proof.
  apply (duplicate_root_aborts (λ _, ResponseError) Done "demo" false ex_dup_package
           (init false) ex_dup_head []
           [("C", Node (Some "C@1.0.0") (Some "https://registry.example/C@1.0.0.tgz")
                       "/C" ["/"] None None None None
                       [("A", ex_leaf "A@1.0.0" "/A" "/C")])]
           [] "A" (ex_leaf "A@1.0.0" "/A" "/") (ex_leaf "A@1.0.0" "/A" "/C")).
  - apply pristine_init.
  - vm_compute. reflexivity.
  - vm_compute. reflexivity.
  - vm_compute. reflexivity.
  - vm_compute. reflexivity.
Defined.

(** * Further properties of the code *)

(** ** Strings *)

Lemma sapp_nil_l s : "" +:+ s = s.
Proof. reflexivity. Qed.

Lemma sapp_cons c s t : String c s +:+ t = String c (s +:+ t).
Proof. reflexivity. Qed.

Lemma sapp_nil_r s : s +:+ "" = s.
Proof. induction s as [|c s IH]; [done|]. by rewrite sapp_cons, IH. Qed.

Lemma sapp_assoc s t u : (s +:+ t) +:+ u = s +:+ (t +:+ u).
Proof. induction s as [|c s IH]; [done|]. by rewrite !sapp_cons, IH. Qed.

Lemma sapp_length s t : String.length (s +:+ t) = (String.length s + String.length t)%nat.
Proof. induction s as [|c s IH]; [done|]. rewrite sapp_cons. simpl. by rewrite IH. Qed.

(** ** The location tokenizer *)

Fixpoint no_slash (s : string) : bool :=
  match s with
  | EmptyString => true
  | String c s' => negb (Ascii.eqb c "/"%char) && no_slash s'
  end.

(** A path segment: not empty, and without a slash. *)
Definition segment (s : string) : bool :=
  negb (String.eqb s "") && no_slash s.

(** The location that lists [segs] from the root: [/a/b/c]. *)
Fixpoint join_location (segs : list string) : string :=
  match segs with
  | [] => ""
  | x :: l => "/" +:+ x +:+ join_location l
  end.

Lemma no_slash_app s t : no_slash (s +:+ t) = no_slash s && no_slash t.
Proof.
  induction s as [|c s IH]; [done|]. rewrite sapp_cons. simpl.
  by rewrite IH, andb_assoc.
Qed.

Lemma branch_scan_segments s cur :
  (∀ seg, cur = Some seg → no_slash seg = true) →
  Forall (λ seg, segment seg = true) (branch_scan s cur).
Proof.
  revert cur. induction s as [|c s IH]; intros cur Hcur; simpl.
  - destruct cur as [seg|]; [|constructor].
    destruct (String.eqb seg "") eqn:Hseg; [constructor|].
    apply Forall_singleton. unfold segment. by rewrite Hseg, (Hcur seg).
  - destruct (Ascii.eqb c "/") eqn:Hc.
    + destruct cur as [seg|].
      * destruct (String.eqb seg "") eqn:Hseg.
        -- apply IH. by intros ? [= <-].
        -- apply Forall_cons. split.
           ++ unfold segment. by rewrite Hseg, (Hcur seg).
           ++ apply IH. by intros ? [= <-].
      * apply IH. by intros ? [= <-].
    + destruct cur as [seg|].
      * apply IH. intros ? [= <-]. rewrite no_slash_app, (Hcur seg) by done.
        simpl. by rewrite Hc.
      * by apply IH.
Qed.

(** X1.  Every segment that [getDepTreeBranch] returns is non-empty and
    contains no slash, whatever the location string. *)
Theorem branch_segments_clean (location : string) :
  Forall (λ seg, segment seg = true) (getDepTreeBranch location).
Proof. apply branch_scan_segments. done. Qed.

Lemma branch_scan_segment x rest acc :
  no_slash x = true →
  branch_scan (x +:+ rest) (Some acc) = branch_scan rest (Some (acc +:+ x)).
Proof.
  revert acc. induction x as [|c x IH]; intros acc Hx.
  - by rewrite sapp_nil_l, sapp_nil_r.
  - simpl in Hx. apply andb_true_iff in Hx as [Hc Hx]. apply negb_true_iff in Hc.
    rewrite sapp_cons. simpl. rewrite Hc, IH by done.
    by rewrite sapp_assoc, sapp_cons, sapp_nil_l.
Qed.

Lemma branch_scan_join segs acc :
  Forall (λ seg, segment seg = true) segs →
  branch_scan (join_location segs) (Some acc) =
  (if String.eqb acc "" then [] else [acc]) ++ segs.
Proof.
  intros Hsegs. revert acc. induction Hsegs as [|x l Hx _ IH]; intros acc.
  - simpl. destruct (String.eqb acc ""); by rewrite ?app_nil_r.
  - unfold segment in Hx. apply andb_true_iff in Hx as [Hne Hx].
    apply negb_true_iff in Hne.
    change (join_location (x :: l)) with (String "/" (x +:+ join_location l)).
    simpl. rewrite branch_scan_segment, sapp_nil_l, IH, Hne by done.
    by destruct (String.eqb acc "").
Qed.

(** X2.  Tokenizing the location that lists some segments from the root
    gives those segments back, in order. *)
Theorem branch_join_roundtrip (segs : list string) :
  Forall (λ seg, segment seg = true) segs →
  getDepTreeBranch (join_location segs) = segs.
Proof.
  intros Hsegs. unfold getDepTreeBranch. destruct Hsegs as [|x l Hx Hl]; [done|].
  pose proof (branch_scan_join (x :: l) "" (Forall_cons_2 _ _ _ Hx Hl)) as H.
  change (join_location (x :: l)) with (String "/" (x +:+ join_location l)) in *.
  simpl in *. exact H.
Qed.

Lemma branch_join_roundtrip_witness :
  getDepTreeBranch (join_location ["A"; "node_modules"; "B"])
  = ["A"; "node_modules"; "B"].
Proof.
  apply branch_join_roundtrip. repeat constructor.
Defined.

(** X3.  Whatever precedes the first slash of a location is ignored; in
    particular a location without any slash has an empty branch. *)
Theorem branch_prefix_ignored (p s : string) :
  no_slash p = true →
  getDepTreeBranch (p +:+ s) = getDepTreeBranch s ∧ getDepTreeBranch p = [].
Proof.
  intros Hp. unfold getDepTreeBranch.
  assert (∀ t, branch_scan (p +:+ t) None = branch_scan t None) as H.
  { intros t. induction p as [|c p IH]; [done|].
    simpl in Hp. apply andb_true_iff in Hp as [Hc Hp]. apply negb_true_iff in Hc.
    rewrite sapp_cons. simpl. rewrite Hc. by apply IH. }
  split; [apply H|]. by rewrite <-(sapp_nil_r p), H.
Qed.

Lemma branch_prefix_ignored_witness :
  getDepTreeBranch ("node_modules" +:+ "/A") = getDepTreeBranch "/A" ∧
  getDepTreeBranch "node_modules" = [].
Proof. apply branch_prefix_ignored. reflexivity. Defined.

(** ** The hash fetcher on a registry URL *)

(** X4.  For a URL that starts with [https://], [getHash] issues exactly
    one [https.get], for that URL, and returns the promise that waits for
    it; it writes nothing to the log or to [out] and leaves the resources,
    the records and the other promises alone. *)
Theorem getHash_secure (u : string) (st : state) :
  String.prefix "https://" u = true →
  (getHash (Some u) st).1 = Fetching u ∧
  requests (getHash (Some u) st).2 = requests st ++ [u] ∧
  log (getHash (Some u) st).2 = log st ∧
  out (getHash (Some u) st).2 = out st ∧
  heap (getHash (Some u) st).2 = heap st ∧
  resources (getHash (Some u) st).2 = resources st ∧
  resources_sha256s (getHash (Some u) st).2 = resources_sha256s st.
Proof.
  intros Hu. rewrite getHash_Some. unfold hash_promise, hash_log, hash_requests, secure.
  rewrite bool_decide_eq_true_2 by (by apply index_0_prefix). simpl.
  by rewrite app_nil_r.
Qed.

Lemma getHash_secure_witness :
  (getHash (Some "https://registry.example/pkg/-/pkg-1.0.0.tgz") (init false)).1
  = Fetching "https://registry.example/pkg/-/pkg-1.0.0.tgz" ∧
  requests (getHash (Some "https://registry.example/pkg/-/pkg-1.0.0.tgz") (init false)).2
  = [] ++ ["https://registry.example/pkg/-/pkg-1.0.0.tgz"].
Proof.
  pose proof (getHash_secure "https://registry.example/pkg/-/pkg-1.0.0.tgz"
                (init false) eq_refl) as (H1 & H2 & _).
  exact (conj H1 H2).
Defined.

(** ** Replacing the first occurrence *)

Lemma substring_0_0 s : String.substring 0 0 s = "".
Proof. by destruct s. Qed.

(** X5.  [replace pat rep s] leaves [s] alone when [pat] does not occur in
    it; otherwise it puts [rep] in the place of the first occurrence of
    [pat] and keeps what is before and after it. *)
Theorem replace_first_occurrence (pat rep s : string) :
  match String.index 0 pat s with
  | None => replace pat rep s = s
  | Some i =>
      replace pat rep s =
      String.substring 0 i s +:+ rep +:+
      String.substring (i + String.length pat)
                       (String.length s - i - String.length pat) s
  end.
Proof.
  induction s as [|c s IH].
  - destruct pat; simpl; [|done]. by rewrite sapp_nil_r.
  - change (String.index 0 pat (String c s))
      with (if String.prefix pat (String c s) then Some 0%nat
            else match String.index 0 pat s with
                 | Some n => Some (S n)
                 | None => None
                 end).
    change (replace pat rep (String c s))
      with (if String.prefix pat (String c s)
            then rep +:+ String.substring (String.length pat)
                           (String.length (String c s) - String.length pat) (String c s)
            else String c (replace pat rep s)).
    destruct (String.prefix pat (String c s)).
    + rewrite substring_0_0, sapp_nil_l. repeat f_equal; simpl; lia.
    + destruct (String.index 0 pat s) as [i|]; [|by rewrite IH].
      rewrite IH. simpl. by rewrite sapp_cons.
Qed.


(** ** One completed step, in full *)

(** The state after a classified node created the record [r] under [k]. *)
Definition created (k : string) (r : info) (d : node) (s : state) : state :=
  State (heap s ++ [r])
        (obj_set k (length (heap s)) (resources s))
        (index_write (_location d) k (reverse_location s))
        (obj_set k (hash_promise (url r)) (resources_sha256s s))
        (nested_root_deps s)
        (native_addons s ++ addon_of d (length (heap s)))
        (native s)
        (log s ++ hash_log (url r))
        (out s)
        (requests s ++ hash_requests (url r)).

(** The state after a nested node was merged into the record [r] at [b]. *)
Definition merged (b : addr) (r : info) (p : list pval) (d : node) (s : state)
    : state :=
  State (<[b := set_parent (Some (p ++ (Str <$> _requiredBy d))) r]> (heap s)
         ++ [fresh_info d])
        (resources s)
        (index_write (_location d) (show (_id d)) (reverse_location s))
        (resources_sha256s s)
        (nested_root_deps s)
        (native_addons s ++ addon_of d (length (heap s)))
        (native s) (log s) (out s) (requests s).

Definition root_info (n : string) (d : node) (s : state) : info :=
  Info (show (_resolved d)) (install_cmd d) (bin_of (native s) d)
       (Some false) (Some n) None.

Definition nested_info (d : node) : info :=
  Info (show (_resolved d)) (install_cmd d) None (Some true)
       (Some (show (_id d))) (Some (Str <$> _requiredBy d)).

Inductive step_case (n : string) (d : node) (s st' : state) : Prop :=
  | case_skipped :
      truthy (_id d) = false → st' = s → step_case n d s st'
  | case_deferred :
      truthy (_id d) = true → truthy (_resolved d) = false →
      st' = set_nested_root_deps (obj_set n d) s → step_case n d s st'
  | case_root :
      is_root d = true → obj_read n (resources s) = Absent →
      st' = created n (root_info n d s) d s → step_case n d s st'
  | case_nested :
      is_nested_node d = true → obj_read (show (_id d)) (resources s) = Absent →
      st' = created (show (_id d)) (nested_info d) d s → step_case n d s st'
  | case_merged b r p :
      is_nested_node d = true → obj_get (show (_id d)) (resources s) = Some b →
      heap s !! b = Some r → parent r = Some p →
      st' = merged b r p d s → step_case n d s st'.

Lemma resolve_resolved_throw_cases n d s e st' :
  resolve_resolved n d s = Throw e st' →
  (bool_decide (length (getDepTreeBranch (_location d)) = 1%nat) = true ∧
   (is_Some (obj_get n (resources s)) ∨ inherited n = true) ∧
   e = Error ("error resolving root dependency: " +:+ show (_id d))) ∨
  (bool_decide (length (getDepTreeBranch (_location d)) = 1%nat) = false ∧
   e = TypeError ∧
   (inherited (show (_id d)) = true ∨
    ∃ b, obj_get (show (_id d)) (resources s) = Some b ∧
         ∀ r, heap s !! b = Some r → parent r = None)).
Proof.
  destruct (bool_decide (length (getDepTreeBranch (_location d)) = 1%nat)) eqn:Hb.
  - destruct (obj_read n (resources s)) as [a| |] eqn:Hrd.
    + destruct (resolve_root_dup n d s Hb) as (? & -> & _); [by rewrite Hrd|].
      intros [= <- <-]. left. apply obj_read_Own_inv in Hrd. eauto.
    + destruct (resolve_root_dup n d s Hb) as (? & -> & _); [by rewrite Hrd|].
      intros [= <- <-]. left. apply obj_read_Proto in Hrd as [_ ?]. eauto.
    + by rewrite resolve_root_new.
  - destruct (obj_read (show (_id d)) (resources s)) as [b| |] eqn:Hrd.
    + rewrite resolve_resolved_eq. simpl. rewrite Hb. unfold resolve_nested. simpl.
      rewrite Hrd. destruct ((heap s ++ [fresh_info d]) !! b ≫= parent) eqn:Hp; [done|].
      intros [= <- <-]. right. split_and!; [done..|]. right.
      exists b. split; [by apply obj_read_Own_inv|].
      intros r Hr. rewrite (lookup_old _ _ _ _ Hr) in Hp. simpl in Hp.
      by destruct (parent r).
    + destruct (resolve_nested_proto n d s Hb Hrd) as (? & -> & _).
      intros [= <- <-]. right. split_and!; [done..|]. left.
      by apply obj_read_Proto in Hrd as [_ ?].
    + by rewrite resolve_nested_new.
Qed.

Lemma resolveOne_cases n d st st' :
  resolveOne n d st = Done st' → step_case n d (warn_unsupported d st) st'.
Proof.
  intros Hstep. destruct (truthy (_id d)) eqn:Hid.
  2:{ rewrite resolveOne_skip in Hstep by done. injection Hstep as <-.
      by apply case_skipped. }
  destruct (truthy (_resolved d)) eqn:Hres.
  2:{ rewrite resolveOne_defer in Hstep by done. injection Hstep as <-.
      by apply case_deferred. }
  assert (resolved d = true) as Hd by (unfold resolved; by rewrite Hid, Hres).
  rewrite resolveOne_resolved in Hstep by done.
  set (s := warn_unsupported d st) in *.
  destruct (bool_decide (length (getDepTreeBranch (_location d)) = 1%nat)) eqn:Hb.
  - assert (is_root d = true) as Hroot by (unfold is_root; by rewrite Hd, Hb).
    destruct (obj_read n (resources s)) as [a| |] eqn:Hrd.
    + destruct (resolve_root_dup n d s Hb) as (? & Heq & _); [by rewrite Hrd|].
      congruence.
    + destruct (resolve_root_dup n d s Hb) as (? & Heq & _); [by rewrite Hrd|].
      congruence.
    + rewrite resolve_root_new in Hstep by done. injection Hstep as <-.
      by apply case_root.
  - assert (is_nested_node d = true) as Hnest
      by (unfold is_nested_node; by rewrite Hd, Hb).
    destruct (obj_read (show (_id d)) (resources s)) as [b| |] eqn:Hrd.
    + pose proof (obj_read_Own_inv _ _ _ Hrd) as Hget.
      destruct (heap s !! b) as [r|] eqn:Hr.
      * destruct (parent r) as [p|] eqn:Hp.
        -- rewrite (resolve_nested_merge n d s b r p) in Hstep by done.
           injection Hstep as <-. by eapply case_merged.
        -- exfalso. revert Hstep. rewrite resolve_resolved_eq. simpl. rewrite Hb.
           unfold resolve_nested. simpl. rewrite Hrd, (lookup_old _ _ _ _ Hr).
           simpl. by rewrite Hp.
      * exfalso. revert Hstep. rewrite resolve_resolved_eq. simpl. rewrite Hb.
        unfold resolve_nested. simpl. rewrite Hrd.
        apply lookup_ge_None in Hr.
        destruct (decide (b = length (heap s))) as [->|Hne].
        -- by rewrite lookup_fresh.
        -- rewrite lookup_ge_None_2; [done|]. rewrite length_app. simpl. lia.
    + destruct (resolve_nested_proto n d s Hb Hrd) as (? & Heq & _). congruence.
    + rewrite resolve_nested_new in Hstep by done. injection Hstep as <-.
      by apply case_nested.
Qed.

(** ** The resolver only adds *)

(** [st'] keeps what [st] holds: every resource under its key, every
    record with its url, name, flags, command and executables, the pending
    parents possibly extended at the end, and every indexed location. *)
Record keeps (st st' : state) : Prop :=
  Keeps {
    keeps_resources : ∀ k a, obj_get k (resources st) = Some a →
                             obj_get k (resources st') = Some a;
    keeps_records : ∀ a r, heap st !! a = Some r →
      ∃ r', heap st' !! a = Some r' ∧
            url r' = url r ∧ name r' = name r ∧ nested r' = nested r ∧
            install r' = install r ∧ info_bin r' = info_bin r ∧
            ∀ p, parent r = Some p → ∃ q, parent r' = Some (p ++ q);
    keeps_index : ∀ loc, is_Some (reverse_location st !! loc) →
                         is_Some (reverse_location st' !! loc);
    keeps_out : out st' = out st;
    keeps_native : native st' = native st
  }.

Lemma keeps_refl st : keeps st st.
Proof.
  split; try done. intros a r Hr. exists r. split_and!; try done.
  intros p Hp. exists []. by rewrite app_nil_r.
Qed.

Lemma keeps_trans st1 st2 st3 : keeps st1 st2 → keeps st2 st3 → keeps st1 st3.
Proof.
  intros [Hr1 Hh1 Hi1 Ho1 Hn1] [Hr2 Hh2 Hi2 Ho2 Hn2]. split; try congruence; auto.
  intros a r Hr. destruct (Hh1 a r Hr) as (r2 & Hr2' & ? & ? & ? & ? & ? & Hp1).
  destruct (Hh2 a r2 Hr2') as (r3 & Hr3 & ? & ? & ? & ? & ? & Hp2).
  exists r3. split_and!; try congruence.
  intros p Hp. destruct (Hp1 p Hp) as [q1 Hq1]. destruct (Hp2 _ Hq1) as [q2 Hq2].
  exists (q1 ++ q2). by rewrite Hq2, app_assoc.
Qed.

Lemma keeps_warn d st : keeps st (warn_unsupported d st).
Proof.
  rewrite warn_unsupported_eq. split; simpl; try done.
  intros a r Hr. exists r. split_and!; try done.
  intros p Hp. exists []. by rewrite app_nil_r.
Qed.

Lemma keeps_created k r d s : obj_read k (resources s) = Absent → keeps s (created k r d s).
Proof.
  intros [Hk _]%obj_read_Absent. split; simpl; try done.
  - intros k' a Hget. rewrite obj_get_set_ne; [done | congruence].
  - intros a x Hx. exists x. split; [by apply lookup_old|]. split_and!; try done.
    intros p Hp. exists []. by rewrite app_nil_r.
  - intros loc Hloc. rewrite index_write_lookup. by case_decide.
Qed.

Lemma keeps_merged b r p d s :
  heap s !! b = Some r → parent r = Some p → keeps s (merged b r p d s).
Proof.
  intros Hr Hp. split; simpl; try done.
  - intros a x Hx. destruct (decide (a = b)) as [->|Hne].
    + eexists. split.
      * apply lookup_old, list_lookup_insert_eq. by eapply lookup_lt_Some.
      * assert (x = r) as -> by congruence. simpl. split_and!; try done.
        intros p' Hp'. exists (Str <$> _requiredBy d). congruence.
    + exists x. split; [apply lookup_old; by rewrite list_lookup_insert_ne|].
      split_and!; try done. intros p' Hp'. exists []. by rewrite app_nil_r.
  - intros loc Hloc. rewrite index_write_lookup. by case_decide.
Qed.

Lemma resolveOne_keeps n d st st' : resolveOne n d st = Done st' → keeps st st'.
Proof.
  intros Hstep%resolveOne_cases. eapply keeps_trans; [apply (keeps_warn d)|].
  destruct Hstep as [_ -> | _ _ -> | _ Hn -> | _ Hn -> | b r p _ _ Hr Hp ->].
  - apply keeps_refl.
  - split; try done. intros a r Hr. exists r. split_and!; try done.
    intros p Hp. exists []. by rewrite app_nil_r.
  - by apply keeps_created.
  - by apply keeps_created.
  - by apply keeps_merged.
Qed.

(** X6.  The resolver only adds.  When a walk completes, from any state,
    every resource is still under its key, every record has kept its url,
    name, nested flag, install command and executables while its pending
    parents have at most grown at the end, every indexed location is still
    indexed, and nothing was written to [out]. *)
Theorem resolver_only_adds (deps : obj node) (st st' : state) :
  resolveDependencies deps st = Done st' → keeps st st'.
Proof.
  rewrite resolveDependencies_flat.
  apply (for_each_hist _ (λ _ s, keeps st s)).
  - apply keeps_refl.
  - intros l [n d] s s' Hs Hstep. eapply keeps_trans; [done|].
    by eapply resolveOne_keeps.
Qed.

Lemma resolver_only_adds_witness :
  keeps (init false) ex_resolved ∧
  keeps ex_merge_state
        (final (resolveDependencies [("B", ex_merge_node)] ex_merge_state)).
Proof.
  split.
  - apply (resolver_only_adds ex_tree). apply ex_resolved_run.
  - apply (resolver_only_adds [("B", ex_merge_node)]). vm_compute. reflexivity.
Defined.

(** ** What a completed walk leaves in the state *)

Lemma walk_hist (P : list (string * node) → state → Prop) st0 L st :
  pristine st0 →
  P [] st0 →
  (∀ l n d s s',
     wf s → hist l s → P l s → resolveOne n d s = Done s' → P (l ++ [(n, d)]) s') →
  for_each (λ nd, resolveOne nd.1 nd.2) L st0 = Done st →
  wf st ∧ hist L st ∧ P L st.
Proof.
  intros H0 HP0 Hstep.
  apply (for_each_hist _ (λ l s, wf s ∧ hist l s ∧ P l s)).
  - split_and!; [by apply wf_pristine | by apply hist_pristine | done].
  - intros l [n d] s s' (Hwf & Hh & HP) Hs. simpl in Hs.
    pose proof (resolveOne_view _ _ _ _ Hs) as Hv.
    split_and!; [by eapply step_view_wf | by eapply hist_step | by eapply Hstep].
Qed.

Lemma wf_warn d st : wf st → wf (warn_unsupported d st).
Proof. intros [? ? ?]. rewrite warn_unsupported_eq. by split. Qed.

(** The hash promise the resolver stores for the resource [k]. *)
Definition promise_of (st : state) (k : string) : option promise :=
  (λ r, hash_promise (url r)) <$> (obj_get k (resources st) ≫= λ a, heap st !! a).

Lemma promise_step n d st s' :
  wf st →
  (∀ k, obj_get k (resources_sha256s st) = promise_of st k) →
  resolveOne n d st = Done s' →
  ∀ k, obj_get k (resources_sha256s s') = promise_of s' k.
Proof.
  intros Hwf HP Hstep%resolveOne_cases k. apply (wf_warn d) in Hwf.
  assert (∀ k, obj_get k (resources_sha256s (warn_unsupported d st))
               = promise_of (warn_unsupported d st) k) as HP'.
  { intros k'. unfold promise_of. rewrite warn_unsupported_eq. apply HP. }
  clear HP. revert Hwf HP' Hstep. generalize (warn_unsupported d st). clear st.
  intros s Hwf HP Hstep.
  assert (∀ k r (dd : node), obj_get k (resources s) = None →
            ∀ k', obj_get k' (resources_sha256s (created k r dd s))
                  = promise_of (created k r dd s) k') as Hcreated.
  { intros k0 r dd Hk0 k'. unfold promise_of. simpl. rewrite !obj_get_set.
    case_decide; simpl; [by rewrite lookup_fresh|].
    rewrite HP. unfold promise_of.
    destruct (obj_get k' (resources s)) as [a|] eqn:Ha; simpl; [|done].
    by rewrite lookup_app_l by (by eapply wf_alloc). }
  destruct Hstep as [_ -> | _ _ -> | _ [Hn _]%obj_read_Absent ->
                    | _ [Hn _]%obj_read_Absent -> | b r p _ Hb Hr Hp ->];
    [done | apply HP | by apply Hcreated | by apply Hcreated |].
  unfold promise_of. simpl. rewrite HP. unfold promise_of.
  destruct (obj_get k (resources s)) as [a|] eqn:Ha; simpl; [|done].
  rewrite lookup_app_l by (rewrite length_insert; by eapply wf_alloc).
  destruct (decide (a = b)) as [->|Hne].
  - rewrite list_lookup_insert_eq by (by eapply lookup_lt_Some). by rewrite Hr.
  - by rewrite list_lookup_insert_ne.
Qed.

(** X7.  After a completed walk, [resources_sha256s] has a promise exactly
    for the keys of [resources], and the promise of a resource is the one
    [getHash] gives for the url of its record: pending for an [https://]
    url, resolved to null otherwise. *)
Theorem every_resource_has_its_promise (deps : obj node) (st0 st : state) :
  pristine st0 →
  resolveDependencies deps st0 = Done st →
  ∀ k, obj_get k (resources_sha256s st) = promise_of st k.
Proof.
  intros H0. rewrite resolveDependencies_flat. intros Hrun.
  apply (walk_hist (λ _ s, ∀ k, obj_get k (resources_sha256s s) = promise_of s k)
           st0 (visits deps) st H0); [| |done].
  - destruct H0 as (_ & Hr & _ & Hs & _). intros k. unfold promise_of.
    by rewrite Hr, Hs.
  - intros _ n d s s' Hwf _ HP Hstep. by eapply promise_step.
Qed.

Lemma every_resource_has_its_promise_witness :
  obj_get "B@1.0.0" (resources_sha256s ex_resolved) = promise_of ex_resolved "B@1.0.0" ∧
  promise_of ex_resolved "B@1.0.0" = Some (Fetching "https://registry.example/B@1.0.0.tgz").
Proof.
  split; [|vm_compute; reflexivity].
  apply (every_resource_has_its_promise ex_tree (init false) ex_resolved
           (pristine_init false) ex_resolved_run).
Defined.

(** The identifier of the last classified node of [L] located at [loc]. *)
Definition located (loc : string) (L : list (string * node)) : option string :=
  foldl (λ acc nd, if decide (resolved nd.2 = true ∧ _location nd.2 = loc)
                   then Some (ident nd.1 nd.2) else acc) None L.

(** X8.  After a completed walk the location index maps a location to the
    identifier of the last classified node walked at that location, and
    holds no other location: every location that was given an identifier
    is indexed before the normaliser starts.  The one exception is the
    location [__proto__], which is never stored. *)
Theorem index_after_walk (deps : obj node) (st0 st : state) :
  pristine st0 →
  resolveDependencies deps st0 = Done st →
  ∀ loc, reverse_location st !! loc =
         if decide (loc = "__proto__") then None else located loc (visits deps).
Proof.
  intros H0. rewrite resolveDependencies_flat. intros Hrun.
  apply (walk_hist (λ l s, ∀ loc, reverse_location s !! loc =
                     if decide (loc = "__proto__") then None else located loc l)
           st0 (visits deps) st H0); [| |done].
  - destruct H0 as (_ & _ & Hl & _). intros loc. rewrite Hl, lookup_empty.
    by case_decide.
  - clear. intros l n d st s' _ _ HP Hstep%resolveOne_cases loc.
    unfold located. rewrite foldl_snoc. fold (located loc l). simpl.
    assert (reverse_location (warn_unsupported d st) = reverse_location st) as Hw
      by (by rewrite warn_unsupported_eq).
    assert (∀ id, resolved d = true → ident n d = id →
              index_write (_location d) id (reverse_location st) !! loc =
              if decide (loc = "__proto__") then None
              else if decide (resolved d = true ∧ _location d = loc)
                   then Some (ident n d) else located loc l) as Hgen.
    { intros id Hd <-. rewrite index_write_lookup, HP.
      destruct (decide (loc = "__proto__")) as [->|Hloc].
      - rewrite decide_False; [done | by intros [-> ?]].
      - destruct (decide (_location d = loc)) as [<-|Hne].
        + by rewrite !decide_True.
        + rewrite !decide_False; [done | by intros [_ ?] | by intros [? _]]. }
    destruct Hstep as [Hid -> | Hid Hres -> | Hroot _ -> | Hnest _ -> | b r p Hnest _ _ _ ->];
      simpl; rewrite ?Hw.
    + rewrite (decide_False (P := _ ∧ _)); [apply HP|].
      unfold resolved. rewrite Hid. by intros [? _].
    + rewrite (decide_False (P := _ ∧ _)); [apply HP|].
      unfold resolved. rewrite Hid, Hres. by intros [? _].
    + apply Hgen; [by apply is_root_resolved|]. unfold ident. by rewrite Hroot.
    + apply Hgen; [by apply is_nested_resolved|].
      unfold ident. by rewrite (is_nested_root _ Hnest).
    + apply Hgen; [by apply is_nested_resolved|].
      unfold ident. by rewrite (is_nested_root _ Hnest).
Qed.

Lemma index_after_walk_witness :
  reverse_location ex_resolved !! "/C/node_modules/B" = Some "B@1.0.0" ∧
  reverse_location ex_resolved !! "/C" = Some "C" ∧
  reverse_location ex_resolved !! "/" = None ∧
  reverse_location ex_resolved !! "__proto__" = None.
Proof.
  pose proof (index_after_walk ex_tree (init false) ex_resolved
                (pristine_init false) ex_resolved_run) as H.
  rewrite !H. by vm_compute.
Defined.

(** The last node of [L] that was deferred under the name [n]. *)
Definition last_deferred (n : string) (L : list (string * node)) : option node :=
  foldl (λ acc nd, if decide (nd.1 = n ∧ truthy (_id nd.2) = true
                              ∧ truthy (_resolved nd.2) = false)
                   then Some nd.2 else acc) None L.

(** X9.  After a completed walk [nested_root_deps] holds, under each name,
    the last walked node of that name that has an identifier and no
    resolved URL, and nothing else: a later deferred node replaces an
    earlier one of the same name. *)
Theorem deferred_after_walk (deps : obj node) (st0 st : state) :
  pristine st0 →
  resolveDependencies deps st0 = Done st →
  ∀ n, obj_get n (nested_root_deps st) = last_deferred n (visits deps).
Proof.
  intros H0. rewrite resolveDependencies_flat. intros Hrun.
  apply (walk_hist (λ l s, ∀ n, obj_get n (nested_root_deps s) = last_deferred n l)
           st0 (visits deps) st H0); [| |done].
  - destruct H0 as (_ & _ & _ & _ & Hn & _). intros n. by rewrite Hn.
  - clear. intros l n d st s' _ _ HP Hstep%resolveOne_cases k.
    unfold last_deferred. rewrite foldl_snoc. fold (last_deferred k l). simpl.
    assert (nested_root_deps (warn_unsupported d st) = nested_root_deps st) as Hw
      by (by rewrite warn_unsupported_eq).
    assert (∀ Q : Prop, resolved d = true →
              ¬ (Q ∧ truthy (_id d) = true ∧ truthy (_resolved d) = false)) as Hcl.
    { unfold resolved. intros Q [? ?]%andb_true_iff (_ & _ & ?). congruence. }
    destruct Hstep as [Hid -> | Hid Hres -> | Hroot _ -> | Hnest _ -> | b r p Hnest _ _ _ ->];
      simpl; rewrite ?Hw.
    + rewrite decide_False; [apply HP|]. intros (_ & ? & _). congruence.
    + rewrite obj_get_set. case_decide.
      * by rewrite decide_True.
      * rewrite decide_False; [apply HP | by intros [? _]].
    + rewrite decide_False; [apply HP | by apply Hcl, is_root_resolved].
    + rewrite decide_False; [apply HP | by apply Hcl, is_nested_resolved].
    + rewrite decide_False; [apply HP | by apply Hcl, is_nested_resolved].
Qed.

Lemma deferred_after_walk_witness :
  obj_get "X" (nested_root_deps ex_link_resolved)
  = Some (Node (Some "X@1.0.0") None "/A/node_modules/X" ["/A"] None None None None []) ∧
  obj_get "B" (nested_root_deps ex_link_resolved) = None.
Proof.
  pose proof (deferred_after_walk ex_link_tree (init false) ex_link_resolved
                (pristine_init false) ex_link_resolved_run) as H.
  rewrite !H. by vm_compute.
Defined.

(** The install commands of the classified nodes of [L], in order. *)
Definition addon_commands (L : list (string * node)) : list string :=
  omap (λ nd, if resolved nd.2 then install_cmd nd.2 else None) L.

Lemma keeps_install st st' a c :
  keeps st st' → (heap st !! a) ≫= install = Some c → (heap st' !! a) ≫= install = Some c.
Proof.
  intros Hk Ha. destruct (heap st !! a) as [r|] eqn:Hr; [|done].
  destruct (keeps_records _ _ Hk a r Hr) as (r' & -> & _ & _ & _ & Hi & _).
  simpl in *. congruence.
Qed.

Lemma classified_addon n d s s' :
  resolved d = true →
  step_case n d s s' →
  native_addons s' = native_addons s ++ addon_of d (length (heap s)) ∧
  (heap s' !! length (heap s)) ≫= install = install_cmd d.
Proof.
  intros Hd [Hid _ | Hid Hres _ | _ _ -> | _ _ -> | b r p _ _ Hr _ ->].
  - unfold resolved in Hd. by rewrite Hid in Hd.
  - unfold resolved in Hd. by rewrite Hid, Hres in Hd.
  - simpl. by rewrite lookup_fresh.
  - simpl. by rewrite lookup_fresh.
  - simpl. split; [done|].
    rewrite <-(length_insert (heap s) b
                 (set_parent (Some (p ++ (Str <$> _requiredBy d))) r)).
    by rewrite lookup_fresh.
Qed.

Lemma unclassified_addon n d s s' :
  resolved d = false → step_case n d s s' → native_addons s' = native_addons s.
Proof.
  intros Hd [_ -> | _ _ -> | Hx _ _ | Hx _ _ | b r p Hx _ _ _ _]; try done.
  - apply is_root_resolved in Hx. congruence.
  - apply is_nested_resolved in Hx. congruence.
  - apply is_nested_resolved in Hx. congruence.
Qed.

(** X10.  After a completed walk [native_addons] has one entry for each
    classified node with a non-empty install script, in walking order
    (merged duplicates included), and the object of each entry holds that
    node's rewritten script as its install command. *)
Theorem addons_after_walk (deps : obj node) (st0 st : state) :
  pristine st0 →
  resolveDependencies deps st0 = Done st →
  Forall2 (λ a c, (heap st !! a) ≫= install = Some c)
          (native_addons st) (addon_commands (visits deps)).
Proof.
  intros H0. rewrite resolveDependencies_flat. intros Hrun.
  apply (walk_hist (λ l s, Forall2 (λ a c, (heap s !! a) ≫= install = Some c)
                                   (native_addons s) (addon_commands l))
           st0 (visits deps) st H0); [| |done].
  - destruct H0 as (_ & _ & _ & _ & _ & ->). constructor.
  - clear. intros l n d st s' _ _ HP Hstep.
    pose proof (resolveOne_keeps _ _ _ _ Hstep) as Hk.
    apply resolveOne_cases in Hstep.
    assert (native_addons (warn_unsupported d st) = native_addons st ∧
            heap (warn_unsupported d st) = heap st) as [Hn Hh]
      by (by rewrite warn_unsupported_eq).
    unfold addon_commands. rewrite omap_app. fold (addon_commands l). simpl.
    assert (Forall2 (λ a c, (heap s' !! a) ≫= install = Some c)
                    (native_addons st) (addon_commands l)) as Hold.
    { eapply Forall2_impl; [done|]. intros a c. by apply keeps_install. }
    destruct (resolved d) eqn:Hd.
    + destruct (classified_addon _ _ _ _ Hd Hstep) as [-> Hnew].
      rewrite Hn, Hh. apply Forall2_app; [done|].
      rewrite Hh in Hnew. unfold addon_of.
      destruct (install_cmd d) as [c|]; constructor; [done | constructor].
    + rewrite (unclassified_addon _ _ _ _ Hd Hstep), Hn. by rewrite app_nil_r.
Qed.

Lemma addons_after_walk_witness :
  Forall2 (λ a c, (heap (final (resolveDependencies ex_addon_tree (init true))) !! a)
                    ≫= install = Some c)
          (native_addons (final (resolveDependencies ex_addon_tree (init true))))
          (addon_commands (visits ex_addon_tree)).
Proof.
  apply (addons_after_walk ex_addon_tree (init true)).
  - apply pristine_init.
  - vm_compute. reflexivity.
Defined.

(** ** How the resolver fails *)

Lemma for_each_Throw {A} (body : A → state → outcome) l st e st' :
  for_each body l st = Throw e st' →
  ∃ l1 x l2 s, l = l1 ++ x :: l2 ∧ for_each body l1 st = Done s ∧
               body x s = Throw e st'.
Proof.
  revert st. induction l as [|x l IH]; intros st; [done|].
  change (for_each body (x :: l) st) with (body x st >>> for_each body l).
  destruct (body x st) as [s|e0 s|h s] eqn:Hx; simpl; [| |done].
  - intros (l1 & y & l2 & s1 & -> & Hl1 & Hy)%IH.
    exists (x :: l1), y, l2, s1. split; [done|]. split; [|done].
    change (for_each body (x :: l1) st) with (body x st >>> for_each body l1).
    by rewrite Hx.
  - intros [= <- <-]. exists [], x, l, st. by split_and!.
Qed.

(** X11.  A walk from a pristine state completes or throws, and it
    throws in just two ways.  It throws [error resolving root dependency]
    at a root-level node whose name is the identifier of a classified node
    walked before it, or the name of a member of [Object.prototype]
    ([resources[n]] is then an inherited function, which is truthy); and
    it throws a [TypeError] at a nested node whose [_id] is the name of a
    root-level node walked before it, or the name of a member of
    [Object.prototype] (neither has a [parent] to concatenate to).
    Everything before the failing node was stored. *)
Theorem resolver_failures (deps : obj node) (st0 : state) :
  pristine st0 →
  match resolveDependencies deps st0 with
  | Done _ => True
  | Halt _ _ => False
  | Throw e _ =>
      ∃ L1 n d L2 s,
        visits deps = L1 ++ (n, d) :: L2 ∧
        for_each (λ nd, resolveOne nd.1 nd.2) L1 st0 = Done s ∧
        ((e = Error ("error resolving root dependency: " +:+ show (_id d)) ∧
          is_root d = true ∧
          (inherited n = true ∨
           ∃ n' d', (n', d') ∈ L1 ∧ resolved d' = true ∧ ident n' d' = n)) ∨
         (e = TypeError ∧ is_nested_node d = true ∧
          (inherited (show (_id d)) = true ∨
           ∃ d', (show (_id d), d') ∈ L1 ∧ is_root d' = true)))
  end.
Proof.
  intros H0. pose proof (resolveDependencies_no_halt deps st0) as Hnh.
  destruct (resolveDependencies deps st0) as [st|e st'|h st'] eqn:Hres;
    [done| |by destruct (Hnh h st')].
  clear Hnh. revert Hres. rewrite resolveDependencies_flat.
  intros (L1 & [n d] & L2 & s & HL & Hrun & Hx)%for_each_Throw. simpl in Hx.
  exists L1, n, d, L2, s. split; [done|]. split; [done|].
  destruct (walk_inv _ _ _ H0 Hrun) as [Hwf Hh].
  assert (resolved d = true) as Hd.
  { unfold resolveOne in Hx. unfold resolved.
    destruct (truthy (_id d)); [|done]. by destruct (truthy (_resolved d)). }
  rewrite resolveOne_resolved in Hx by done.
  assert (heap (warn_unsupported d s) = heap s ∧
          resources (warn_unsupported d s) = resources s) as [Hhp Hrs]
    by (by rewrite warn_unsupported_eq).
  apply resolve_resolved_throw_cases in Hx
    as [(Hb & Hwhy & ->) | (Hb & -> & Hwhy)]; rewrite ?Hhp, ?Hrs in *.
  - left. split; [done|]. split; [unfold is_root; by rewrite Hd, Hb|].
    destruct Hwhy as [[a Ha] | Hin]; [|by left]. right.
    destruct (hist_record _ _ Hh n a Ha) as (r & _ & _ & Hor).
    destruct Hor as [(_ & _ & d' & Hin & Hroot) | (_ & _ & Hocc)].
    + exists n, d'. split; [done|]. split; [by apply is_root_resolved|].
      unfold ident. by rewrite Hroot.
    + destruct (occurrences n L1) as [|[n' d'] o] eqn:Ho; [done|].
      assert ((n', d') ∈ occurrences n L1) as Hin by (rewrite Ho; apply list_elem_of_here).
      apply occurrences_elem in Hin as [[Hnest Hid] Hin]. simpl in *.
      exists n', d'. split; [done|]. split; [by apply is_nested_resolved|].
      unfold ident. by rewrite (is_nested_root _ Hnest).
  - right. split; [done|]. split; [unfold is_nested_node; by rewrite Hd, Hb|].
    destruct Hwhy as [Hin | (b & Hget & Hpar)]; [by left|]. right.
    destruct (hist_record _ _ Hh _ b Hget) as (r & Hr & _ & Hor).
    destruct Hor as [(_ & _ & d' & Hin & Hroot) | (_ & Hp & _)]; [by exists d'|].
    rewrite (Hpar r Hr) in Hp. done.
Qed.

Lemma resolver_failures_witness :
  match resolveDependencies ex_dup_tree (init false) with
  | Done _ => True
  | Halt _ _ => False
  | Throw e _ =>
      ∃ L1 n d L2 s,
        visits ex_dup_tree = L1 ++ (n, d) :: L2 ∧
        for_each (λ nd, resolveOne nd.1 nd.2) L1 (init false) = Done s ∧
        ((e = Error ("error resolving root dependency: " +:+ show (_id d)) ∧
          is_root d = true ∧
          (inherited n = true ∨
           ∃ n' d', (n', d') ∈ L1 ∧ resolved d' = true ∧ ident n' d' = n)) ∨
         (e = TypeError ∧ is_nested_node d = true ∧
          (inherited (show (_id d)) = true ∨
           ∃ d', (show (_id d), d') ∈ L1 ∧ is_root d' = true)))
  end.
Proof. apply (resolver_failures ex_dup_tree (init false)), pristine_init. Defined.

(** A root-level package named like a member of [Object.prototype] stops
    the walk, on an empty [resources] too. *)
Definition ex_inherited_tree : obj node :=
  [("constructor", ex_leaf "constructor@1.0.0" "/constructor" "/")].

Example inherited_root_is_error :
  ∃ st, resolveDependencies ex_inherited_tree (init false)
        = Throw (Error "error resolving root dependency: constructor@1.0.0") st.
Proof. eexists. vm_compute. reflexivity. Qed.

(** A nested node whose [_id] is the name of a root-level package. *)
Definition ex_clash_tree : obj node :=
  [("B@1.0.0", ex_leaf "B@1.0.0" "/B@1.0.0" "/");
   ("A", Node (Some "A@1.0.0") (Some "https://registry.example/A@1.0.0.tgz")
              "/A" ["/"] None None None None
              [("B", ex_leaf "B@1.0.0" "/A/node_modules/B" "/A")])].

Example clash_is_type_error :
  ∃ st, resolveDependencies ex_clash_tree (init false) = Throw TypeError st.
Proof. eexists. vm_compute. reflexivity. Qed.

(** ** What the normaliser touches *)

(** [st'] differs from [st] in parents and in the location index only. *)
Record only_parents (st st' : state) : Prop :=
  OnlyParents {
    op_resources : resources st' = resources st;
    op_sha256s : resources_sha256s st' = resources_sha256s st;
    op_deferred : nested_root_deps st' = nested_root_deps st;
    op_addons : native_addons st' = native_addons st;
    op_native : native st' = native st;
    op_log : log st' = log st;
    op_out : out st' = out st;
    op_requests : requests st' = requests st;
    op_length : length (heap st') = length (heap st);
    op_records : ∀ a r, heap st !! a = Some r →
      ∃ r', heap st' !! a = Some r' ∧
            url r' = url r ∧ name r' = name r ∧ nested r' = nested r ∧
            install r' = install r ∧ info_bin r' = info_bin r;
    op_index : ∀ loc, is_Some (reverse_location st !! loc) →
                      is_Some (reverse_location st' !! loc)
  }.

Lemma only_parents_refl st : only_parents st st.
Proof. split; try done. intros a r Hr. by exists r. Qed.

Lemma only_parents_trans st1 st2 st3 :
  only_parents st1 st2 → only_parents st2 st3 → only_parents st1 st3.
Proof.
  intros [] []. split; try congruence; auto.
  intros a r Hr. destruct (op_records0 a r Hr) as (r2 & Hr2 & ? & ? & ? & ? & ?).
  destruct (op_records1 a r2 Hr2) as (r3 & Hr3 & ? & ? & ? & ? & ?).
  exists r3. split_and!; congruence.
Qed.

Lemma only_parents_upd a f st :
  (∀ r, url (f r) = url r ∧ name (f r) = name r ∧ nested (f r) = nested r ∧
        install (f r) = install r ∧ info_bin (f r) = info_bin r) →
  only_parents st (upd a f st).
Proof.
  intros Hf. split; try (by destruct st).
  - destruct st; simpl. apply length_alter.
  - intros b r Hr. destruct (decide (b = a)) as [->|Hne].
    + exists (f r). split; [|apply Hf]. destruct st; simpl in *.
      by rewrite list_lookup_alter_eq, Hr.
    + exists r. split; [|done]. destruct st; simpl in *.
      by rewrite list_lookup_alter_ne.
Qed.

Lemma only_parents_index loc k st :
  only_parents st (set_reverse_location (index_write loc k) st).
Proof.
  split; try (by destruct st).
  - intros a r Hr. exists r. by destruct st.
  - intros l Hl. destruct st; simpl in *. rewrite index_write_lookup. by case_decide.
Qed.

Lemma only_parents_push a k st : only_parents st (final (push_parent a k st)).
Proof.
  unfold push_parent. destruct ((heap st !! a) ≫= parent) as [l|]; simpl.
  - case_bool_decide; simpl; [apply only_parents_refl|]. by apply only_parents_upd.
  - apply only_parents_refl.
Qed.

Lemma only_parents_loop msg a p st :
  only_parents st (final (for_each (resolve_into msg a) p st)).
Proof.
  apply (for_each_final _ (only_parents st)); [|apply only_parents_refl].
  intros loc s _ Hs. eapply only_parents_trans; [done|]. unfold resolve_into.
  destruct (index_read (to_key loc) (reverse_location s));
    [apply only_parents_push | apply only_parents_refl].
Qed.

Lemma only_parents_aside msg p st :
  only_parents st (final (for_each (resolve_aside msg) p st)).
Proof.
  apply (for_each_final _ (only_parents st)); [|apply only_parents_refl].
  intros loc s _ Hs. unfold resolve_aside.
  by destruct (index_read loc (reverse_location s)).
Qed.

Lemma only_parents_reconcile n d st : only_parents st (final (reconcile_deferred n d st)).
Proof.
  unfold reconcile_deferred. destruct (obj_read n (resources st)) as [a| |].
  - eapply only_parents_trans; [apply only_parents_index|].
    eapply only_parents_trans; [|apply only_parents_loop].
    apply only_parents_upd. intros r. by destruct (parent r).
  - case_decide; [apply only_parents_refl|].
    eapply only_parents_trans; [apply only_parents_index | apply only_parents_aside].
  - apply only_parents_refl.
Qed.

Lemma only_parents_normalize n a st : only_parents st (final (normalize_resource n a st)).
Proof.
  unfold normalize_resource. destruct (heap st !! a) as [r|]; [|apply only_parents_refl].
  destruct (is_nested r); [|apply only_parents_refl].
  destruct (parent r) as [p|]; simpl; [|by apply only_parents_upd].
  case_bool_decide; simpl; [by apply only_parents_upd|].
  eapply only_parents_trans; [|apply only_parents_loop]. by apply only_parents_upd.
Qed.

Lemma only_parents_pass1 st : only_parents st (final (normalize_pass1 st)).
Proof.
  unfold normalize_pass1.
  assert (only_parents st (final (for_each (λ nd, reconcile_deferred nd.1 nd.2)
                                           (own_deferred st) st))) as H.
  { apply (for_each_final _ (only_parents st)); [|apply only_parents_refl].
    intros [n d] s _ Hs. eapply only_parents_trans; [done|].
    apply only_parents_reconcile. }
  destruct (for_each _ (own_deferred st) st) as [s|e s|h s]; simpl in *; [|done..].
  by destruct (obj_get "__proto__" (nested_root_deps s)).
Qed.

Lemma only_parents_pass2 st : only_parents st (final (normalize_pass2 st)).
Proof.
  unfold normalize_pass2.
  apply (for_each_final _ (only_parents st)); [|apply only_parents_refl].
  intros [n a] s _ Hs. eapply only_parents_trans; [done|]. apply only_parents_normalize.
Qed.

(** X12.  Whether it completes or throws, [normalizeDepParents] changes
    nothing but parents and the location index: the resources, the hash
    promises, the deferred nodes, the native addons, the log, the output
    and the requests are as before, no record is added or removed, every
    record keeps its url, name, nested flag, install command and
    executables, and no indexed location is dropped. *)
Theorem normalizer_frame (st : state) :
  only_parents st (final (normalizeDepParents st)).
Proof.
  unfold normalizeDepParents. pose proof (only_parents_pass1 st) as H1.
  destruct (normalize_pass1 st) as [s1|e s1|h s1]; simpl in *; [|done..].
  eapply only_parents_trans; [done|]. apply only_parents_pass2.
Qed.

Lemma for_each_threw {A} (body : A → state → outcome) (I : state → Prop) l x st :
  x ∈ l →
  (∀ s, I s → threw (body x s)) →
  (∀ y s s', I s → body y s = Done s' → I s') →
  (∀ y s h s', y ∈ l → body y s ≠ Halt h s') →
  I st → threw (for_each body l st).
Proof.
  intros Hx Hbad Hkeep Hhalt. revert st. induction l as [|y l IH]; intros st Hst.
  - by apply elem_of_nil in Hx.
  - change (for_each body (y :: l) st) with (body y st >>> for_each body l).
    apply elem_of_cons in Hx as [->|Hx].
    + pose proof (Hbad st Hst) as Ht. by destruct (body y st).
    + destruct (body y st) as [s|e s|h s] eqn:Hy; simpl; [|done|].
      * apply IH; [done| |by eapply Hkeep].
        intros y' s0 h s' Hy'. apply Hhalt. by apply elem_of_cons; right.
      * eapply Hhalt; [|done]. apply list_elem_of_here.
Qed.

Lemma reconcile_deferred_no_halt n d st h st' :
  n ≠ "__proto__" → reconcile_deferred n d st ≠ Halt h st'.
Proof.
  intros Hn. unfold reconcile_deferred.
  destruct (obj_read n (resources st)) as [a| |]; [| |done].
  - apply for_each_no_halt. intros x s h' s'. unfold resolve_into, push_parent.
    destruct (index_read (to_key x) (reverse_location s)); [|done].
    destruct ((heap s !! a) ≫= parent); [|done]. by case_bool_decide.
  - rewrite decide_False by done. apply for_each_no_halt.
    intros x s h' s'. unfold resolve_aside.
    by destruct (index_read x (reverse_location s)).
Qed.

(** X13.  A deferred node whose name is neither the key of a resource nor
    the name of a member of [Object.prototype] makes normalisation throw:
    a dependency that was only ever seen without a resolved URL is a fatal
    error.  (Under the name of a member of [Object.prototype],
    [resources[n]] is an inherited function and the check on line 113
    passes.) *)
Theorem unresolved_deferred_throws (st : state) (n : string) (d : node) :
  (n, d) ∈ nested_root_deps st →
  obj_get n (resources st) = None →
  inherited n = false →
  threw (normalizeDepParents st).
Proof.
  intros Hin Hnone Hplain. unfold normalizeDepParents.
  assert (threw (normalize_pass1 st)) as Ht.
  { unfold normalize_pass1.
    assert (threw (for_each (λ nd, reconcile_deferred nd.1 nd.2) (own_deferred st) st))
      as Ht; [|by destruct (for_each _ (own_deferred st) st)].
    apply (for_each_threw _ (λ s, resources s = resources st) _ (n, d)); [| | | |done].
    - apply list_elem_of_filter. split; [|done]. simpl. intros ->. done.
    - intros s Hs. simpl. unfold reconcile_deferred, obj_read.
      by rewrite Hs, Hnone, Hplain.
    - intros [n' d'] s s' Hs Hrun. pose proof (only_parents_reconcile n' d' s) as Hop.
      simpl in Hrun. rewrite Hrun in Hop. simpl in Hop.
      by rewrite (op_resources _ _ Hop).
    - intros [n' d'] s h s' [Hn' _]%list_elem_of_filter. simpl in *.
      by apply reconcile_deferred_no_halt. }
  by destruct (normalize_pass1 st).
Qed.

(** A dependency that is listed without a resolved URL and installed
    nowhere. *)
Definition ex_missing_tree : obj node :=
  [("A", Node (Some "A@1.0.0") (Some "https://registry.example/A@1.0.0.tgz")
              "/A" ["/"] None None None None
              [("X", Node (Some "X@1.0.0") None "/A/node_modules/X" ["/A"]
                          None None None None [])])].

Definition ex_missing_resolved : state :=
  Eval vm_compute in final (resolveDependencies ex_missing_tree (init false)).

Lemma unresolved_deferred_throws_witness : threw (normalizeDepParents ex_missing_resolved).
Proof.
  apply (unresolved_deferred_throws ex_missing_resolved "X"
           (Node (Some "X@1.0.0") None "/A/node_modules/X" ["/A"]
                 None None None None [])).
  - vm_compute. apply list_elem_of_here.
  - vm_compute. reflexivity.
  - vm_compute. reflexivity.
Defined.

(** The same tree with the dependency named [constructor]: the check on
    line 113 finds the inherited function, and normalisation completes. *)
Definition ex_missing_stub_tree : obj node :=
  [("A", Node (Some "A@1.0.0") (Some "https://registry.example/A@1.0.0.tgz")
              "/A" ["/"] None None None None
              [("constructor",
                Node (Some "constructor@1.0.0") None "/A/node_modules/constructor"
                     ["/A"] None None None None [])])].

Example inherited_deferred_completes :
  ∃ st, normalizeDepParents (final (resolveDependencies ex_missing_stub_tree (init false)))
        = Done st.
Proof. eexists. vm_compute. reflexivity. Qed.

(** X14.  A completed reconciliation of a deferred node writes the node's
    own location into the index ([__proto__] apart) and, when a resource
    has the node's name, adds to that resource's parents what the index,
    which already holds the node's own location, gives for the requirers'
    locations; values that are already parents are not added again, and
    the new ones are added where they are first seen.  When no resource
    has the name, it is the name of a member of [Object.prototype], and no
    record changes. *)
Theorem reconcile_adds_parents (n : string) (d : node) (st st' : state) :
  wf st →
  reconcile_deferred n d st = Done st' →
  reverse_location st' = index_write (_location d) n (reverse_location st) ∧
  match obj_get n (resources st) with
  | Some a =>
      ∃ r vs,
        heap st !! a = Some r ∧
        Forall2 (λ loc v, index_read loc (index_write (_location d) n
                                            (reverse_location st)) = Some v)
                (_requiredBy d) vs ∧
        (heap st' !! a) ≫= parent =
          Some (default [] (parent r)
                ++ filter (λ v, v ∉ default [] (parent r)) (first_seen vs))
  | None => inherited n = true ∧ heap st' = heap st
  end.
Proof.
  intros Hwf Hrun.
  destruct (reconcile_deferred_Done _ _ _ _ Hwf Hrun)
    as [(a & r & ids & Hget & Hr & Hids & ->) | (Hrd & Hn & _ & ->)].
  - split; [by destruct st|]. rewrite Hget. exists r, ids. split_and!; [done| |].
    + apply mapM_Some_1 in Hids. by apply Forall2_fmap_l in Hids.
    + erewrite heap_set_heap_insert by (by destruct st). simpl.
      by rewrite foldl_push_new.
  - split; [by destruct st|]. apply obj_read_Proto in Hrd as [-> ?].
    split; [done | by destruct st].
Qed.

Lemma reconcile_adds_parents_witness :
  reverse_location ex_link_pass1
  = index_write "/A/node_modules/X" "X" (reverse_location ex_link_resolved) ∧
  ∃ r vs,
    heap ex_link_resolved !! 0%nat = Some r ∧
    Forall2 (λ loc v, index_read loc (index_write "/A/node_modules/X" "X"
                                        (reverse_location ex_link_resolved)) = Some v)
            ["/A"] vs ∧
    (heap ex_link_pass1 !! 0%nat) ≫= parent =
      Some (default [] (parent r)
            ++ filter (λ v, v ∉ default [] (parent r)) (first_seen vs)).
Proof.
  destruct (resolved_inv ex_link_tree (init false) ex_link_resolved
              (pristine_init false) ex_link_resolved_run) as (Hwf & _ & _).
  assert (reconcile_deferred "X"
            (Node (Some "X@1.0.0") None "/A/node_modules/X" ["/A"]
                  None None None None [])
            ex_link_resolved = Done ex_link_pass1) as Hrun
    by (vm_compute; reflexivity).
  exact (reconcile_adds_parents _ _ _ _ Hwf Hrun).
Defined.

(** X15.  A root-level resource under whose name no node was deferred
    comes out of a completed normalisation as the resolver left it, and
    without parents. *)
Theorem root_without_deferred_untouched (deps : obj node) (st0 st st' : state)
    (k : string) (a : addr) (r : info) :
  pristine st0 →
  resolveDependencies deps st0 = Done st →
  normalizeDepParents st = Done st' →
  obj_get k (resources st) = Some a →
  heap st !! a = Some r →
  nested r = Some false →
  obj_get k (nested_root_deps st) = None →
  heap st' !! a = Some r ∧ parent r = None.
Proof.
  intros H0 Hrun Hnorm Hget Hr Hn Hnone.
  destruct (resolved_inv _ _ _ H0 Hrun) as (Hwf & Hh & Hshape).
  destruct (normalize_split _ _ Hnorm) as (st1 & Hp1 & Hp2).
  destruct (pass1_inv _ _ _ Hwf Hshape Hp1)
    as (Hwf1 & Hshape1 & Hres1 & _ & _ & _ & Hfr).
  destruct (proj1 (proj2 (pass2_spec st1 Hwf1 Hshape1)) st' Hp2) as (_ & _ & Hrec).
  assert (heap st1 !! a = Some r) as Hr1.
  { rewrite Hfr; [done|]. intros n d Hnd Hna.
    assert (n = k) as -> by (eapply obj_get_inj; [apply Hwf|done..]).
    apply deferred_key_elem in Hnd as [? ?]. congruence. }
  rewrite <-Hres1 in Hget. specialize (Hrec k a r Hget Hr1).
  unfold is_nested in Hrec. rewrite Hn in Hrec. split; [done|].
  rewrite Hres1 in Hget.
  destruct (hist_record _ _ Hh k a Hget) as (r0 & Hr0 & _ & Hor).
  assert (r0 = r) as -> by congruence.
  destruct Hor as [(_ & ? & _) | (? & _)]; congruence.
Qed.

Lemma root_without_deferred_untouched_witness :
  heap ex_normalized !! 0%nat
  = Some (Info "https://registry.example/A@1.0.0.tgz" None None (Some false)
               (Some "A") None) ∧
  parent (Info "https://registry.example/A@1.0.0.tgz" None None (Some false)
               (Some "A") None) = None.
Proof.
  apply (root_without_deferred_untouched ex_tree (init false) ex_resolved ex_normalized
           "A" 0%nat _ (pristine_init false) ex_resolved_run ex_normalized_run).
  - vm_compute. reflexivity.
  - vm_compute. reflexivity.
  - reflexivity.
  - vm_compute. reflexivity.
Defined.

(** ** The fetches of a walk *)

(** The URLs of the pending promises. *)
Definition pending_urls (sh : obj promise) : list string :=
  omap (λ kp, match kp.2 with Fetching u => Some u | Resolved _ => None end) sh.

(** X16.  The [https.get] calls issued during a completed walk are, up to
    order, the URLs of the pending promises of [resources_sha256s]: one
    call for each resource with an [https://] url, and none for a node
    that is skipped, deferred or merged. *)
Theorem fetches_after_walk (deps : obj node) (st0 st : state) :
  pristine st0 →
  resolveDependencies deps st0 = Done st →
  requests st ≡ₚ requests st0 ++ pending_urls (resources_sha256s st).
Proof.
  intros H0. rewrite resolveDependencies_flat. intros Hrun.
  apply (walk_hist (λ _ s,
           (∀ k, obj_get k (resources_sha256s s) = promise_of s k) ∧
           requests s ≡ₚ requests st0 ++ pending_urls (resources_sha256s s))
           st0 (visits deps) st H0); [| |done].
  - destruct H0 as (_ & Hr & _ & Hs & _). split.
    + intros k. unfold promise_of. by rewrite Hr, Hs.
    + rewrite Hs. simpl. by rewrite app_nil_r.
  - clear. intros l n d st s' Hwf Hh [HP HR] Hstep. split.
    { by eapply promise_step. }
    apply resolveOne_cases in Hstep.
    assert (requests (warn_unsupported d st) = requests st ∧
            resources_sha256s (warn_unsupported d st) = resources_sha256s st ∧
            resources (warn_unsupported d st) = resources st) as (Hq & Hs & Hr)
      by (by rewrite warn_unsupported_eq).
    assert (∀ k r (dd : node), obj_get k (resources st) = None →
              requests (created k r dd (warn_unsupported d st))
              ≡ₚ requests st0 ++
                 pending_urls (resources_sha256s (created k r dd (warn_unsupported d st))))
      as Hcreated.
    { intros k r dd Hk. simpl. rewrite Hq, Hs, HR.
      assert (obj_get k (resources_sha256s st) = None) as Hfresh
        by (rewrite HP; unfold promise_of; by rewrite Hk).
      unfold pending_urls. rewrite obj_set_fresh, obj_add_perm by done. simpl.
      unfold hash_promise, hash_requests. destruct (secure (url r)); simpl.
      - rewrite <-app_assoc. apply Permutation_app_head.
        symmetry. apply Permutation_cons_append.
      - by rewrite app_nil_r. }
    destruct Hstep as [_ -> | _ _ -> | _ [Hn _]%obj_read_Absent ->
                      | _ [Hn _]%obj_read_Absent -> | b r p _ _ _ _ ->].
    + by rewrite Hq, Hs.
    + simpl. by rewrite Hq, Hs.
    + apply Hcreated. by rewrite <-Hr.
    + apply Hcreated. by rewrite <-Hr.
    + simpl. by rewrite Hq, Hs.
Qed.

Lemma fetches_after_walk_witness :
  requests ex_resolved ≡ₚ [] ++ pending_urls (resources_sha256s ex_resolved) ∧
  length (requests ex_resolved) = 3%nat.
Proof.
  split; [|vm_compute; reflexivity].
  apply (fetches_after_walk ex_tree (init false) ex_resolved
           (pristine_init false) ex_resolved_run).
Defined.

(** ** The class name *)

Fixpoint all_word (s : string) : bool :=
  match s with
  | EmptyString => true
  | String c s' => is_word c && all_word s'
  end.

Lemma to_upper_word c : is_word c = true → is_word (to_upper c) = true.
Proof. destruct c as [[] [] [] [] [] [] [] []]; vm_compute; done. Qed.

Lemma to_upper_idemp c : to_upper (to_upper c) = to_upper c.
Proof. destruct c as [[] [] [] [] [] [] [] []]; vm_compute; done. Qed.

Lemma class_name_from_word b s : all_word (class_name_from b s) = true.
Proof.
  revert b. induction s as [|c s IH]; intros b; simpl; [done|].
  destruct (is_word c) eqn:Hc; [|apply IH]. simpl. rewrite IH, andb_true_r.
  destruct b; [by apply to_upper_word | done].
Qed.

(** X17.  The class name derived from a module name consists of word
    characters only (letters, digits, underscore), and it does not begin
    with a lowercase letter: its first character is its own upper case. *)
Theorem class_name_shape (module_name : string) :
  all_word (class_name module_name) = true ∧
  match class_name module_name with
  | EmptyString => True
  | String c _ => to_upper c = c
  end.
Proof.
  split; [apply class_name_from_word|]. unfold class_name.
  induction module_name as [|c s IH]; simpl; [done|].
  destruct (is_word c); [apply to_upper_idemp | apply IH].
Qed.

(** ** The formula header *)

Definition class_line (module_name : string) : string :=
  "class " +:+ class_name module_name +:+ " < Formula" +:+ nl.

Lemma out_write_core s st : same_core st (out_write s st).
Proof. by destruct st. Qed.

Lemma out_write_out s st : out (out_write s st) = out st ++ [s].
Proof. by destruct st. Qed.

Lemma out_write_native s st : native (out_write s st) = native st.
Proof. by destruct st. Qed.

Lemma same_core_trans a b c : same_core a b → same_core b c → same_core a c.
Proof. unfold same_core. intuition congruence. Qed.

(** X18.  When the header callbacks complete, [out] has grown by the
    [require] line, then the class line, then the description, homepage,
    url, hash and dependency lines, and ends with an empty line; the
    resolver's part of the state is untouched, whatever the package
    declares. *)
Theorem header_lines (transfer : string → answer)
    (module_name : string) (data : package) (st0 st1 : state) :
  write_head transfer module_name data st0 >>> write_depends = Done st1 →
  same_core st0 st1 ∧
  ∃ l, out st1 = out st0 ++ require_line :: class_line module_name :: l ++ [nl] ∧
       5 ≤ length l.
Proof.
  intros (s & Hs & Hd)%and_then_Done. unfold write_head in Hs.
  set (s0 := out_write _ st0) in Hs. set (s1 := out_write _ s0) in Hs.
  set (s2 := write_desc module_name data s1) in Hs.
  set (s3 := write_homepage data s2) in Hs.
  assert (∃ l2, same_core s1 s2 ∧ out s2 = out s1 ++ l2 ∧ 1 ≤ length l2)
    as (l2 & Hc2 & Ho2 & Hl2).
  { subst s2. generalize s1. clear. intros s1. unfold write_desc.
    destruct s1. destruct (truthy (description data)).
    - destruct (_ <? _)%Z; eexists; (split; [done|]); unfold out_write; simpl.
      + rewrite <-app_assoc. split; [done | simpl; lia].
      + split; [done | simpl; lia].
    - eexists. split; [done|]. split; [done | simpl; lia]. }
  assert (∃ x3, same_core s2 s3 ∧ out s3 = out s2 ++ [x3]) as (x3 & Hc3 & Ho3).
  { subst s3. generalize s2. clear. intros s2. unfold write_homepage. destruct s2.
    destruct (truthy (homepage data)); eexists; (split; [done | done]). }
  assert (∃ l4, same_core s3 s ∧ out s = out s3 ++ l4 ∧ 2 ≤ length l4)
    as (l4 & Hc4 & Ho4 & Hl4).
  { revert Hs. generalize s3. clear. intros s3. unfold write_url, await.
    destruct s3. destruct (truthy (pkg_resolved data)).
    - destruct (pkg_resolved data) as [u|]; simpl.
      + rewrite getHash_Some. unfold hash_promise.
        destruct (secure u); [destruct (transfer u) as [dg| |]; [|done..]|].
        all: intros [= <-]; eexists; (split; [done|]); unfold out_write; simpl.
        all: rewrite <-!app_assoc; split; [done | simpl; lia].
      + unfold getHash. intros [= <-]. eexists. split; [done|].
        unfold out_write; simpl.
        rewrite <-!app_assoc. split; [done | simpl; lia].
    - intros [= <-]. eexists. split; [done|]. unfold out_write; simpl.
      rewrite <-!app_assoc. split; [done | simpl; lia]. }
  assert (∃ l5, same_core s st1 ∧ out st1 = out s ++ l5 ++ [nl] ∧ 1 ≤ length l5)
    as (l5 & Hc5 & Ho5 & Hl5).
  { revert Hd. clear. unfold write_depends. rewrite out_write_native.
    destruct (native s); intros Hd; injection Hd as <-.
    - eexists [_; _; _; _; _; _]. split_and!.
      + repeat (eapply same_core_trans; [|apply out_write_core]). by unfold same_core.
      + rewrite !out_write_out, <-!app_assoc. reflexivity.
      + simpl. lia.
    - eexists [_]. split_and!.
      + repeat (eapply same_core_trans; [|apply out_write_core]). by unfold same_core.
      + rewrite !out_write_out, <-!app_assoc. reflexivity.
      + simpl. lia. }
  assert (same_core st0 s1 ∧ out s1 = out st0 ++ [require_line; class_line module_name])
    as [Hc1 Ho1].
  { subst s1 s0. split; [by destruct st0|]. destruct st0. simpl. by rewrite <-app_assoc. }
  split.
  - unfold same_core in *. intuition congruence.
  - exists (l2 ++ [x3] ++ l4 ++ l5). split.
    + rewrite Ho5, Ho4, Ho3, Ho2, Ho1. rewrite <-!app_assoc. done.
    + rewrite !length_app. simpl. lia.
Qed.

Lemma header_lines_witness :
  same_core (init false) ex_dup_head ∧
  ∃ l, out ex_dup_head = out (init false) ++ require_line :: class_line "demo" :: l ++ [nl] ∧
       5 ≤ length l.
Proof.
  apply (header_lines (λ _, ResponseError) "demo" ex_dup_package (init false)
           ex_dup_head).
  vm_compute. reflexivity.
Defined.

(** X19.  When the package has an [https://] url and the transfer of its
    hash fails, the chain stops right after the url line: no hash line is
    written and the resolver is never run.  A failure that the response
    reports rejects the chain with that transport error, which the final
    [catch] receives; a failure of the request itself has no listener and
    ends the process as an uncaught error, past the [catch]. *)
Theorem root_fetch_failure (transfer : string → answer)
    (formula_tail : state → outcome) (module_name : string) (to_file : bool)
    (data : package) (st0 : state) (u : string) :
  pkg_resolved data = Some u →
  String.prefix "https://" u = true →
  transfer u = ResponseError ∨ transfer u = RequestError →
  ∃ st',
    formula_chain transfer formula_tail module_name to_file data st0
    = match transfer u with
      | RequestError => Halt (Uncaught u) st'
      | _ => Throw (TransportError u) st'
      end ∧
    same_core st0 st' ∧
    last (out st') = Some ("  url " +:+ dq +:+ u +:+ dq +:+ nl) ∧
    requests st' = requests st0 ++ [u].
Proof.
  intros Hu Hsec Hfail. unfold formula_chain, write_head, write_url.
  assert (truthy (pkg_resolved data) = true) as ->.
  { rewrite Hu. simpl. destruct u; [done|]. done. }
  rewrite Hu. cbn [show default]. rewrite getHash_Some. unfold hash_promise, secure.
  rewrite bool_decide_eq_true_2 by (by apply index_0_prefix).
  unfold await. eexists. split.
  { destruct Hfail as [-> | ->]; simpl; reflexivity. }
  unfold hash_requests, secure.
  rewrite bool_decide_eq_true_2 by (by apply index_0_prefix). simpl.
  set (s3 := write_homepage data _).
  assert (same_core st0 s3) as Hc.
  { assert (extends st0 s3) as [? _]; [|done]. subst s3.
    eapply extends_trans; [apply extends_out_write|].
    eapply extends_trans; [apply extends_out_write|].
    eapply extends_trans; [apply extends_write_desc | apply extends_write_homepage]. }
  split_and!.
  - unfold same_core in *. destruct s3. simpl in *. done.
  - destruct s3. simpl. by rewrite last_snoc.
  - destruct Hc as (_ & _ & _ & _ & _ & _).
    assert (requests s3 = requests st0) as <-; [|by destruct s3].
    subst s3. unfold write_homepage, write_desc.
    repeat (match goal with |- context [if ?b then _ else _] => destruct b end);
      by destruct st0.
Qed.

Lemma root_fetch_failure_witness :
  ∃ st',
    formula_chain (λ _, RequestError) Done "demo" false
      (Package None None (Some "https://registry.example/demo.tgz") []) (init false)
    = Halt (Uncaught "https://registry.example/demo.tgz") st' ∧
    same_core (init false) st' ∧
    last (out st')
    = Some ("  url " +:+ dq +:+ "https://registry.example/demo.tgz" +:+ dq +:+ nl) ∧
    requests st' = requests (init false) ++ ["https://registry.example/demo.tgz"].
Proof.
  apply (root_fetch_failure (λ _, RequestError) Done "demo" false
           (Package None None (Some "https://registry.example/demo.tgz") [])
           (init false) "https://registry.example/demo.tgz").
  - reflexivity.
  - reflexivity.
  - by right.
Defined.

(** The same package when the response reports the failure. *)
Example response_error_rejects :
  ∃ st',
    formula_chain (λ _, ResponseError) Done "demo" false
      (Package None None (Some "https://registry.example/demo.tgz") []) (init false)
    = Throw (TransportError "https://registry.example/demo.tgz") st'.
Proof. eexists. vm_compute. reflexivity. Qed.

(** ** The npm version check (lines 137-142) *)

(** [.] of a regular expression without flags matches any character but a
    line terminator; of those, a string of bytes has line feed and
    carriage return. *)
Definition is_line_terminator (c : ascii) : bool :=
  Ascii.eqb c "010" || Ascii.eqb c "013".

Definition any_char (k : string → bool) (s : string) : bool :=
  match s with
  | EmptyString => false
  | String c s' => negb (is_line_terminator c) && k s'
  end.

(** [\d+] followed by [k]: greedy, giving digits back when [k] fails. *)
Fixpoint digits_plus (k : string → bool) (s : string) : bool :=
  match s with
  | EmptyString => false
  | String c s' => is_digit c && (digits_plus k s' || k s')
  end.

(** [/^3.\d+.\d+/.test(npm_version)]. *)
Definition npm_supported (npm_version : string) : bool :=
  match npm_version with
  | String "3" s => any_char (digits_plus (any_char (digits_plus (λ _, true)))) s
  | _ => false
  end.

Definition unsupported_npm : string :=
  "unsupported npm error:" +:+ nl +:+
  "install the latest version of npm with:" +:+ nl +:+
  "    npm install -g npm@latest" +:+ nl +:+
  "than reinstall the npm module with it and retry creating the formula".

Definition check_npm (npm_version : string) (st : state) : outcome :=
  if npm_supported npm_version then Done st else Throw (Error unsupported_npm) st.

Fixpoint all_digits (s : string) : bool :=
  match s with
  | EmptyString => true
  | String c s' => is_digit c && all_digits s'
  end.

(** A nonempty run of digits. *)
Definition number (s : string) : Prop := s ≠ EmptyString ∧ all_digits s = true.

(** The strings the expression accepts, as a prefix shape: [3], any
    character, a number, any character, a number. *)
Definition npm3_shape (v : string) : Prop :=
  ∃ c1 d1 c2 d2 rest,
    v = String "3" (String c1 (d1 +:+ String c2 (d2 +:+ rest))) ∧
    is_line_terminator c1 = false ∧ number d1 ∧
    is_line_terminator c2 = false ∧ number d2.

Lemma digits_plus_spec k s :
  digits_plus k s = true ↔ ∃ d rest, s = d +:+ rest ∧ number d ∧ k rest = true.
Proof.
  induction s as [|c s IH]; simpl.
  - split; [done|]. intros (d & rest & Hs & [Hd _] & _). by destruct d.
  - rewrite andb_true_iff, orb_true_iff, IH. split.
    + intros [Hc [(d & rest & -> & [_ Hd] & Hk) | Hk]].
      * exists (String c d), rest. rewrite sapp_cons. split; [done|].
        split; [|done]. split; [done|]. simpl. by rewrite Hc.
      * exists (String c EmptyString), s. rewrite sapp_cons, sapp_nil_l.
        split; [done|]. split; [|done]. split; [done|]. simpl. by rewrite Hc.
    + intros (d & rest & Hs & [Hne Hd] & Hk). destruct d as [|c' d]; [done|].
      rewrite sapp_cons in Hs. injection Hs as <- ->. simpl in Hd.
      apply andb_true_iff in Hd as [Hc Hd]. split; [done|].
      destruct d as [|c'' d].
      * right. by rewrite sapp_nil_l.
      * left. exists (String c'' d), rest. done.
Qed.

Lemma any_char_spec k s :
  any_char k s = true ↔ ∃ c s', s = String c s' ∧ is_line_terminator c = false ∧ k s' = true.
Proof.
  destruct s as [|c s]; simpl.
  - split; [done|]. by intros (? & ? & ? & _).
  - rewrite andb_true_iff, negb_true_iff. split.
    + intros [? ?]. by exists c, s.
    + by intros (? & ? & [= <- <-] & ? & ?).
Qed.

Lemma npm_supported_spec v : npm_supported v = true ↔ npm3_shape v.
Proof.
  unfold npm3_shape. split.
  - destruct v as [|c v]; [done|]. simpl.
    destruct (Ascii.eqb_spec c "3") as [->|Hc].
    2:{ intros H. exfalso. revert H.
        destruct c as [[] [] [] [] [] [] [] []]; try done. }
    intros (c1 & s1 & -> & H1 & (d1 & r1 & -> & Hd1 & (c2 & s2 & -> & H2 & (d2 & r2 & -> & Hd2 & _)
      %digits_plus_spec)%any_char_spec)%digits_plus_spec)%any_char_spec.
    by exists c1, d1, c2, d2, r2.
  - intros (c1 & d1 & c2 & d2 & rest & -> & H1 & Hd1 & H2 & Hd2). simpl.
    rewrite H1. simpl.
    apply digits_plus_spec. eexists _, _. split_and!; [done..|].
    apply any_char_spec. eexists _, _. split_and!; [done..|].
    apply digits_plus_spec. eexists _, _. split_and!; done.
Qed.

(** X20.  The version check lets the chain go on, with the state as it
    was, exactly for the versions that begin with [3], any character that
    is no line terminator, a number, such a character again and a number;
    every other version rejects the chain with the [unsupported npm]
    error, the state unchanged. *)
Theorem npm_version_check (npm_version : string) (st : state) :
  (npm3_shape npm_version ∧ check_npm npm_version st = Done st) ∨
  (¬ npm3_shape npm_version ∧
   check_npm npm_version st = Throw (Error unsupported_npm) st).
Proof.
  unfold check_npm. destruct (npm_supported npm_version) eqn:E.
  - left. split; [by apply npm_supported_spec | done].
  - right. split; [|done]. intros H%npm_supported_spec. congruence.
Qed.

(** The separators are not required to be dots, and a first component
    other than [3] passes when it begins with [3]. *)
Example npm_version_loose (st : state) :
  check_npm "3.10.10" st = Done st ∧ check_npm "31234" st = Done st ∧
  check_npm "4.0.0" st = Throw (Error unsupported_npm) st ∧
  check_npm "3.x.1" st = Throw (Error unsupported_npm) st.
Proof. done. Qed.

(** ** The order of the resource blocks (lines 198-202) *)

(** [resources[n].nested] as a condition; [None] when [resources[n]] is
    [undefined], where reading the property is a [TypeError]. *)
Definition nested_of (st : state) (n : string) : option bool :=
  a ← obj_get n (resources st); r ← heap st !! a; Some (is_nested r).

(** The comparison function handed to [sort]; strings compare by code
    unit. *)
Definition compare_keys (st : state) (a b : string) : option Z :=
  na ← nested_of st a; nb ← nested_of st b;
  Some (if na && negb nb then 1
        else if negb na && nb then -1
        else if String.ltb a b then -1 else 1)%Z.

(** [a] is to come before [b]. *)
Definition before (st : state) (a b : string) : Prop :=
  compare_keys st a b = Some (-1)%Z.

Lemma compare_refl s : String.compare s s = Eq.
Proof.
  pose proof (String.compare_antisym s s) as H. by destruct (String.compare s s).
Qed.

Lemma ltb_irrefl s : String.ltb s s = false.
Proof. unfold String.ltb. by rewrite compare_refl. Qed.

Lemma ltb_asym a b : String.ltb a b = true → String.ltb b a = false.
Proof.
  unfold String.ltb. rewrite (String.compare_antisym a b).
  by destruct (String.compare b a).
Qed.

Lemma ltb_total a b : a ≠ b → String.ltb a b = false → String.ltb b a = true.
Proof.
  unfold String.ltb. intros Hne. rewrite (String.compare_antisym b a).
  destruct (String.compare a b) eqn:E; try done.
  by apply String.compare_eq_iff in E.
Qed.

Lemma ltb_le a b : String.ltb a b = true ↔ String.le a b ∧ a ≠ b.
Proof.
  unfold String.le, String.leb, String.ltb. split.
  - destruct (String.compare a b) eqn:E; try done. intros _. split; [done|].
    intros ->. by rewrite compare_refl in E.
  - intros [Hle Hne]. destruct (String.compare a b) eqn:E; try done.
    by apply String.compare_eq_iff in E.
Qed.

Lemma ltb_trans a b c :
  String.ltb a b = true → String.ltb b c = true → String.ltb a c = true.
Proof.
  rewrite !ltb_le. intros [Hab Hne] [Hbc _]. split; [by etrans|].
  intros ->. apply Hne. by apply (anti_symm String.le).
Qed.

Lemma before_spec st a b :
  before st a b ↔
  ∃ na nb, nested_of st a = Some na ∧ nested_of st b = Some nb ∧
           ((na = false ∧ nb = true) ∨ (na = nb ∧ String.ltb a b = true)).
Proof.
  unfold before, compare_keys. split.
  - destruct (nested_of st a) as [na|]; [|done].
    destruct (nested_of st b) as [nb|]; [|done]. simpl. intros H.
    exists na, nb. split; [done|]. split; [done|].
    destruct na, nb, (String.ltb a b); simpl in H; try done; auto.
  - intros (na & nb & -> & -> & H). simpl.
    destruct H as [[-> ->] | [-> ->]]; [done|]. by destruct nb.
Qed.

Lemma before_trans st a b c : before st a b → before st b c → before st a c.
Proof.
  rewrite !before_spec.
  intros (na & nb & Ha & Hb & H1) (nb' & nc & Hb' & Hc & H2).
  rewrite Hb in Hb'. injection Hb' as <-. exists na, nc. split; [done|]. split; [done|].
  destruct H1 as [[-> ->] | [-> H1]], H2 as [[? ->] | [-> H2]]; try done; auto.
  right. split; [done|]. by eapply ltb_trans.
Qed.

Lemma before_asym st a b : before st a b → before st b a → False.
Proof.
  rewrite !before_spec.
  intros (na & nb & Ha & Hb & H1) (nb' & na' & Hb' & Ha' & H2).
  rewrite Hb in Hb'. rewrite Ha in Ha'. simplify_eq.
  destruct H1 as [[-> ->] | [-> Hab]]; destruct H2 as [[? ?] | [? Hba]];
    try done; try congruence.
  apply ltb_asym in Hab. congruence.
Qed.

(** A total preorder that agrees with [before] on the keys that have a
    record; it only serves to show that a sorted arrangement exists. *)
Definition flag (st : state) (n : string) : bool := default false (nested_of st n).

Definition precedes (st : state) (a b : string) : bool :=
  (negb (flag st a) && flag st b) ||
  (bool_decide (flag st a = flag st b) && String.ltb a b).

Definition weakly (st : state) (a b : string) : Prop :=
  a = b ∨ precedes st a b = true.

#[local] Instance weakly_dec st a b : Decision (weakly st a b).
Proof. unfold weakly. apply _. Defined.

#[local] Instance weakly_trans st : Transitive (weakly st).
Proof.
  intros a b c [->|H1] [->|H2]; [by left | by right | by right |]. right.
  unfold precedes in *. revert H1 H2.
  destruct (flag st a), (flag st b), (flag st c); simpl; try done.
  all: rewrite ?bool_decide_eq_true_2 by done; simpl; apply ltb_trans.
Qed.

#[local] Instance weakly_total st : Total (weakly st).
Proof.
  intros a b. destruct (decide (a = b)) as [->|Hne]; [by left; left|].
  unfold weakly, precedes.
  destruct (flag st a), (flag st b); simpl; auto.
  all: destruct (String.ltb a b) eqn:E; auto.
  all: right; right; by apply ltb_total.
Qed.

Lemma precedes_before st a b :
  is_Some (nested_of st a) → is_Some (nested_of st b) →
  precedes st a b = true → before st a b.
Proof.
  intros [na Ha] [nb Hb]. unfold precedes, flag. rewrite Ha, Hb. simpl.
  intros H. apply before_spec. exists na, nb. split; [done|]. split; [done|].
  destruct na, nb; simpl in H; try done; auto.
Qed.

Lemma sorted_strict st l :
  NoDup l → Forall (λ k, is_Some (nested_of st k)) l →
  StronglySorted (weakly st) l → StronglySorted (before st) l.
Proof.
  induction 3 as [|x l Hs IH Hx]; [constructor|].
  apply NoDup_cons in H as [Hnot Hnd]. apply Forall_cons in H0 as [Hsx Hl].
  constructor; [by apply IH|].
  apply Forall_forall. intros y Hy.
  rewrite Forall_forall in Hx, Hl.
  destruct (Hx y Hy) as [->|Hp]; [done|]. apply precedes_before; auto.
Qed.

Lemma sorted_exists st :
  NoDup (keys (resources st)) →
  (∀ k a, obj_get k (resources st) = Some a → is_Some (heap st !! a)) →
  ∃ res, res ≡ₚ keys (resources st) ∧ StronglySorted (before st) res.
Proof.
  intros Hnd Hrec. exists (merge_sort (weakly st) (keys (resources st))). split.
  - apply merge_sort_Permutation.
  - apply sorted_strict.
    + by rewrite merge_sort_Permutation.
    + rewrite merge_sort_Permutation. apply Forall_forall. intros k Hk.
      destruct (obj_get k (resources st)) as [a|] eqn:Hget.
      * destruct (Hrec k a Hget) as [r Hr]. exists (is_nested r).
        unfold nested_of. rewrite Hget. simpl. by rewrite Hr.
      * by apply obj_get_None in Hget.
    + apply StronglySorted_merge_sort; apply _.
Qed.

Lemma sorted_unique st l1 l2 :
  StronglySorted (before st) l1 → StronglySorted (before st) l2 → l1 ≡ₚ l2 → l1 = l2.
Proof.
  apply StronglySorted_unique_strong. intros x y _ _ Hxy Hyx.
  by destruct (before_asym st x y).
Qed.

Lemma normalized_records deps st0 st st' :
  pristine st0 →
  resolveDependencies deps st0 = Done st →
  normalizeDepParents st = Done st' →
  NoDup (keys (resources st')) ∧
  ∀ k a, obj_get k (resources st') = Some a → is_Some (heap st' !! a).
Proof.
  intros H0 Hrun Hnorm. destruct (resolved_inv _ _ _ H0 Hrun) as (Hwf & _ & Hshape).
  destruct (normalize_split _ _ Hnorm) as (st1 & Hp1 & Hp2).
  destruct (pass1_inv _ _ _ Hwf Hshape Hp1) as (Hwf1 & Hshape1 & Hres1 & _).
  destruct (proj1 (proj2 (pass2_spec st1 Hwf1 Hshape1)) st' Hp2) as (Hl & Hres & Hrec).
  rewrite Hres. split; [apply Hwf1|]. intros k a Hget.
  destruct (lookup_lt_is_Some_2 (heap st1) a) as [r1 Hr1]; [by eapply wf_alloc|].
  specialize (Hrec k a r1 Hget Hr1). destruct (is_nested r1).
  - destruct Hrec as (p & ids & Hp & Hne & Hids & Hr & _). by eexists.
  - by exists r1.
Qed.

(** X21.  After the walk and the normalisation, the comparison function
    of the output stage admits exactly one sorted arrangement of the
    resource names: there is an arrangement of the keys of [resources] in
    which every name compares as smaller with every later one, and any
    two such arrangements are the same list. *)
Theorem resource_order_determined (deps : obj node) (st0 st st' : state) :
  pristine st0 →
  resolveDependencies deps st0 = Done st →
  normalizeDepParents st = Done st' →
  ∃ res, res ≡ₚ keys (resources st') ∧ StronglySorted (before st') res ∧
         ∀ res', res' ≡ₚ keys (resources st') → StronglySorted (before st') res' →
                 res' = res.
Proof.
  intros H0 Hrun Hnorm.
  destruct (normalized_records _ _ _ _ H0 Hrun Hnorm) as [Hnd Hrec].
  destruct (sorted_exists st' Hnd Hrec) as (res & Hperm & Hs).
  exists res. split; [done|]. split; [done|].
  intros res' Hperm' Hs'. apply (sorted_unique st'); [done..|]. by rewrite Hperm.
Qed.




Lemma resource_order_determined_witness :
  ∃ res, res ≡ₚ keys (resources ex_normalized) ∧
         StronglySorted (before ex_normalized) res ∧
         ∀ res', res' ≡ₚ keys (resources ex_normalized) →
                 StronglySorted (before ex_normalized) res' → res' = res.
Proof.
  apply (resource_order_determined ex_tree (init false) ex_resolved ex_normalized).
  - apply pristine_init.
  - apply ex_resolved_run.
  - apply ex_normalized_run.
Defined.

